(** * Shield-compatibility plugin: FFmpeg probe, stream mapper and metadata test

    A shallow embedding of
      - [lib/ffmpeg/probe.py]  ([ffprobe_cmd], [ffprobe_file], class [Probe],
        class [StreamMapper]) and
      - [plugin.py]            ([file_has_metadata] and the file test),
    followed by the properties the design document states about them.

    [probe.py] is read as the interpreter reads it.  Class [Probe] ends
    with line 199, inside [file]; the text of lines 681-688 stands after
    the [return] of [StreamMapper.get_ffmpeg_args] and never runs; and the
    definitions of lines 690-708 ([set_probe], [get_probe], [get]) are
    methods of [StreamMapper], the first in place of the [set_probe] of
    line 331.

    Python values are embedded as follows.  Text is [string] (a sequence of
    bytes: a [str] is kept in its UTF-8 form, in which one text is a piece
    of another exactly when it is so character by character).  JSON-like data is [pyval]; a [dict] is an
    association list in insertion order.  Python list objects that are passed
    by reference live in a [heap]; exceptions are the constructors of [exn];
    a method is a function from the state it sees to an [outcome]. *)

From stdpp Require Import base option list strings gmap pretty.

(** ** Text *)

(** An upper-case letter of the ASCII range. *)
Definition is_upper (c : Ascii.ascii) : bool :=
  let n := Ascii.N_of_ascii c in ((65 <=? n)%N && (n <=? 90)%N)%bool.

Fixpoint has_upper (s : string) : bool :=
  match s with
  | EmptyString => false
  | String c s' => is_upper c || has_upper s'
  end.

(** Text of the ASCII range only. *)
Fixpoint is_ascii (s : string) : bool :=
  match s with
  | EmptyString => true
  | String c s' => (Ascii.N_of_ascii c <? 128)%N && is_ascii s'
  end.

Module Text.

(** [needle in hay] for two [str] objects: [needle] occurs as a substring. *)
Fixpoint str_in (needle hay : string) : bool :=
  String.prefix needle hay
  || match hay with
     | EmptyString => false
     | String _ hay' => str_in needle hay'
     end.

(** One character of [str.lower()], on the ASCII range. *)
Definition lower_ascii (c : Ascii.ascii) : Ascii.ascii :=
  let n := Ascii.N_of_ascii c in
  if ((65 <=? n)%N && (n <=? 90)%N)%bool then Ascii.ascii_of_N (n + 32) else c.

(** [s.lower()] on the ASCII range: the letters [A] to [Z] become [a] to
    [z], every other byte is kept.  [StreamMapper] compares the result with
    the five kind names, which no text outside the ASCII range lowers
    into. *)
Fixpoint lower (s : string) : string :=
  match s with
  | EmptyString => EmptyString
  | String c s' => String (lower_ascii c) (lower s')
  end.

(** [s.lower()] on every text.  The case tables of Unicode belong to the
    interpreter, not to the source: the function is a parameter, with two
    facts about it.  On text of the ASCII range it is [lower]; and what it
    gives holds no upper-case ASCII letter. *)
Class Casing := {
  str_lower : string → string;
  str_lower_ascii : ∀ s, is_ascii s = true → str_lower s = lower s;
  str_lower_no_upper : ∀ s, has_upper (str_lower s) = false;
}.

(** [s.split(sep)[0]] for a one-character separator: the text before the
    first [sep], or all of [s] when there is none. *)
Fixpoint before (sep : Ascii.ascii) (s : string) : string :=
  match s with
  | EmptyString => EmptyString
  | String c s' => if decide (c = sep) then EmptyString else String c (before sep s')
  end.

(** The character ['/']. *)
Definition slash : Ascii.ascii := Ascii.ascii_of_N 47.

(** [not s] for a [str]. *)
Definition is_empty (s : string) : bool :=
  match s with EmptyString => true | _ => false end.

End Text.

Lemma lower_ascii_not_upper c : is_upper (Text.lower_ascii c) = false.
Proof.
  destruct c as [[] [] [] [] [] [] [] []]; vm_compute; reflexivity.
Qed.

Lemma lower_not_upper s : has_upper (Text.lower s) = false.
Proof.
  induction s as [|c s IH]; simpl; [done|]. by rewrite lower_ascii_not_upper, IH.
Qed.

(** The ASCII table alone, for text of the ASCII range. *)
Global Instance ascii_casing : Text.Casing := {|
  Text.str_lower := Text.lower;
  Text.str_lower_ascii := λ s _, eq_refl;
  Text.str_lower_no_upper := lower_not_upper;
|}.

(** ** Exceptions and outcomes *)

(** The exception classes the two modules raise or let through. *)
Inductive exn : Type :=
  | FFProbeError                 (* probe.py, class FFProbeError *)
  | PyException (msg : string)   (* raise Exception("...") *)
  | NotImplementedError
  | KeyError
  | IndexError
  | TypeError
  | AttributeError
  | OSError.

Global Instance exn_eq_dec : EqDecision exn.
Proof. solve_decision. Defined.

(** What a call does: it returns a value or raises, and leaves a state. *)
Inductive outcome (S A : Type) : Type :=
  | Returns (a : A) (s : S)
  | Raises (e : exn) (s : S).
Global Arguments Returns {S A} a s.
Global Arguments Raises {S A} e s.

(** Statements over a state [S]. *)
Definition M (S A : Type) : Type := S → outcome S A.

Global Instance M_ret {S} : MRet (M S) := λ A a s, Returns a s.
Global Instance M_bind {S} : MBind (M S) := λ A B k m s,
  match m s with
  | Returns a s' => k a s'
  | Raises e s' => Raises e s'
  end.

Definition raise {S A} (e : exn) : M S A := λ s, Raises e s.
Definition get {S} : M S S := λ s, Returns s s.
Definition put {S} (s : S) : M S unit := λ _, Returns tt s.
Definition modify {S} (f : S → S) : M S unit := λ s, Returns tt (f s).

(** [obj.name] for a name the object's class does not define. *)
Definition missing_attribute {S A} (name : string) : M S A := raise AttributeError.

(** The value a call returns, when it returns. *)
Definition returned {S A} (o : outcome S A) : option A :=
  match o with Returns a _ => Some a | Raises _ _ => None end.

(** The exception a call raises, when it raises. *)
Definition raised {S A} (o : outcome S A) : option exn :=
  match o with Returns _ _ => None | Raises e _ => Some e end.

(** The state a call leaves behind, either way. *)
Definition final {S A} (o : outcome S A) : S :=
  match o with Returns _ s => s | Raises _ s => s end.

(** ** List objects and references *)

Definition loc := nat.

(** The list objects alive, each under its reference. *)
Record heap := Heap {
  cells : gmap loc (list string);
  next : loc;                      (* the next unused reference *)
}.

Definition empty_heap : heap := Heap ∅ 0.

(** A new list object holding [l]. *)
Definition alloc (l : list string) (h : heap) : loc * heap :=
  (next h, Heap (<[next h := l]> (cells h)) (S (next h))).

(** The contents of the object under [r] (the empty list for a reference
    that was never allocated; no code path reads one). *)
Definition deref (h : heap) (r : loc) : list string :=
  default [] (cells h !! r).

(** The object under [r] changed in place. *)
Definition update (r : loc) (f : list string → list string) (h : heap) : heap :=
  Heap (<[r := f (deref h r)]> (cells h)) (next h).

(** [x in l] for a list of [str]. *)
Definition list_in (x : string) (l : list string) : bool :=
  bool_decide (x ∈ l).

(** [l.index(x)]: the position of the first [x]. *)
Fixpoint list_index (x : string) (l : list string) : option nat :=
  match l with
  | [] => None
  | y :: l' => if decide (y = x) then Some 0 else S <$> list_index x l'
  end.

(** ** [StreamMapper.__build_args]  (probe.py, lines 507-532) *)

Module BuildArgs.

(** The frame of one call: the heap, and the object the local name
    [options] is bound to. *)
Record frame := Frame {
  fheap : heap;
  options : loc;
}.

(** [options += l]: extends, in place, the object [options] is bound to. *)
Definition iadd (l : list string) : M frame unit :=
  modify (λ f, Frame (update (options f) (λ o, o ++ l) (fheap f)) (options f)).

(** [options = [value for value in options if value != arg]]: a new list
    object, to which the local name is rebound. *)
Definition rebind_without (arg : string) : M frame unit :=
  modify (λ f,
    let '(r, h) := alloc (filter (λ value, value ≠ arg) (deref (fheap f) (options f)))
                         (fheap f) in
    Frame h r).

(** [options[i] = x]. *)
Definition setitem (i : nat) (x : string) : M frame unit :=
  (f ← get;
   if decide (i < length (deref (fheap f) (options f)))
   then put (Frame (update (options f) (λ o, <[i := x]> o) (fheap f)) (options f))
   else raise IndexError).

(** The list the local name [options] denotes. *)
Definition current (f : frame) : list string := deref (fheap f) (options f).

(** One round of [for arg in args]. *)
Definition positional (arg : string) : M frame unit :=
  (f ← get;
   if list_in arg (current f)
   then rebind_without arg ;; iadd [arg]
   else iadd [arg]).

(** One round of [for kwarg in kwargs]. *)
Definition named (kw : string * string) : M frame unit :=
  (let key := kw.1 in
   let value := kw.2 in
   f ← get;
   match list_index key (current f) with
   | Some key_pos =>
       let val_pos := key_pos + 1 in
       setitem key_pos key ;;
       setitem val_pos value
   | None => iadd [key; value]
   end).

Fixpoint for_each {A} (body : A → M frame unit) (l : list A) : M frame unit :=
  match l with
  | [] => mret tt
  | x :: l' => body x ;; for_each body l'
  end.

Definition body (args : list string) (kwargs : list (string * string)) : M frame unit :=
  (for_each positional args ;; for_each named kwargs).

(** [self.__build_args(group, *args, **kwargs)], where [group] is the
    reference held by one of the option attributes.  The call returns
    [None]; what it leaves is the heap. *)
Definition build_args (group : loc) (args : list string)
    (kwargs : list (string * string)) : M heap unit :=
  λ h, match body args kwargs (Frame h group) with
       | Returns _ f => Returns tt (fheap f)
       | Raises e f => Raises e (fheap f)
       end.

End BuildArgs.

(** ** JSON-like values *)

(** The objects [json.loads] builds, which are also what a stream's fields
    and tags hold. *)
Set Warnings "-register-all".

Inductive pyval : Type :=
  | VNone
  | VBool (b : bool)
  | VNum (n : Z)
  | VStr (s : string)
  | VList (l : list pyval)
  | VDict (d : list (string * pyval)).

(** A [dict] with [str] keys, in insertion order. *)
Abbreviation dict := (list (string * pyval)).

Module Dict.

(** [d.get(k)]; [d[k]] raises [KeyError] where this is [None]. *)
Fixpoint lookup (k : string) (d : dict) : option pyval :=
  match d with
  | [] => None
  | (k', v) :: d' => if decide (k' = k) then Some v else lookup k d'
  end.

(** [k in d]. *)
Definition has (k : string) (d : dict) : bool :=
  bool_decide (is_Some (lookup k d)).

(** [d[k] = v]: the value of an existing key changes where it stands, a
    new key goes last. *)
Fixpoint set (k : string) (v : pyval) (d : dict) : dict :=
  match d with
  | [] => [(k, v)]
  | (k', v') :: d' => if decide (k' = k) then (k, v) :: d' else (k', v') :: set k v d'
  end.

(** [d.update(new)], and the way a dict comprehension collects its items. *)
Definition update (d new : dict) : dict :=
  foldl (λ acc kv, set kv.1 kv.2 acc) d new.

End Dict.

(** [type(v) is dict]. *)
Definition is_dict (v : pyval) : bool :=
  match v with VDict _ => true | _ => false end.

(** [bool(v)]. *)
Definition truthy (v : pyval) : bool :=
  match v with
  | VNone => false
  | VBool b => b
  | VNum n => negb (n =? 0)%Z
  | VStr s => negb (Text.is_empty s)
  | VList l => match l with [] => false | _ => true end
  | VDict d => match d with [] => false | _ => true end
  end.

(** ** The stream mapper's data *)

(** The five kinds of stream the mapper tells apart. *)
Inductive kind : Type := Video | Audio | Subtitle | Data | Attachment.

Global Instance kind_eq_dec : EqDecision kind.
Proof. solve_decision. Defined.

(** The [codec_type] text of a kind. *)
Definition kind_name (k : kind) : string :=
  match k with
  | Video => "video"
  | Audio => "audio"
  | Subtitle => "subtitle"
  | Data => "data"
  | Attachment => "attachment"
  end.

(** [StreamMapper.stream_type_idents]; the literals ['v'], ['a'], ['s'],
    ['d'], ['t'] of the five branches. *)
Definition stream_type_ident (k : kind) : string :=
  match k with
  | Video => "v"
  | Audio => "a"
  | Subtitle => "s"
  | Data => "d"
  | Attachment => "t"
  end.

(** The [if codec_type == "video": ... elif codec_type == "audio": ...] chain
    of the mapping loop: the branch a (lower-cased) [codec_type] selects. *)
Definition branch_of (codec_type : string) : option kind :=
  if decide (codec_type = "video") then Some Video
  else if decide (codec_type = "audio") then Some Audio
  else if decide (codec_type = "subtitle") then Some Subtitle
  else if decide (codec_type = "data") then Some Data
  else if decide (codec_type = "attachment") then Some Attachment
  else None.

(** What [custom_stream_mapping] may hand back.  The lists it carries are
    lists of arguments, hence of text. *)
Inductive hook_field : Type :=
  | FList (l : list string)        (* isinstance(x, list) *)
  | FOther.                        (* anything else *)

Inductive hook_value : Type :=
  | HDict (d : list (string * hook_field))   (* isinstance(x, dict) *)
  | HOther (truth : bool).                   (* anything else, None included *)

Definition hook_truthy (v : hook_value) : bool :=
  match v with
  | HDict d => match d with [] => false | _ => true end
  | HOther truth => truth
  end.

Fixpoint hook_get (k : string) (d : list (string * hook_field)) : option hook_field :=
  match d with
  | [] => None
  | (k', v) :: d' => if decide (k' = k) then Some v else hook_get k d'
  end.

(** The two methods a subclass of [StreamMapper] overrides (the base class
    raises [NotImplementedError] in both).  [test_stream_needs_processing]
    is read through [if not ...], so it is given by its truth value. *)
Class StreamPolicy := {
  test_stream_needs_processing : dict → bool;
  custom_stream_mapping : dict → nat → hook_value;
}.

(** A call of one of the two methods, as the mapper makes it. *)
Inductive call : Type :=
  | CallTest (stream_info : dict)
  | CallCustom (stream_info : dict) (stream_id : nat).

(** The five counters. *)
Record counters := Counters {
  video_stream_count : nat;
  audio_stream_count : nat;
  subtitle_stream_count : nat;
  data_stream_count : nat;
  attachment_stream_count : nat;
}.

Definition no_streams_counted : counters := Counters 0 0 0 0 0.

Definition count_of (k : kind) (c : counters) : nat :=
  match k with
  | Video => video_stream_count c
  | Audio => audio_stream_count c
  | Subtitle => subtitle_stream_count c
  | Data => data_stream_count c
  | Attachment => attachment_stream_count c
  end.

(** [self.<kind>_stream_count += 1]. *)
Definition bump (k : kind) (c : counters) : counters :=
  match k, c with
  | Video, Counters v a s d t => Counters (v + 1) a s d t
  | Audio, Counters v a s d t => Counters v (a + 1) s d t
  | Subtitle, Counters v a s d t => Counters v a (s + 1) d t
  | Data, Counters v a s d t => Counters v a s (d + 1) t
  | Attachment, Counters v a s d t => Counters v a s d (t + 1)
  end.

(** The attributes of a [StreamMapper] whose [probe] has been assigned an
    object with a [get]: [probe_streams] is what [self.probe.get('streams')]
    yields ([None] when the key is absent).  The three option groups are
    references to list objects. *)
Record StreamMapper := Mapper {
  probe_streams : option (list dict);
  processing_stream_type : list string;
  stream_mapping : list string;
  stream_encoding : list string;
  stream_counts : counters;
  input_file : string;
  output_file : string;
  generic_options : loc;
  main_options : loc;
  advanced_options : loc;
}.

(** What a method of the mapper acts on: the object itself, the list
    objects, and the calls made to the subclass so far. *)
Record world := World {
  self : StreamMapper;
  objects : heap;
  calls : list call;
}.

Definition on_self (f : StreamMapper → StreamMapper) : M world unit :=
  modify (λ w, World (f (self w)) (objects w) (calls w)).

Definition set_directives (sm se : list string) (m : StreamMapper) : StreamMapper :=
  Mapper (probe_streams m) (processing_stream_type m) sm se (stream_counts m)
         (input_file m) (output_file m)
         (generic_options m) (main_options m) (advanced_options m).

Definition set_counts (c : counters) (m : StreamMapper) : StreamMapper :=
  Mapper (probe_streams m) (processing_stream_type m)
         (stream_mapping m) (stream_encoding m) c
         (input_file m) (output_file m)
         (generic_options m) (main_options m) (advanced_options m).

Definition set_input (path : string) (m : StreamMapper) : StreamMapper :=
  Mapper (probe_streams m) (processing_stream_type m)
         (stream_mapping m) (stream_encoding m) (stream_counts m)
         path (output_file m)
         (generic_options m) (main_options m) (advanced_options m).

Definition set_output (path : string) (m : StreamMapper) : StreamMapper :=
  Mapper (probe_streams m) (processing_stream_type m)
         (stream_mapping m) (stream_encoding m) (stream_counts m)
         (input_file m) path
         (generic_options m) (main_options m) (advanced_options m).

Definition set_streams (streams : option (list dict)) (m : StreamMapper) : StreamMapper :=
  Mapper streams (processing_stream_type m)
         (stream_mapping m) (stream_encoding m) (stream_counts m)
         (input_file m) (output_file m)
         (generic_options m) (main_options m) (advanced_options m).

(** ** The host *)

(** What [subprocess.Popen(...)] followed by [communicate()] comes to: the
    program could not be started, or it ran and left its combined output and
    its return code. *)
Inductive process : Type :=
  | NotStarted
  | Exited (out : list Byte.byte) (returncode : Z).

(** The library calls of the two modules whose results depend on the machine:
    [shutil.which], [os.name], [os.path.abspath], [os.path.exists],
    [mimetypes.guess_type(p)[0]] (with the overrides of [MimetypeOverrides]
    added), [subprocess.Popen] with [communicate], [bytes.decode("utf-8")]
    and [json.loads]. *)
Class Host := {
  which : string → option string;
  os_name : string;
  abspath : string → string;
  path_exists : string → bool;
  guess_type : string → option string;
  popen : list string → process;
  decode_utf8 : list Byte.byte → option string;
  json_loads : string → option pyval;
}.

(** ** class [StreamMapper]  (probe.py, lines 230-708) *)

Module Mapper.
Section methods.
Context {host : Host} {policy : StreamPolicy}.

(** The default option groups of [__init__] (lines 277-290). *)
Definition default_generic_options : list string :=
  ["-hide_banner"; "-loglevel"; "info"].
Definition default_main_options : list string := [].
Definition default_advanced_options : list string :=
  ["-strict"; "-2"; "-max_muxing_queue_size"; "4096"].

Definition stream_types : list string :=
  ["video"; "audio"; "subtitle"; "data"; "attachment"].

(** The object [__init__] leaves (lines 264-290) for the kinds [pst], with
    a probe that holds no streams assigned to it: the three option groups
    are new list objects.  ([__init__] itself leaves [probe] as the class
    attribute [None], on which [__set_stream_mapping] cannot call [get];
    no method of the class assigns it, the code that uses the mapper
    does.) *)
Definition new_mapper (pst : list string) : world :=
  let '(g, h1) := alloc default_generic_options empty_heap in
  let '(m, h2) := alloc default_main_options h1 in
  let '(a, h3) := alloc default_advanced_options h2 in
  World (Mapper None pst [] [] no_streams_counted "" "" g m a) h3 [].

(** [StreamMapper(logger, processing_stream_type)], followed by the
    assignment of such a probe: [None] for the list leaves the class
    attribute [''], in which no kind is found, as in the empty list. *)
Definition init (processing : option (list string)) : exn + world :=
  match which "ffmpeg" with
  | None =>
      inl (PyException
        "Unable to find executable 'ffmpeg'. Please ensure that FFmpeg is installed correctly.")
  | Some _ =>
      match processing with
      | None => inr (new_mapper [])
      | Some pst =>
          if existsb (λ x, negb (Text.is_empty x) && negb (list_in x stream_types)) pst
          then inl (PyException
                 "processing_stream_type must be one of ['video','audio','subtitle','data','attachment']")
          else inr (new_mapper pst)
      end
  end.

(** [__copy_stream_mapping] (lines 292-304). *)
Definition copy_stream_mapping (codec_type : string) (stream_id : nat) : M world unit :=
  on_self (λ m, set_directives
    (stream_mapping m ++ ["-map"; "0:" +:+ codec_type +:+ ":" +:+ pretty stream_id])
    (stream_encoding m ++ ["-c:" +:+ codec_type +:+ ":" +:+ pretty stream_id; "copy"])
    m).

(** [__apply_custom_stream_mapping] (lines 306-329). *)
Definition apply_custom_stream_mapping (mapping_dict : hook_value) : M world unit :=
  match mapping_dict with
  | HOther _ => raise (PyException "processing_stream_type must return a dictionary")
  | HDict d =>
      match hook_get "stream_mapping" d with
      | None => raise (PyException
          "processing_stream_type return dictionary must contain 'stream_mapping' key")
      | Some FOther => raise (PyException
          "processing_stream_type 'stream_mapping' value must be of type 'list'")
      | Some (FList sm) =>
          match hook_get "stream_encoding" d with
          | None => raise (PyException
              "processing_stream_type return dictionary must contain 'stream_encoding' key")
          | Some FOther => raise (PyException
              "processing_stream_type 'stream_mapping' value must be of type 'list'")
          | Some (FList se) =>
              on_self (λ m, set_directives (stream_mapping m ++ sm) (stream_encoding m ++ se) m)
          end
      end
  end.

(** The assignment [mapper.probe = probe], made by the code that uses the
    mapper, of an object whose [get('streams')] gives [streams].  (The
    method [set_probe] of line 331 is replaced in the class body by the one
    of line 690, which assigns nothing: see [MapperRest.set_probe].) *)
Definition assign_probe (streams : option (list dict)) : M world unit :=
  on_self (set_streams streams).

(** The call [self.test_stream_needs_processing(stream_info)]. *)
Definition call_test (stream_info : dict) : M world bool :=
  modify (λ w, World (self w) (objects w) (calls w ++ [CallTest stream_info])) ;;
  mret (test_stream_needs_processing stream_info).

(** The call [self.custom_stream_mapping(stream_info, stream_id)]. *)
Definition call_custom (stream_info : dict) (stream_id : nat) : M world hook_value :=
  modify (λ w, World (self w) (objects w) (calls w ++ [CallCustom stream_info stream_id])) ;;
  mret (custom_stream_mapping stream_info stream_id).

(** [self.<kind>_stream_count]. *)
Definition stream_count (k : kind) : M world nat :=
  w ← get; mret (count_of k (stream_counts (self w))).

(** [self.<kind>_stream_count += 1]. *)
Definition advance (k : kind) : M world unit :=
  on_self (λ m, set_counts (bump k (stream_counts m)) m).

(** [stream_info.get('codec_type', '').lower()]. *)
Definition codec_type_of (stream_info : dict) : M world string :=
  match Dict.lookup "codec_type" stream_info with
  | None => mret (Text.lower "")
  | Some (VStr s) => mret (Text.lower s)
  | Some _ => raise AttributeError
  end.

(** One of the five branches of the loop of [__set_stream_mapping] (lines
    396-503); they are the same text up to the kind's name, counter and
    letter.  [found] is the local flag [found_streams_to_process], and the
    value returned is the flag after the branch. *)
Definition map_stream (k : kind) (stream_info : dict) (found : bool) : M world bool :=
  w ← get;
  if list_in (kind_name k) (processing_stream_type (self w)) then
    needs ← call_test stream_info;
    if negb needs then
      n ← stream_count k;
      copy_stream_mapping (stream_type_ident k) n ;;
      advance k ;;
      mret found
    else
      n ← stream_count k;
      mapping ← call_custom stream_info n;
      if hook_truthy mapping then
        apply_custom_stream_mapping mapping ;;
        advance k ;;
        mret true
      else
        n' ← stream_count k;
        copy_stream_mapping (stream_type_ident k) n' ;;
        advance k ;;
        mret found
  else
    n ← stream_count k;
    copy_stream_mapping (stream_type_ident k) n ;;
    advance k ;;
    mret found.

(** The body of [for stream_info in file_probe_streams] (lines 391-503). *)
Definition map_one (stream_info : dict) (found : bool) : M world bool :=
  codec_type ← codec_type_of stream_info;
  match branch_of codec_type with
  | Some k => map_stream k stream_info found
  | None => mret found
  end.

Fixpoint map_all (streams : list dict) (found : bool) : M world bool :=
  match streams with
  | [] => mret found
  | stream_info :: rest => found' ← map_one stream_info found; map_all rest found'
  end.

(** [__set_stream_mapping] (lines 361-505). *)
Definition set_stream_mapping : M world bool :=
  w ← get;
  match probe_streams (self w) with
  | None | Some [] => mret false
  | Some file_probe_streams =>
      on_self (set_directives [] []) ;;
      on_self (set_counts no_streams_counted) ;;
      map_all file_probe_streams false
  end.

(** [streams_need_processing] (lines 534-542). *)
Definition streams_need_processing : M world bool := set_stream_mapping.

(** A method that edits one option group through [__build_args]. *)
Definition build_args_on (group : StreamMapper → loc) (args : list string)
    (kwargs : list (string * string)) : M world unit :=
  λ w, match BuildArgs.build_args (group (self w)) args kwargs (objects w) with
       | Returns _ h => Returns tt (World (self w) h (calls w))
       | Raises e h => Raises e (World (self w) h (calls w))
       end.

(** [set_ffmpeg_generic_options], [set_ffmpeg_main_options],
    [set_ffmpeg_advanced_options] (lines 577-622). *)
Definition set_ffmpeg_generic_options := build_args_on generic_options.
Definition set_ffmpeg_main_options := build_args_on main_options.
Definition set_ffmpeg_advanced_options := build_args_on advanced_options.

(** [set_input_file], [set_output_file] (lines 558-564). *)
Definition set_input_file (path : string) : M world unit :=
  on_self (set_input (abspath path)).
Definition set_output_file (path : string) : M world unit :=
  on_self (set_output (abspath path)).

(** [set_output_null] (lines 566-575). *)
Definition set_output_null : M world unit :=
  on_self (set_output "-") ;;
  (if decide (os_name = "nt") then on_self (set_output "NUL") else mret tt) ;;
  build_args_on main_options [] [("-f", "null")].

(** The group a reference of the mapper denotes. *)
Definition group (r : StreamMapper → loc) (w : world) : list string :=
  deref (objects w) (r (self w)).

(** [get_ffmpeg_args] (lines 646-688; what stands after [return args],
    lines 681-688, does not run). *)
Definition get_ffmpeg_args : M world (list string) :=
  w ← get;
  let args := [] in
  let args := args ++ group generic_options w in
  let args := args ++ group main_options w in
  if Text.is_empty (input_file (self w)) then
    raise (PyException "Input file has not been set")
  else
    let args := args ++ ["-i"; input_file (self w)] in
    let args := args ++ group advanced_options w in
    let args := args ++ stream_mapping (self w) in
    let args := args ++ stream_encoding (self w) in
    if Text.is_empty (output_file (self w)) then
      raise (PyException "Output file has not been set")
    else if decide (output_file (self w) = "-") then
      mret (args ++ [output_file (self w)])
    else
      mret (args ++ ["-y"; output_file (self w)]).

End methods.
End Mapper.

(** ** [ffprobe_cmd], [ffprobe_file] and class [Probe]
       (probe.py, lines 46-199) *)

Module Probing.
Section functions.
Context {host : Host}.

(** [ffprobe_cmd] (lines 46-68). *)
Definition ffprobe_cmd {S} (params : list string) : M S string :=
  let command := "ffprobe" :: params in
  match popen command with
  | NotStarted => raise OSError
  | Exited out returncode =>
      match decode_utf8 out with
      | None => raise FFProbeError
      | Some raw_output =>
          if bool_decide (returncode = 1%Z) || Text.str_in "error" raw_output
          then raise FFProbeError
          else if Text.is_empty raw_output
          then raise FFProbeError
          else mret raw_output
      end
  end.

(** The arguments [ffprobe_file] passes (lines 81-88). *)
Definition ffprobe_params (vid_file_path : string) : list string :=
  ["-loglevel"; "quiet"; "-print_format"; "json";
   "-show_format"; "-show_streams"; "-show_error"; vid_file_path].

(** [ffprobe_file] (lines 71-97), for a path that is a [str]. *)
Definition ffprobe_file {S} (vid_file_path : string) : M S pyval :=
  results ← ffprobe_cmd (ffprobe_params vid_file_path);
  match json_loads results with
  | None => raise FFProbeError
  | Some info => mret info
  end.

(** The attributes of a [Probe]. *)
Record Probe := MkProbe {
  probe_info : pyval;
  allowed_mimetypes : list string;
}.

Definition set_probe_info (info : pyval) (p : Probe) : Probe :=
  MkProbe info (allowed_mimetypes p).

(** The object [__init__] leaves (lines 107-124); [probe_info] is the
    class attribute [{}]. *)
Definition new_probe (allowed : option (list string)) : Probe :=
  MkProbe (VDict []) (default ["audio"; "video"; "image"] allowed).

(** [Probe(logger, allowed_mimetypes)]. *)
Definition init (allowed : option (list string)) : exn + Probe :=
  match which "ffprobe" with
  | None =>
      inl (PyException
        "Unable to find executable 'ffprobe'. Please ensure that FFmpeg is installed correctly.")
  | Some _ => inr (new_probe allowed)
  end.

(** [__test_valid_mimetype] (lines 126-150). *)
Definition test_valid_mimetype (file_path : string) : M Probe bool :=
  self ← get;
  match guess_type file_path with
  | None => mret false
  | Some file_type =>
      let file_type_category := Text.before Text.slash file_type in
      if negb (list_in file_type_category (allowed_mimetypes self))
      then mret false
      else mret true
  end.

(** [file] (lines 183-199).  The method ends after the content-type
    test: a file that passes it is not probed, and [None] is returned as
    on the two paths before. *)
Definition file (file_path : string) : M Probe pyval :=
  modify (set_probe_info (VDict [])) ;;
  if negb (path_exists file_path) then mret VNone
  else
    valid ← test_valid_mimetype file_path;
    if negb valid then mret VNone
    else mret VNone.

End functions.
End Probing.

(** [Probe.init_probe] (probe.py, lines 152-181).  Of the plugin's [data]
    it reads and writes two entries: [path], a [str], and [shared_info],
    which may be absent. *)
Module Handoff.

Record task_data := TaskData {
  path : string;
  shared_info : option pyval;
}.

Section functions.
Context {host : Host}.
Import Probing.

(** [data.get('shared_info', {}).get('ffprobe')] (line 164). *)
Definition shared_ffprobe : M task_data pyval :=
  data ← get;
  match shared_info data with
  | None => mret VNone
  | Some (VDict shared) => mret (default VNone (Dict.lookup "ffprobe" shared))
  | Some _ => raise AttributeError
  end.

(** [if 'shared_info' not in data: data['shared_info'] = {}] and
    [data['shared_info']['ffprobe'] = value] (lines 178-180). *)
Definition share_ffprobe (value : pyval) : M task_data unit :=
  data ← get;
  (match shared_info data with
   | None => put (TaskData (path data) (Some (VDict [])))
   | Some _ => mret tt
   end) ;;
  data ← get;
  match shared_info data with
  | Some (VDict shared) =>
      put (TaskData (path data) (Some (VDict (Dict.set "ffprobe" value shared))))
  | Some _ => raise TypeError
  | None => raise KeyError
  end.

(** A method of the new [Probe], run from [init_probe]: what it returns,
    and the [Probe] it leaves. *)
Definition on_probe {A} (method : M Probe A) (probe : Probe) : M task_data (A * Probe) :=
  λ data, match method probe with
          | Returns a probe' => Returns (a, probe') data
          | Raises e _ => Raises e data
          end.

(** [init_probe]; it returns the [Probe], or [None].  The names
    [set_probe] and [get_probe] it looks up on the [Probe] are not
    attributes of class [Probe]. *)
Definition init_probe (allowed_mimetypes : option (list string))
    : M task_data (option Probe) :=
  match init allowed_mimetypes with
  | inl e => raise e
  | inr probe =>
      ffprobe_data ← shared_ffprobe;
      if truthy ffprobe_data then
        adopted ← on_probe (missing_attribute (A := pyval) "set_probe") probe;
        if negb (truthy adopted.1) then mret None
        else mret (Some adopted.2)
      else
        data ← get;
        probed ← on_probe (file (path data)) probe;
        if negb (truthy probed.1) then mret None
        else
          current ← on_probe (missing_attribute (A := pyval) "get_probe") probed.2;
          share_ffprobe current.1 ;;
          mret (Some probed.2)
  end.

End functions.
End Handoff.

(** ** [file_has_metadata]  (plugin.py, lines 42-85) *)

Module Plugin.
Section functions.
Context {casing : Text.Casing}.

(** [needle in v] for a [str] needle. *)
Definition contains {S} (needle : string) (v : pyval) : M S bool :=
  match v with
  | VStr s => mret (Text.str_in needle s)
  | VList l =>
      mret (existsb (λ x, match x with VStr s => bool_decide (s = needle) | _ => false end) l)
  | VDict d => mret (Dict.has needle d)
  | VNone | VBool _ | VNum _ => raise TypeError
  end.

(** [bool(l)] for a list. *)
Definition nonempty {A} (l : list A) : bool :=
  match l with [] => false | _ => true end.

(** [[x for x in l if test(x)]], where the test may raise. *)
Fixpoint select {S A} (test : A → M S bool) (l : list A) : M S (list A) :=
  match l with
  | [] => mret []
  | x :: l' =>
      keep ← test x;
      rest ← select test l';
      mret (if keep : bool then x :: rest else rest)
  end.

(** The streams with ["codec_type" in s and s["codec_type"] == category]
    (lines 50, 59, 66, 73). *)
Definition has_type (category : string) (s : dict) : bool :=
  match Dict.lookup "codec_type" s with
  | Some (VStr codec_type) => bool_decide (codec_type = category)
  | _ => false
  end.

Definition of_type (category : string) (probe_streams : list dict) : list dict :=
  filter (λ s, has_type category s) probe_streams.

(** The test of lines 56, 62, 69 and 76 on one item:
    [metadata_key in k.lower() and metadata_value in v]. *)
Definition item_matches {S} (metadata_key metadata_value : string)
    (kv : string * pyval) : M S bool :=
  if Text.str_in metadata_key (Text.str_lower kv.1)
  then contains metadata_value kv.2
  else mret false.

(** The test of line 51 on one stream:
    [metadata_key in s and metadata_value in s[metadata_key]]. *)
Definition field_matches {S} (metadata_key metadata_value : string)
    (s : dict) : M S bool :=
  match Dict.lookup metadata_key s with
  | Some v => contains metadata_value v
  | None => mret false
  end.

(** Lines 52-55: the entries of [probe_format] that are not dicts, updated
    with each entry that is one. *)
Definition flatten_format (probe_format : dict) : dict :=
  let probe_format_d := Dict.update [] (filter (λ kv, is_dict kv.2 = true) probe_format) in
  let probe_format_kv := Dict.update [] (filter (λ kv, is_dict kv.2 = false) probe_format) in
  foldl (λ kv v, match v with VDict d => Dict.update kv d | _ => kv end)
        probe_format_kv (probe_format_d.*2).

(** The dict comprehension of lines 61, 68 and 75:
    [{k:v for i in range(0, len(streams)) for (k, v) in
      streams[i]["tags"].items() if type(v) is not dict}]. *)
Fixpoint merge_tags {S} (streams : list dict) (acc : dict) : M S dict :=
  match streams with
  | [] => mret acc
  | s :: rest =>
      match Dict.lookup "tags" s with
      | None => raise KeyError
      | Some (VDict tags) =>
          merge_tags rest (Dict.update acc (filter (λ kv, is_dict kv.2 = false) tags))
      | Some _ => raise AttributeError
      end
  end.

(** One [try: ... except KeyError: ...] block (lines 60-64, 67-71, 74-78),
    by the truth value of what it binds. *)
Definition tags_scan {S} (metadata_key metadata_value : string)
    (streams : list dict) : M S bool :=
  λ st,
    match (tags_kv ← merge_tags streams [];
           found ← select (item_matches metadata_key metadata_value) tags_kv;
           mret (nonempty found)) st with
    | Raises KeyError st' => Returns false st'
    | o => o
    end.

(** [file_has_metadata]; [path] is only written to the log. *)
Definition file_has_metadata {S} (path : string) (probe_streams : list dict)
    (probe_format : dict) (metadata_key metadata_value : string) : M S bool :=
  let streams := of_type "video" probe_streams in
  file_has_metadata_key ← select (field_matches metadata_key metadata_value) streams;
  let probe_format_kv := flatten_format probe_format in
  file_has_metadata_key_fmt ←
    select (item_matches metadata_key metadata_value) probe_format_kv;
  let attachment_streams := of_type "attachment" probe_streams in
  file_has_metadata_key_ast ← tags_scan metadata_key metadata_value attachment_streams;
  let video_streams := of_type "video" probe_streams in
  file_has_metadata_key_vst ← tags_scan metadata_key metadata_value video_streams;
  let audio_streams := of_type "audio" probe_streams in
  file_has_metadata_key_aust ← tags_scan metadata_key metadata_value audio_streams;
  if nonempty file_has_metadata_key
     || nonempty file_has_metadata_key_fmt
     || file_has_metadata_key_ast
     || file_has_metadata_key_vst
     || file_has_metadata_key_aust
  then mret true
  else mret false.

End functions.
End Plugin.

(** * Properties *)

(** ** Outcomes and the heap *)

Lemma bind_returns {S A B} (m : M S A) (k : A → M S B) s a s' :
  m s = Returns a s' → (m ≫= k) s = k a s'.
Proof. intros Hm. unfold mbind, M_bind. by rewrite Hm. Qed.

Lemma bind_raises {S A B} (m : M S A) (k : A → M S B) s e s' :
  m s = Raises e s' → (m ≫= k) s = Raises e s'.
Proof. intros Hm. unfold mbind, M_bind. by rewrite Hm. Qed.

Lemma bind_inv_returns {S A B} (m : M S A) (k : A → M S B) s b s2 :
  (m ≫= k) s = Returns b s2 → ∃ a s1, m s = Returns a s1 ∧ k a s1 = Returns b s2.
Proof.
  unfold mbind, M_bind. destruct (m s) as [a s1|e s1]; [|done]. eauto.
Qed.

Lemma bind_get {S B} (k : S → M S B) s : (get ≫= k) s = k s s.
Proof. done. Qed.

Lemma bind_modify {S B} (f : S → S) (k : unit → M S B) s : (modify f ≫= k) s = k tt (f s).
Proof. done. Qed.

Lemma bind_mret {S A B} (a : A) (k : A → M S B) s : (mret a ≫= k) s = k a s.
Proof. done. Qed.

Lemma bind_assoc {S A B C} (m : M S A) (f : A → M S B) (g : B → M S C) s :
  ((m ≫= f) ≫= g) s = (m ≫= λ a, f a ≫= g) s.
Proof. unfold mbind, M_bind. by destruct (m s). Qed.

(** Runs the statements whose effect is known. *)
Ltac exec :=
  repeat first
    [ rewrite bind_assoc | rewrite bind_get | rewrite bind_modify | rewrite bind_mret ];
  simpl.

Lemma deref_update_same r f h : deref (update r f h) r = f (deref h r).
Proof. unfold deref, update. simpl. by rewrite lookup_insert_eq. Qed.

Lemma deref_update_other r r' f h : r ≠ r' → deref (update r f h) r' = deref h r'.
Proof. intros Hne. unfold deref, update. simpl. by rewrite lookup_insert_ne. Qed.

Lemma deref_alloc_new l h : deref (alloc l h).2 (alloc l h).1 = l.
Proof. unfold deref, alloc. simpl. by rewrite lookup_insert_eq. Qed.

Lemma deref_alloc_old l h r : r < next h → deref (alloc l h).2 r = deref h r.
Proof.
  intros Hlt. unfold deref, alloc. simpl. rewrite lookup_insert_ne; [done | lia].
Qed.

Lemma list_in_true x (l : list string) : list_in x l = true ↔ x ∈ l.
Proof. unfold list_in. by rewrite bool_decide_eq_true. Qed.

Lemma list_in_false x (l : list string) : list_in x l = false ↔ x ∉ l.
Proof. unfold list_in. by rewrite bool_decide_eq_false. Qed.

Lemma list_index_lt x (l : list string) i : list_index x l = Some i → l !! i = Some x.
Proof.
  revert i. induction l as [|y l IH]; intros i; simpl; [done|].
  case_decide as Hy.
  - intros [= <-]. by subst.
  - destruct (list_index x l) as [j|] eqn:Hj; simpl; [|done].
    intros [= <-]. simpl. by apply IH.
Qed.

Lemma list_index_none x (l : list string) : list_index x l = None ↔ x ∉ l.
Proof.
  induction l as [|y l IH]; simpl.
  - split; [intros _; apply not_elem_of_nil | done].
  - case_decide as Hy.
    + subst. split; [done | intros Hn; exfalso; apply Hn; left].
    + destruct (list_index x l) as [j|] eqn:Hj; simpl.
      * split; [done|]. intros Hn. exfalso. apply Hn. right.
        destruct (decide (x ∈ l)) as [|Hnl]; [done|]. by apply IH in Hnl.
      * split; [|done]. intros _ [->|Hin]%elem_of_cons; [done|]. by apply IH in Hin.
Qed.

(** ** The option groups: [__build_args] *)

(** The override operation as the design document words it, on a group
    taken as a plain sequence of tokens. *)
Module OverrideLaw.

(** A positional token that is present is removed and put last; one that
    is absent is put last. *)
Definition apply_positional (group : list string) (token : string) : list string :=
  if list_in token group
  then filter (λ value, value ≠ token) group ++ [token]
  else group ++ [token].

(** A named pair whose flag is present replaces the token after the flag;
    one whose flag is absent adds the flag and the value at the end. *)
Definition apply_named (group : list string) (pair : string * string) : list string :=
  match list_index pair.1 group with
  | Some i => <[i + 1 := pair.2]> group
  | None => group ++ [pair.1; pair.2]
  end.

Definition apply_overrides (group : list string) (positional : list string)
    (named : list (string * string)) : list string :=
  foldl apply_named (foldl apply_positional group positional) named.

End OverrideLaw.

Section build_args.
Import BuildArgs OverrideLaw.

(** The local name [options] no longer denotes the caller's group. *)
Definition detached (group : loc) (f : frame) : Prop :=
  options f ≠ group ∧ group < next (fheap f).

Lemma iadd_detached group l f :
  detached group f →
  ∃ f', iadd l f = Returns tt f' ∧ detached group f'
        ∧ deref (fheap f') group = deref (fheap f) group.
Proof.
  intros [Hne Hlt]. eexists. split; [done|]. simpl. split; [done|].
  by apply deref_update_other.
Qed.

Lemma rebind_detaches group arg f :
  group < next (fheap f) →
  ∃ f', rebind_without arg f = Returns tt f' ∧ detached group f'
        ∧ deref (fheap f') group = deref (fheap f) group
        ∧ current f' = filter (λ value, value ≠ arg) (current f).
Proof.
  intros Hlt. unfold rebind_without, modify.
  eexists. split; [done|]. simpl. repeat split; simpl.
  - lia.
  - lia.
  - by apply (deref_alloc_old _ (fheap f) group).
  - unfold current. simpl. apply (deref_alloc_new _ (fheap f)).
Qed.

Lemma setitem_detached group i x f :
  detached group f →
  detached group (final (setitem i x f))
  ∧ deref (fheap (final (setitem i x f))) group = deref (fheap f) group.
Proof.
  intros [Hne Hlt]. unfold setitem, mbind, M_bind, get. simpl.
  case_decide; simpl; [|done]. split; [done|]. by apply deref_update_other.
Qed.

(** Once detached, a round of either loop leaves the group as it is. *)
Lemma positional_detached group arg f :
  detached group f →
  detached group (final (positional arg f))
  ∧ deref (fheap (final (positional arg f))) group = deref (fheap f) group.
Proof.
  intros Hd. unfold positional, mbind, M_bind, get.
  destruct (list_in arg (current f)).
  - destruct (rebind_detaches group arg f (proj2 Hd)) as (f1 & -> & Hd1 & Hg1 & _).
    destruct (iadd_detached group [arg] f1 Hd1) as (f2 & -> & Hd2 & Hg2).
    simpl. split; [done | congruence].
  - destruct (iadd_detached group [arg] f Hd) as (f2 & -> & Hd2 & Hg2). done.
Qed.

Lemma named_detached group kw f :
  detached group f →
  detached group (final (named kw f))
  ∧ deref (fheap (final (named kw f))) group = deref (fheap f) group.
Proof.
  intros Hd. unfold named, mbind, M_bind, get.
  destruct (list_index kw.1 (current f)) as [key_pos|].
  - destruct (setitem_detached group key_pos kw.1 f Hd) as [Hd1 Hg1].
    destruct (setitem key_pos kw.1 f) as [[] f1|e f1]; simpl in *; [|done].
    destruct (setitem_detached group (key_pos + 1) kw.2 f1 Hd1) as [Hd2 Hg2].
    split; [done | congruence].
  - destruct (iadd_detached group [kw.1; kw.2] f Hd) as (f2 & -> & Hd2 & Hg2). done.
Qed.

Lemma for_each_detached {A} (round : A → M frame unit) group :
  (∀ x f, detached group f →
     detached group (final (round x f))
     ∧ deref (fheap (final (round x f))) group = deref (fheap f) group) →
  ∀ l f, detached group f →
    detached group (final (for_each round l f))
    ∧ deref (fheap (final (for_each round l f))) group = deref (fheap f) group.
Proof.
  intros Hround l. induction l as [|x l IH]; intros f Hd; simpl; [done|].
  unfold mbind, M_bind.
  destruct (Hround x f Hd) as [Hd1 Hg1].
  destruct (round x f) as [[] f1|e f1]; simpl in *; [|done].
  destruct (IH f1 Hd1) as [Hd2 Hg2]. split; [done | congruence].
Qed.

(** Whatever else is passed, a call whose first positional token is
    already in the group leaves the caller's list object as it was: the
    filtered list is a new object, bound to the local name only. *)
Lemma build_args_present_token_is_lost group arg args kwargs h :
  group < next h →
  arg ∈ deref h group →
  deref (final (build_args group (arg :: args) kwargs h)) group = deref h group.
Proof.
  intros Hlt Hin. unfold build_args, body. simpl.
  unfold mbind at 1 2, M_bind at 1 2.
  unfold positional at 1. unfold mbind at 1, M_bind at 1, get at 1.
  unfold current at 1. simpl.
  apply list_in_true in Hin. rewrite Hin.
  destruct (rebind_detaches group arg (Frame h group) Hlt) as (f1 & Hr1 & Hd1 & Hg1 & _).
  unfold mbind at 1, M_bind at 1. rewrite Hr1.
  destruct (iadd_detached group [arg] f1 Hd1) as (f2 & -> & Hd2 & Hg2).
  destruct (for_each_detached positional group (positional_detached group) args f2 Hd2)
    as [Hd3 Hg3].
  destruct (for_each positional args f2) as [[] f3|e f3]; simpl in *.
  - destruct (for_each_detached named group (named_detached group) kwargs f3 Hd3)
      as [Hd4 Hg4].
    destruct (for_each named kwargs f3) as [[] f4|e f4]; simpl in *; congruence.
  - congruence.
Qed.

(** While the local name still denotes the caller's group, the two loops
    do to it what the override law says. *)
Lemma positional_in_place group arg f :
  options f = group → arg ∉ current f →
  ∃ f', positional arg f = Returns tt f' ∧ options f' = group
        ∧ current f' = apply_positional (current f) arg.
Proof.
  intros Hal Hnot. unfold positional, mbind, M_bind, get, apply_positional.
  apply list_in_false in Hnot. rewrite Hnot.
  eexists. split; [done|]. split; [done|].
  unfold current. simpl. by rewrite deref_update_same.
Qed.

Lemma for_each_positional_in_place group args : ∀ f,
  options f = group → NoDup args → (∀ a, a ∈ args → a ∉ current f) →
  ∃ f', for_each positional args f = Returns tt f' ∧ options f' = group
        ∧ current f' = foldl apply_positional (current f) args.
Proof.
  induction args as [|a args IH]; intros f Hal Hnd Hnew; simpl.
  - by exists f.
  - apply NoDup_cons in Hnd as [Ha Hnd].
    destruct (positional_in_place group a f Hal) as (f1 & Hr1 & Hal1 & Hc1).
    { apply Hnew. left. }
    destruct (IH f1 Hal1 Hnd) as (f2 & Hr2 & Hal2 & Hc2).
    { intros b Hb. rewrite Hc1. unfold apply_positional.
      assert (list_in a (current f) = false) as ->.
      { apply list_in_false, Hnew. left. }
      intros [Hin|Hin%list_elem_of_singleton]%elem_of_app.
      - by apply (Hnew b); [right|].
      - by subst. }
    exists f2. split; [|split; [done | by rewrite Hc2, Hc1]].
    unfold mbind, M_bind. by rewrite Hr1.
Qed.

Lemma setitem_in_range i x f :
  i < length (current f) →
  ∃ f', setitem i x f = Returns tt f' ∧ options f' = options f
        ∧ current f' = <[i := x]> (current f).
Proof.
  intros Hlt. unfold setitem, mbind, M_bind, get. fold (current f).
  rewrite decide_True by done. eexists. split; [done|]. split; [done|].
  unfold current. simpl. by rewrite deref_update_same.
Qed.

Lemma setitem_out_of_range i x f :
  ¬ i < length (current f) → setitem i x f = Raises IndexError f.
Proof.
  intros Hge. unfold setitem, mbind, M_bind, get. fold (current f).
  by rewrite decide_False.
Qed.

Lemma named_in_place group kw f f' :
  options f = group → named kw f = Returns tt f' →
  options f' = group ∧ current f' = apply_named (current f) kw.
Proof.
  intros Hal. unfold named, apply_named.
  unfold mbind at 1, M_bind at 1, get at 1.
  destruct (list_index kw.1 (current f)) as [key_pos|] eqn:Hidx.
  - apply list_index_lt in Hidx.
    destruct (setitem_in_range key_pos kw.1 f) as (f1 & Hr1 & Hal1 & Hc1).
    { by eapply lookup_lt_Some. }
    rewrite list_insert_id in Hc1 by done.
    unfold mbind, M_bind. rewrite Hr1.
    destruct (decide (key_pos + 1 < length (current f1))) as [Hlt|Hge].
    + destruct (setitem_in_range (key_pos + 1) kw.2 f1 Hlt) as (f2 & -> & Hal2 & Hc2).
      intros [= <-]. split; [congruence|]. by rewrite Hc2, Hc1.
    + by rewrite setitem_out_of_range.
  - intros [= <-]. simpl. split; [done|].
    unfold current. simpl. by rewrite deref_update_same.
Qed.

Lemma for_each_named_in_place group kwargs : ∀ f f',
  options f = group → for_each named kwargs f = Returns tt f' →
  options f' = group ∧ current f' = foldl apply_named (current f) kwargs.
Proof.
  induction kwargs as [|kw kwargs IH]; intros f f' Hal; simpl.
  - by intros [= <-].
  - intros ([] & f1 & Hr1 & Hr2)%bind_inv_returns.
    destruct (named_in_place group kw f f1 Hal Hr1) as [Hal1 Hc1].
    destruct (IH f1 f' Hal1 Hr2) as [Hal2 Hc2]. split; [done|]. by rewrite Hc2, Hc1.
Qed.

(** A call that passes only new positional tokens, and that returns,
    leaves the group as the override law says. *)
Lemma build_args_new_tokens_are_visible group args kwargs h h' :
  NoDup args → (∀ a, a ∈ args → a ∉ deref h group) →
  build_args group args kwargs h = Returns tt h' →
  deref h' group = apply_overrides (deref h group) args kwargs.
Proof.
  intros Hnd Hnew. unfold build_args, body, apply_overrides.
  destruct (for_each_positional_in_place group args (Frame h group) eq_refl Hnd Hnew)
    as (f1 & Hr1 & Hal1 & Hc1).
  unfold mbind, M_bind. rewrite Hr1.
  destruct (for_each named kwargs f1) as [[] f2|e f2] eqn:Hr2; [|done].
  intros [= <-].
  destruct (for_each_named_in_place group kwargs f1 f2 Hal1 Hr2) as [Hal2 Hc2].
  unfold current in *. simpl in *. rewrite <-Hc1, <-Hc2. by rewrite Hal2.
Qed.

End build_args.

(** C1 (defect in the code).  The override law asks that a positional token
    already in a group be moved to the end of that group, visibly to later
    readers of the group.  On a fresh mapper, whose generic group is
    [-hide_banner -loglevel info], the call
    [set_ffmpeg_generic_options('-hide_banner')] returns and leaves the
    group unchanged, where the law gives [-loglevel info -hide_banner]. *)
Theorem build_args_present_positional_not_visible :
  let w := Mapper.new_mapper [] in
  ∃ w', Mapper.set_ffmpeg_generic_options ["-hide_banner"] [] w = Returns tt w'
        ∧ Mapper.group generic_options w = ["-hide_banner"; "-loglevel"; "info"]
        ∧ Mapper.group generic_options w' = ["-hide_banner"; "-loglevel"; "info"]
        ∧ OverrideLaw.apply_overrides (Mapper.group generic_options w) ["-hide_banner"] []
          = ["-loglevel"; "info"; "-hide_banner"].
Proof. eexists. repeat split; vm_compute; reflexivity. Qed.

(** The same call also drops what follows the token it loses: a new
    positional token after it, and a named override. *)
Example build_args_later_edits_lost :
  let w := Mapper.new_mapper [] in
  Mapper.group generic_options
    (final (Mapper.set_ffmpeg_generic_options ["-hide_banner"; "-nostats"]
              [("-loglevel", "quiet")] w))
  = ["-hide_banner"; "-loglevel"; "info"].
Proof. vm_compute. reflexivity. Qed.

(** A named override whose flag is the last token of the group has no token
    after it to replace: the assignment raises [IndexError]. *)
Example build_args_flag_last_raises :
  let w := Mapper.new_mapper [] in
  raised (Mapper.set_ffmpeg_generic_options [] [("info", "debug")] w) = Some IndexError.
Proof. vm_compute. reflexivity. Qed.

(** ** The argument list: [get_ffmpeg_args] and [set_output_null] *)

Section arguments.
Context {host : Host}.
Import Mapper.

(** The output path [set_output_null] chooses on this machine. *)
Definition discard_target : string :=
  if decide (os_name = "nt") then "NUL" else "-".

(** The argument list as the design document words it: the output is
    added bare when it is the discard target, after [-y] otherwise. *)
Definition documented_arguments (w : world) : list string :=
  group generic_options w ++ group main_options w
  ++ ["-i"; input_file (self w)]
  ++ group advanced_options w
  ++ stream_mapping (self w) ++ stream_encoding (self w)
  ++ (if decide (output_file (self w) = discard_target)
      then [output_file (self w)]
      else ["-y"; output_file (self w)]).

Lemma build_args_on_self r args kwargs w :
  self (final (build_args_on r args kwargs w)) = self w.
Proof.
  unfold build_args_on.
  by destruct (BuildArgs.build_args _ _ _ _).
Qed.

(** [set_output_null] leaves the discard target as the output path. *)
Lemma set_output_null_output w :
  output_file (self (final (set_output_null w))) = discard_target.
Proof.
  unfold set_output_null, discard_target.
  unfold mbind at 1 2, M_bind at 1 2. simpl.
  case_decide; simpl.
  - match goal with |- context [build_args_on ?r ?a ?k ?w'] =>
      pose proof (build_args_on_self r a k w') as Hs;
      destruct (build_args_on r a k w') end; simpl in *; by rewrite Hs.
  - match goal with |- context [build_args_on ?r ?a ?k ?w'] =>
      pose proof (build_args_on_self r a k w') as Hs;
      destruct (build_args_on r a k w') end; simpl in *; by rewrite Hs.
Qed.

(** C2 (as amended).  [get_ffmpeg_args] raises when no input path is set,
    then when no output path is set; otherwise it returns, in this order,
    the generic options, the main options, [-i] and the input path, the
    advanced options, [stream_mapping], [stream_encoding], and last the
    output: the path alone when it is ["-"], and [-y] followed by the path
    for every other path.  The mapper is left as it was. *)
Theorem get_ffmpeg_args_order (w : world) :
  get_ffmpeg_args w =
    if Text.is_empty (input_file (self w)) then
      Raises (PyException "Input file has not been set") w
    else if Text.is_empty (output_file (self w)) then
      Raises (PyException "Output file has not been set") w
    else
      Returns (group generic_options w ++ group main_options w
               ++ ["-i"; input_file (self w)]
               ++ group advanced_options w
               ++ stream_mapping (self w) ++ stream_encoding (self w)
               ++ (if decide (output_file (self w) = "-")
                   then ["-"]
                   else ["-y"; output_file (self w)])) w.
Proof.
  unfold get_ffmpeg_args, mbind, M_bind, get.
  destruct (Text.is_empty (input_file (self w))); [done|].
  destruct (Text.is_empty (output_file (self w))); [done|].
  case_decide as Hout; unfold mret, M_ret; f_equal; simpl;
    rewrite <-?app_assoc; simpl; [by rewrite Hout | done].
Qed.

(** Where the discard target is ["-"], the documented list is the one
    returned. *)
Lemma get_ffmpeg_args_documented_off_windows w :
  os_name ≠ "nt" →
  Text.is_empty (input_file (self w)) = false →
  Text.is_empty (output_file (self w)) = false →
  get_ffmpeg_args w = Returns (documented_arguments w) w.
Proof.
  intros Hos Hin Hout. unfold get_ffmpeg_args, mbind, M_bind, get. rewrite Hin, Hout.
  unfold documented_arguments, discard_target.
  rewrite (decide_False (P := os_name = "nt")) by done.
  case_decide as Hd; unfold mret, M_ret; f_equal; simpl; by rewrite <-?app_assoc.
Qed.

End arguments.

(** A Windows machine; nothing but [os.name] is consulted below. *)
Definition windows : Host := {|
  which := λ name, Some ("C:/tools/" +:+ name +:+ ".exe");
  os_name := "nt";
  abspath := λ path, "C:/work/" +:+ path;
  path_exists := λ _, false;
  guess_type := λ _, None;
  popen := λ _, NotStarted;
  decode_utf8 := λ _, None;
  json_loads := λ _, None;
|}.

(** C2 (counterexample).  On Windows, [set_output_null] makes [NUL] the
    output path, which is the discard target there, and [get_ffmpeg_args]
    returns a list that ends in [-y NUL]: the discard target is not added
    bare, so the list is not the documented one. *)
Lemma get_ffmpeg_args_nul_not_bare :
  let w := final ((Mapper.set_input_file (host := windows) "in.mkv" ;;
                   Mapper.set_output_null (host := windows))
                  (Mapper.new_mapper [])) in
  output_file (self w) = discard_target (host := windows)
  ∧ returned (Mapper.get_ffmpeg_args w)
    = Some ["-hide_banner"; "-loglevel"; "info"; "-f"; "null";
            "-i"; "C:/work/in.mkv";
            "-strict"; "-2"; "-max_muxing_queue_size"; "4096";
            "-y"; "NUL"]
  ∧ returned (Mapper.get_ffmpeg_args w) ≠ Some (documented_arguments (host := windows) w).
Proof. repeat split; vm_compute; [reflexivity .. | discriminate]. Qed.

(** ** The mapping pass: [__set_stream_mapping] *)

Section mapping.
Context {policy : StreamPolicy}.
Import Mapper.

(** The recognised kind of a stream: its [codec_type], case folded, when
    that is one of the five. *)
Definition kind_of (stream_info : dict) : option kind :=
  match Dict.lookup "codec_type" stream_info with
  | Some (VStr codec_type) => branch_of (Text.lower codec_type)
  | _ => None
  end.

(** How many of the streams [earlier] have kind [k]. *)
Definition ordinal (k : kind) (earlier : list dict) : nat :=
  length (filter (λ s, kind_of s = Some k) earlier).

(** The copy directive for the [n]-th stream of kind [k]: its part of the
    selection list and its part of the codec list. *)
Definition copy_selection (k : kind) (n : nat) : list string :=
  ["-map"; "0:" +:+ stream_type_ident k +:+ ":" +:+ pretty n].
Definition copy_codec (k : kind) (n : nat) : list string :=
  ["-c:" +:+ stream_type_ident k +:+ ":" +:+ pretty n; "copy"].

(** The world after the calls [cs] to the subclass. *)
Definition record_calls (cs : list call) (w : world) : world :=
  World (self w) (objects w) (calls w ++ cs).

(** The world after a stream of kind [k] added [sm] and [se] to the two
    directive lists and advanced the counter of [k]. *)
Definition emit (k : kind) (sm se : list string) (w : world) : world :=
  World (set_counts (bump k (stream_counts (self w)))
           (set_directives (stream_mapping (self w) ++ sm)
                           (stream_encoding (self w) ++ se) (self w)))
        (objects w) (calls w).

(** The world at the head of the loop: both lists empty, all counters 0. *)
Definition start (w : world) : world :=
  World (set_counts no_streams_counted (set_directives [] [] (self w)))
        (objects w) (calls w).

(** The four ways through a branch of the loop. *)
Inductive way : Type :=
  | NotConfigured     (* the kind is not in [processing_stream_type] *)
  | NotNeeded         (* [test_stream_needs_processing] said no *)
  | OptedOut          (* [custom_stream_mapping] gave nothing *)
  | Mapped.           (* [custom_stream_mapping] gave a mapping *)

Global Instance way_eq_dec : EqDecision way.
Proof. solve_decision. Defined.

Definition way_taken (k : kind) (stream_info : dict) (w : world) : way :=
  if list_in (kind_name k) (processing_stream_type (self w)) then
    if test_stream_needs_processing stream_info then
      if hook_truthy (custom_stream_mapping stream_info
                        (count_of k (stream_counts (self w))))
      then Mapped else OptedOut
    else NotNeeded
  else NotConfigured.

(** The calls made to the subclass on each way, for a stream whose
    counter stands at [n]. *)
Definition calls_on (wy : way) (stream_info : dict) (n : nat) : list call :=
  match wy with
  | NotConfigured => []
  | NotNeeded => [CallTest stream_info]
  | OptedOut | Mapped => [CallTest stream_info; CallCustom stream_info n]
  end.

(** A mapping of the shape [__apply_custom_stream_mapping] accepts. *)
Definition well_shaped (v : hook_value) : option (list string * list string) :=
  match v with
  | HDict d =>
      match hook_get "stream_mapping" d, hook_get "stream_encoding" d with
      | Some (FList sm), Some (FList se) => Some (sm, se)
      | _, _ => None
      end
  | HOther _ => None
  end.

Lemma apply_custom_well_shaped v sm se w :
  well_shaped v = Some (sm, se) →
  apply_custom_stream_mapping v w
  = Returns tt (World (set_directives (stream_mapping (self w) ++ sm)
                         (stream_encoding (self w) ++ se) (self w))
                      (objects w) (calls w)).
Proof.
  unfold well_shaped, apply_custom_stream_mapping.
  destruct v as [d|]; [|done].
  destruct (hook_get "stream_mapping" d) as [[]|]; [|done..].
  destruct (hook_get "stream_encoding" d) as [[]|]; [|done..].
  by intros [= <- <-].
Qed.

Lemma apply_custom_ill_shaped v w :
  well_shaped v = None →
  ∃ msg, apply_custom_stream_mapping v w = Raises (PyException msg) w.
Proof.
  unfold well_shaped, apply_custom_stream_mapping.
  destruct v as [d|]; [|by eexists].
  destruct (hook_get "stream_mapping" d) as [[]|]; [|by eexists..].
  destruct (hook_get "stream_encoding" d) as [[]|]; [done|by eexists..].
Qed.

(** A branch that does not reach a mapping copies the stream. *)
Lemma map_stream_copies k stream_info found w :
  way_taken k stream_info w ≠ Mapped →
  let n := count_of k (stream_counts (self w)) in
  map_stream k stream_info found w
  = Returns found
      (emit k (copy_selection k n) (copy_codec k n)
         (record_calls (calls_on (way_taken k stream_info w) stream_info n) w)).
Proof.
  intros Hway n. revert Hway. unfold way_taken, map_stream.
  unfold mbind at 1, M_bind at 1, get at 1.
  destruct (list_in (kind_name k) (processing_stream_type (self w))).
  - unfold call_test, mbind, M_bind, modify, mret, M_ret. simpl.
    destruct (test_stream_needs_processing stream_info); simpl.
    + fold n. destruct (hook_truthy (custom_stream_mapping stream_info n)); [done|].
      intros _. unfold record_calls, emit. simpl. by rewrite <-app_assoc.
    + intros _. done.
  - intros _. unfold record_calls, emit. simpl. by rewrite app_nil_r.
Qed.

(** A branch that reaches a mapping has made both calls by then. *)
Lemma map_stream_reaches_mapping k stream_info found w :
  way_taken k stream_info w = Mapped →
  let n := count_of k (stream_counts (self w)) in
  map_stream k stream_info found w
  = (apply_custom_stream_mapping (custom_stream_mapping stream_info n) ;;
     advance k ;; mret true)
      (record_calls [CallTest stream_info; CallCustom stream_info n] w).
Proof.
  intros Hway n. revert Hway. unfold way_taken, map_stream.
  unfold mbind at 1, M_bind at 1, get at 1.
  destruct (list_in (kind_name k) (processing_stream_type (self w))); [|done].
  unfold call_test. exec.
  destruct (test_stream_needs_processing stream_info); [|done]. simpl.
  unfold stream_count, call_custom. exec. fold n.
  destruct (hook_truthy (custom_stream_mapping stream_info n)); [|done]. intros _.
  unfold record_calls. by rewrite <-app_assoc.
Qed.

(** It applies the mapping, or raises over its shape. *)
Lemma map_stream_maps k stream_info found w :
  way_taken k stream_info w = Mapped →
  let n := count_of k (stream_counts (self w)) in
  let w1 := record_calls [CallTest stream_info; CallCustom stream_info n] w in
  match well_shaped (custom_stream_mapping stream_info n) with
  | Some (sm, se) => map_stream k stream_info found w = Returns true (emit k sm se w1)
  | None => ∃ msg, map_stream k stream_info found w = Raises (PyException msg) w1
  end.
Proof.
  intros Hway n w1.
  rewrite (map_stream_reaches_mapping k stream_info found w Hway). fold n w1.
  destruct (well_shaped (custom_stream_mapping stream_info n)) as [[sm se]|] eqn:Hshape.
  - by rewrite (bind_returns _ _ _ _ _ (apply_custom_well_shaped _ sm se w1 Hshape)).
  - destruct (apply_custom_ill_shaped _ w1 Hshape) as [msg Hmsg]. exists msg.
    by rewrite (bind_raises _ _ _ _ _ Hmsg).
Qed.

(** What a branch that returns has done: the calls of its way, one
    directive in each list, one step of its own counter. *)
Lemma map_stream_returns k stream_info found w found' w' :
  map_stream k stream_info found w = Returns found' w' →
  let n := count_of k (stream_counts (self w)) in
  let wy := way_taken k stream_info w in
  ∃ sm se,
    w' = emit k sm se (record_calls (calls_on wy stream_info n) w)
    ∧ match wy with
      | Mapped =>
          well_shaped (custom_stream_mapping stream_info n) = Some (sm, se)
          ∧ found' = true
      | _ => sm = copy_selection k n ∧ se = copy_codec k n ∧ found' = found
      end.
Proof.
  intros Hret n wy.
  destruct (decide (wy = Mapped)) as [Hm|Hm].
  - pose proof (map_stream_maps k stream_info found w Hm) as Hmaps. simpl in Hmaps.
    fold n in Hmaps. rewrite Hm. simpl.
    destruct (well_shaped (custom_stream_mapping stream_info n)) as [[sm se]|].
    + rewrite Hmaps in Hret. injection Hret as <- <-. by exists sm, se.
    + destruct Hmaps as [msg Hmaps]. by rewrite Hmaps in Hret.
  - pose proof (map_stream_copies k stream_info found w Hm) as Hcopies. simpl in Hcopies.
    rewrite Hcopies in Hret. injection Hret as <- <-.
    exists (copy_selection k n), (copy_codec k n). split; [done|].
    fold wy in Hm |- *. by destruct wy.
Qed.

(** Whether it returns or raises, a branch makes the calls of its way and
    no other. *)
Lemma map_stream_calls k stream_info found w :
  calls (final (map_stream k stream_info found w))
  = calls w ++ calls_on (way_taken k stream_info w) stream_info
                 (count_of k (stream_counts (self w))).
Proof.
  destruct (decide (way_taken k stream_info w = Mapped)) as [Hm|Hm].
  - pose proof (map_stream_maps k stream_info found w Hm) as Hmaps. simpl in Hmaps.
    rewrite Hm.
    destruct (well_shaped _) as [[sm se]|].
    + by rewrite Hmaps.
    + destruct Hmaps as [msg ->]. done.
  - by rewrite (map_stream_copies k stream_info found w Hm).
Qed.

(** The loop body on a stream of a recognised kind is the branch of that
    kind. *)
Lemma map_one_recognised stream_info k found w :
  kind_of stream_info = Some k →
  map_one stream_info found w = map_stream k stream_info found w.
Proof.
  unfold kind_of, map_one, codec_type_of.
  destruct (Dict.lookup "codec_type" stream_info) as [[| | |codec_type| |]|]; try done.
  intros Hk. unfold mbind at 1, M_bind at 1, mret, M_ret. by rewrite Hk.
Qed.

(** A [codec_type] that is absent, or is text. *)
Definition codec_type_is_text (stream_info : dict) : bool :=
  match Dict.lookup "codec_type" stream_info with
  | None | Some (VStr _) => true
  | Some _ => false
  end.

(** On any other stream the loop body changes nothing; it goes on to the
    next stream, unless [codec_type] is not text (then [lower] fails). *)
Lemma map_one_unrecognised stream_info found w :
  kind_of stream_info = None →
  map_one stream_info found w
  = if codec_type_is_text stream_info then Returns found w else Raises AttributeError w.
Proof.
  unfold kind_of, map_one, codec_type_of, codec_type_is_text.
  destruct (Dict.lookup "codec_type" stream_info) as [[| | |codec_type| |]|]; try done.
  intros Hk. unfold mbind at 1, M_bind at 1, mret, M_ret. by rewrite Hk.
Qed.

(** *** The counters along the pass *)

Lemma count_of_bump k k' c :
  count_of k' (bump k c) = count_of k' c + (if decide (k = k') then 1 else 0).
Proof. destruct c, k, k'; simpl; lia. Qed.

Lemma ordinal_nil k : ordinal k [] = 0.
Proof. done. Qed.

Lemma ordinal_snoc k earlier stream_info :
  ordinal k (earlier ++ [stream_info])
  = ordinal k earlier + (if decide (kind_of stream_info = Some k) then 1 else 0).
Proof.
  unfold ordinal. rewrite filter_app, length_app. f_equal.
  rewrite filter_cons, filter_nil. by case_decide.
Qed.

(** A stream that sets off a custom mapping, given the streams before it:
    its kind is configured, the test says yes, and the producer is given
    the stream's ordinal and hands back something. *)
Definition triggers (w : world) (earlier : list dict) (stream_info : dict) : bool :=
  match kind_of stream_info with
  | Some k =>
      list_in (kind_name k) (processing_stream_type (self w))
      && test_stream_needs_processing stream_info
      && hook_truthy (custom_stream_mapping stream_info (ordinal k earlier))
  | None => false
  end.

Fixpoint any_triggers (w : world) (earlier rest : list dict) : bool :=
  match rest with
  | [] => false
  | stream_info :: rest' =>
      triggers w earlier stream_info || any_triggers w (earlier ++ [stream_info]) rest'
  end.

Lemma any_triggers_exists w rest : ∀ earlier,
  any_triggers w earlier rest = true
  ↔ ∃ before stream_info after,
      rest = before ++ stream_info :: after
      ∧ triggers w (earlier ++ before) stream_info = true.
Proof.
  induction rest as [|s rest IH]; intros earlier; simpl.
  - split; [done|]. intros (before & s & after & Heq & _). by destruct before.
  - rewrite orb_true_iff, IH. split.
    + intros [Ht|(before & s' & after & -> & Ht)].
      * exists [], s, rest. by rewrite app_nil_r.
      * exists (s :: before), s', after. split; [done|]. by rewrite <-app_assoc in Ht.
    + intros (before & s' & after & Heq & Ht). destruct before as [|b before].
      * injection Heq as <- <-. left. by rewrite app_nil_r in Ht.
      * injection Heq as <- ->. right. exists before, s', after. split; [done|].
        by rewrite <-app_assoc.
Qed.

(** The pass, started on [w0], stands before the stream that follows
    [earlier]: the configuration is that of [w0], and each counter is the
    number of streams of its kind in [earlier]. *)
Definition stands_after (w0 : world) (earlier : list dict) (w : world) : Prop :=
  processing_stream_type (self w) = processing_stream_type (self w0)
  ∧ ∀ k, count_of k (stream_counts (self w)) = ordinal k earlier.

Lemma start_stands w : stands_after w [] (start w).
Proof. split; [done|]. by intros []. Qed.

Lemma way_taken_triggers w0 earlier w stream_info k :
  stands_after w0 earlier w → kind_of stream_info = Some k →
  bool_decide (way_taken k stream_info w = Mapped) = triggers w0 earlier stream_info.
Proof.
  intros [Hpst Hcount] Hk. unfold way_taken, triggers. rewrite Hk, Hpst, Hcount.
  destruct (list_in _ _); [|done]. destruct (test_stream_needs_processing _); [|done].
  by destruct (hook_truthy _).
Qed.

Lemma map_one_stands w0 earlier stream_info found w found' w' :
  stands_after w0 earlier w →
  map_one stream_info found w = Returns found' w' →
  stands_after w0 (earlier ++ [stream_info]) w'
  ∧ found' = found || triggers w0 earlier stream_info.
Proof.
  intros Hst Hret. destruct (kind_of stream_info) as [k|] eqn:Hk.
  - rewrite (map_one_recognised _ k) in Hret by done.
    apply map_stream_returns in Hret as (sm & se & -> & Hway). simpl in Hway.
    rewrite <-(way_taken_triggers w0 earlier w stream_info k Hst Hk).
    destruct Hst as [Hpst Hcount]. split; [split|].
    + done.
    + intros k'. simpl. rewrite count_of_bump, Hcount, ordinal_snoc, Hk.
      repeat case_decide; congruence.
    + destruct (way_taken k stream_info w); simpl;
        [destruct Hway as (_ & _ & ->); by rewrite orb_false_r ..
        | destruct Hway as [_ ->]; by rewrite orb_true_r].
  - rewrite map_one_unrecognised in Hret by done.
    destruct (codec_type_is_text stream_info); [|done]. injection Hret as <- <-.
    destruct Hst as [Hpst Hcount]. split; [split|].
    + done.
    + intros k'. rewrite Hcount, ordinal_snoc, Hk. case_decide; [done | lia].
    + unfold triggers. rewrite Hk. by rewrite orb_false_r.
Qed.

Lemma map_all_stands w0 rest : ∀ earlier found w found' w',
  stands_after w0 earlier w →
  map_all rest found w = Returns found' w' →
  stands_after w0 (earlier ++ rest) w'
  ∧ found' = found || any_triggers w0 earlier rest.
Proof.
  induction rest as [|s rest IH]; intros earlier found w found' w' Hst; simpl.
  - intros [= <- <-]. by rewrite app_nil_r, orb_false_r.
  - intros (found1 & w1 & Hone & Hrest)%bind_inv_returns.
    destruct (map_one_stands _ _ _ _ _ _ _ Hst Hone) as [Hst1 ->].
    destruct (IH _ _ _ _ _ Hst1 Hrest) as [Hst2 ->].
    rewrite <-app_assoc in Hst2. split; [done|]. by rewrite orb_assoc.
Qed.

Lemma map_all_app l1 l2 found w :
  map_all (l1 ++ l2) found w = (found1 ← map_all l1 found; map_all l2 found1) w.
Proof.
  revert found w. induction l1 as [|s l1 IH]; intros found w; simpl; [done|].
  rewrite bind_assoc. unfold mbind, M_bind.
  destruct (map_one s found w) as [found1 w1|e w1]; [apply IH | done].
Qed.

(** The pass over a probe that lists streams is the loop, from [start]. *)
Lemma set_stream_mapping_loop w streams :
  probe_streams (self w) = Some streams → streams ≠ [] →
  set_stream_mapping w = map_all streams false (start w).
Proof.
  intros Hp Hne. unfold set_stream_mapping. rewrite bind_get, Hp.
  destruct streams; [done|]. unfold on_self. by exec.
Qed.

(** *** The pass returns *)

Lemma map_one_total stream_info found w :
  codec_type_is_text stream_info = true →
  (∀ n, hook_truthy (custom_stream_mapping stream_info n) = true →
        is_Some (well_shaped (custom_stream_mapping stream_info n))) →
  ∃ found' w', map_one stream_info found w = Returns found' w'.
Proof.
  intros Htext Hshape. destruct (kind_of stream_info) as [k|] eqn:Hk.
  - rewrite (map_one_recognised _ k) by done.
    destruct (decide (way_taken k stream_info w = Mapped)) as [Hm|Hm].
    + pose proof (map_stream_maps k stream_info found w Hm) as Hmaps. simpl in Hmaps.
      destruct (Hshape (count_of k (stream_counts (self w)))) as [[sm se] Hsome].
      { revert Hm. unfold way_taken.
        destruct (list_in _ _); [|done].
        destruct (test_stream_needs_processing _); [|done].
        by destruct (hook_truthy _). }
      rewrite Hsome in Hmaps. eauto.
    + rewrite (map_stream_copies k stream_info found w Hm). eauto.
  - rewrite map_one_unrecognised, Htext by done. eauto.
Qed.

Lemma map_all_total rest : ∀ found w,
  (∀ stream_info, stream_info ∈ rest → codec_type_is_text stream_info = true) →
  (∀ stream_info n, hook_truthy (custom_stream_mapping stream_info n) = true →
        is_Some (well_shaped (custom_stream_mapping stream_info n))) →
  ∃ found' w', map_all rest found w = Returns found' w'.
Proof.
  induction rest as [|s rest IH]; intros found w Htext Hshape; simpl; [by eauto|].
  destruct (map_one_total s found w) as (found1 & w1 & Hone).
  { apply Htext. left. }
  { intros n. apply Hshape. }
  destruct (IH found1 w1) as (found2 & w2 & Hrest).
  { intros s' Hin. apply Htext. by right. }
  { done. }
  exists found2, w2. by rewrite (bind_returns _ _ _ _ _ Hone).
Qed.

(** *** The three properties of the pass *)

(** C3.  When the pass over the streams [earlier ++ stream_info :: later]
    has come to [stream_info], then, for a stream of a recognised kind [k]
    (its [codec_type], case folded, is one of the five): the counter of [k]
    is the number [n] of streams of kind [k] in [earlier]; the only calls
    made are those of the way taken, so that the producer, if called, is
    given [n]; and if the stream is dealt with, the counter of [k], and no
    other, has gone up by one, and the two lists have grown by the copy
    directive for [k] and [n], or by the accepted mapping the producer gave
    for [n].  For any other stream nothing changes: no counter, no
    directive. *)
Theorem type_relative_ordinal w earlier stream_info later found1 w1 :
  probe_streams (self w) = Some (earlier ++ stream_info :: later) →
  map_all earlier false (start w) = Returns found1 w1 →
  set_stream_mapping w
  = (found2 ← map_one stream_info found1; map_all later found2) w1
  ∧ match kind_of stream_info with
    | Some k =>
        let n := ordinal k earlier in
        count_of k (stream_counts (self w1)) = n
        ∧ calls (final (map_one stream_info found1 w1))
          = calls w1 ++ calls_on (way_taken k stream_info w1) stream_info n
        ∧ ∀ found2 w2,
            map_one stream_info found1 w1 = Returns found2 w2 →
            (∀ k', count_of k' (stream_counts (self w2))
                   = count_of k' (stream_counts (self w1))
                     + (if decide (k = k') then 1 else 0))
            ∧ ∃ sm se,
                stream_mapping (self w2) = stream_mapping (self w1) ++ sm
                ∧ stream_encoding (self w2) = stream_encoding (self w1) ++ se
                ∧ if decide (way_taken k stream_info w1 = Mapped)
                  then well_shaped (custom_stream_mapping stream_info n) = Some (sm, se)
                  else sm = copy_selection k n ∧ se = copy_codec k n
    | None => final (map_one stream_info found1 w1) = w1
    end.
Proof.
  intros Hprobe Hreach. split.
  - rewrite (set_stream_mapping_loop w _ Hprobe) by by destruct earlier.
    rewrite map_all_app, (bind_returns _ _ _ _ _ Hreach). done.
  - destruct (map_all_stands w earlier [] false (start w) found1 w1 (start_stands w) Hreach)
      as [[Hpst Hcount] _]. simpl in Hcount.
    destruct (kind_of stream_info) as [k|] eqn:Hk.
    + simpl. rewrite (map_one_recognised _ k) by done.
      split; [apply Hcount|]. split.
      * by rewrite map_stream_calls, Hcount.
      * intros found2 w2 Hret.
        apply map_stream_returns in Hret as (sm & se & -> & Hway). simpl in Hway.
        rewrite Hcount in Hway. split.
        { intros k'. simpl. by rewrite count_of_bump. }
        exists sm, se. split; [done|]. split; [done|].
        destruct (way_taken k stream_info w1); simpl;
          [by destruct Hway as (-> & -> & _) .. | by destruct Hway].
    + rewrite map_one_unrecognised by done. by destruct (codec_type_is_text _).
Qed.

(** C4.  A full pass that returns gives [True] exactly when some stream
    sets off a custom mapping: its kind is configured for processing, the
    test said yes for it, and the producer handed back a mapping for it.
    Without streams the pass returns [False], and so it does whenever no
    stream sets off a mapping (every stream was copied).  The pass does
    return when every [codec_type] is text and every mapping the producer
    hands back has the accepted shape. *)
Theorem streams_need_processing_flag (w : world) :
  let streams := default [] (probe_streams (self w)) in
  (∀ found w', streams_need_processing w = Returns found w' →
     (found = true ↔
      ∃ earlier stream_info later,
        streams = earlier ++ stream_info :: later
        ∧ triggers w earlier stream_info = true))
  ∧ (streams = [] → streams_need_processing w = Returns false w)
  ∧ (∀ found w', streams_need_processing w = Returns found w' →
     (∀ earlier stream_info later,
        streams = earlier ++ stream_info :: later →
        triggers w earlier stream_info = false) →
     found = false)
  ∧ ((∀ stream_info, stream_info ∈ streams → codec_type_is_text stream_info = true) →
     (∀ stream_info n, hook_truthy (custom_stream_mapping stream_info n) = true →
        is_Some (well_shaped (custom_stream_mapping stream_info n))) →
     ∃ found w', streams_need_processing w = Returns found w').
Proof.
  intros streams.
  assert (∀ found w', streams_need_processing w = Returns found w' →
            found = any_triggers w [] streams) as Hflag.
  { intros found w'. unfold streams_need_processing, streams.
    destruct (probe_streams (self w)) as [[|s l]|] eqn:Hp.
    - unfold set_stream_mapping. rewrite bind_get, Hp. by intros [= <- <-].
    - rewrite (set_stream_mapping_loop w _ Hp) by done. intros Hret.
      destruct (map_all_stands w (s :: l) [] false (start w) found w'
                  (start_stands w) Hret) as [_ ->]. done.
    - unfold set_stream_mapping. rewrite bind_get, Hp. by intros [= <- <-]. }
  split; [|split; [|split]].
  - intros found w' Hret. rewrite (Hflag _ _ Hret), any_triggers_exists. done.
  - unfold streams, streams_need_processing, set_stream_mapping. rewrite bind_get.
    by destruct (probe_streams (self w)) as [[|s l]|].
  - intros found w' Hret Hnone. rewrite (Hflag _ _ Hret).
    apply not_true_is_false. intros (b & s & a & Heq & Ht)%any_triggers_exists.
    simpl in Ht. by rewrite (Hnone _ _ _ Heq) in Ht.
  - intros Htext Hshape. unfold streams_need_processing.
    destruct (probe_streams (self w)) as [[|s l]|] eqn:Hp.
    + unfold set_stream_mapping. rewrite bind_get, Hp. eauto.
    + rewrite (set_stream_mapping_loop w _ Hp) by done.
      apply map_all_total; [exact Htext | done].
    + unfold set_stream_mapping. rewrite bind_get, Hp. eauto.
Qed.

(** C5.  For a stream of a recognised kind [k] whose counter stands at [n]:
    if [k] is not configured for processing, or it is and the test says no,
    the loop body returns having added exactly [-map 0:<t>:<n>] to the
    selection list and [-c:<t>:<n> copy] to the codec list; in the first
    case it has made no call to the subclass, in the second only the call
    of the test, and so none of the producer. *)
Theorem copy_without_consulting_hooks stream_info k found w :
  kind_of stream_info = Some k →
  list_in (kind_name k) (processing_stream_type (self w)) = false
  ∨ test_stream_needs_processing stream_info = false →
  let n := count_of k (stream_counts (self w)) in
  ∃ w', map_one stream_info found w = Returns found w'
    ∧ stream_mapping (self w')
      = stream_mapping (self w)
        ++ ["-map"; "0:" +:+ stream_type_ident k +:+ ":" +:+ pretty n]
    ∧ stream_encoding (self w')
      = stream_encoding (self w)
        ++ ["-c:" +:+ stream_type_ident k +:+ ":" +:+ pretty n; "copy"]
    ∧ calls w'
      = calls w ++ (if list_in (kind_name k) (processing_stream_type (self w))
                    then [CallTest stream_info] else []).
Proof.
  intros Hk Hcase n. rewrite (map_one_recognised _ k) by done.
  assert (way_taken k stream_info w
          = if list_in (kind_name k) (processing_stream_type (self w))
            then NotNeeded else NotConfigured) as Hway.
  { unfold way_taken. destruct (list_in _ _); [|done].
    destruct Hcase as [Hcase|Hcase]; [done | by rewrite Hcase]. }
  rewrite map_stream_copies by (rewrite Hway; by destruct (list_in _ _)).
  eexists. split; [done|]. rewrite Hway. simpl.
  repeat split. by destruct (list_in _ _).
Qed.

End mapping.


(** ** A policy and a file to run the pass on *)

Module Scenario.
Import Mapper.

(** A subclass that re-encodes every stream that is not HEVC already, with
    [libx265], addressing the stream by the ordinal it is given. *)
Definition to_hevc : StreamPolicy := {|
  test_stream_needs_processing := λ stream_info,
    match Dict.lookup "codec_name" stream_info with
    | Some (VStr codec_name) => negb (bool_decide (codec_name = "hevc"))
    | _ => true
    end;
  custom_stream_mapping := λ stream_info stream_id,
    HDict [("stream_mapping", FList ["-map"; "0:v:" +:+ pretty stream_id]);
           ("stream_encoding", FList ["-c:v:" +:+ pretty stream_id; "libx265"])];
|}.

Definition h264_video : dict :=
  [("index", VNum 0); ("codec_name", VStr "h264"); ("codec_type", VStr "video")].
Definition aac_audio : dict :=
  [("index", VNum 1); ("codec_name", VStr "aac"); ("codec_type", VStr "audio")].
Definition hevc_video : dict :=
  [("index", VNum 2); ("codec_name", VStr "hevc"); ("codec_type", VStr "Video")].
Definition cover_art : dict :=
  [("index", VNum 3); ("codec_name", VStr "png")].

(** A mapper for video, its [probe] assigned the probe of a file with
    these streams. *)
Definition mapper (streams : list dict) : world :=
  final (assign_probe (Some streams) (new_mapper ["video"])).

End Scenario.

(** C3 (instance).  In a file with an H.264 video stream, an audio stream
    and then an HEVC video stream, the pass reaches the third stream with
    the video counter at 1, the number of video streams before it. *)
Lemma type_relative_ordinal_witness :
  let w := Scenario.mapper [Scenario.h264_video; Scenario.aac_audio; Scenario.hevc_video] in
  let w1 := final (Mapper.map_all (policy := Scenario.to_hevc)
                     [Scenario.h264_video; Scenario.aac_audio] false (start w)) in
  kind_of Scenario.hevc_video = Some Video
  ∧ count_of Video (stream_counts (self w1)) = 1
  ∧ ordinal Video [Scenario.h264_video; Scenario.aac_audio] = 1.
Proof.
  intros w w1. split; [reflexivity|].
  destruct (type_relative_ordinal (policy := Scenario.to_hevc) w
              [Scenario.h264_video; Scenario.aac_audio] Scenario.hevc_video []
              true w1) as [_ Hthird].
  - reflexivity.
  - vm_compute. reflexivity.
  - vm_compute in Hthird. destruct Hthird as [Hcount _].
    split; [exact Hcount | reflexivity].
Defined.

(** C5 (instance).  The audio stream of that file is not of a configured
    kind: it is copied as [-map 0:a:0] and [-c:a:0 copy], and no call is
    made to the subclass. *)
Lemma copy_without_consulting_hooks_witness :
  let w := start (Scenario.mapper [Scenario.aac_audio]) in
  kind_of Scenario.aac_audio = Some Audio
  ∧ list_in (kind_name Audio) (processing_stream_type (self w)) = false
  ∧ ∃ w', Mapper.map_one (policy := Scenario.to_hevc) Scenario.aac_audio false w
          = Returns false w'
      ∧ stream_mapping (self w') = ["-map"; "0:a:0"]
      ∧ stream_encoding (self w') = ["-c:a:0"; "copy"]
      ∧ calls w' = [].
Proof.
  intros w. split; [reflexivity|]. split; [reflexivity|].
  exact (copy_without_consulting_hooks (policy := Scenario.to_hevc)
           Scenario.aac_audio Audio false w eq_refl (or_introl eq_refl)).
Defined.

(** C4 (instance).  The same pass over the three streams returns [True],
    and one of the streams sets off a mapping. *)
Lemma streams_need_processing_flag_witness :
  let w := Scenario.mapper [Scenario.h264_video; Scenario.aac_audio; Scenario.hevc_video] in
  returned (Mapper.streams_need_processing (policy := Scenario.to_hevc) w) = Some true
  ∧ ∃ earlier stream_info later,
      default [] (probe_streams (self w)) = earlier ++ stream_info :: later
      ∧ triggers (policy := Scenario.to_hevc) w earlier stream_info = true.
Proof.
  intros w. split; [vm_compute; reflexivity|].
  destruct (streams_need_processing_flag (policy := Scenario.to_hevc) w) as [Hiff _].
  refine (proj1 (Hiff true
            (final (Mapper.streams_need_processing (policy := Scenario.to_hevc) w)) _)
            eq_refl).
  vm_compute. reflexivity.
Defined.

(** The two worked examples of the design document: one video stream, video
    configured; first with a test that says no, then with a producer that
    maps the stream to [libx265]. *)
Example scenario_copy :
  let w := Scenario.mapper [Scenario.hevc_video] in
  returned ((found ← Mapper.streams_need_processing (policy := Scenario.to_hevc);
             Mapper.set_input_file (host := windows) "in.mkv" ;;
             Mapper.set_output_file (host := windows) "out.mkv" ;;
             args ← Mapper.get_ffmpeg_args; mret (found, args)) w)
  = Some (false,
          ["-hide_banner"; "-loglevel"; "info"; "-i"; "C:/work/in.mkv";
           "-strict"; "-2"; "-max_muxing_queue_size"; "4096";
           "-map"; "0:v:0"; "-c:v:0"; "copy"; "-y"; "C:/work/out.mkv"]).
Proof. vm_compute. reflexivity. Qed.

Example scenario_encode :
  let w := Scenario.mapper [Scenario.h264_video] in
  returned ((found ← Mapper.streams_need_processing (policy := Scenario.to_hevc);
             Mapper.set_input_file (host := windows) "in.mkv" ;;
             Mapper.set_output_file (host := windows) "out.mkv" ;;
             args ← Mapper.get_ffmpeg_args; mret (found, args)) w)
  = Some (true,
          ["-hide_banner"; "-loglevel"; "info"; "-i"; "C:/work/in.mkv";
           "-strict"; "-2"; "-max_muxing_queue_size"; "4096";
           "-map"; "0:v:0"; "-c:v:0"; "libx265"; "-y"; "C:/work/out.mkv"]).
Proof. vm_compute. reflexivity. Qed.

(** ** Probing: [ffprobe_cmd], [ffprobe_file], [Probe.file] *)

Section probing.
Context {host : Host}.
Import Probing.

Lemma is_empty_true s : Text.is_empty s = true ↔ s = "".
Proof. by destruct s. Qed.

(** The ways in which a run of [ffprobe] that left [out] and [returncode]
    is taken to have failed by [ffprobe_cmd]. *)
Definition invocation_failed (out : list Byte.byte) (returncode : Z) : Prop :=
  decode_utf8 out = None
  ∨ returncode = 1%Z
  ∨ ∃ raw_output, decode_utf8 out = Some raw_output
      ∧ (Text.str_in "error" raw_output = true ∨ raw_output = "").

Lemma ffprobe_cmd_exited {S} params (s : S) out returncode :
  popen ("ffprobe" :: params) = Exited out returncode →
  ffprobe_cmd params s
  = match decode_utf8 out with
    | None => Raises FFProbeError s
    | Some raw_output =>
        if bool_decide (returncode = 1%Z) || Text.str_in "error" raw_output
           || Text.is_empty raw_output
        then Raises FFProbeError s
        else Returns raw_output s
    end.
Proof.
  intros Hrun. unfold ffprobe_cmd. rewrite Hrun.
  destruct (decode_utf8 out) as [raw_output|]; [|done].
  destruct (bool_decide (returncode = 1%Z) || Text.str_in "error" raw_output); [done|].
  by destruct (Text.is_empty raw_output).
Qed.

(** C7 (as amended).  When the [ffprobe] process has run, [ffprobe_cmd]
    raises [FFProbeError] if and only if its combined output cannot be
    decoded as UTF-8, or its return code is 1, or the text ['error'] occurs
    in the decoded output, or the decoded output is empty; in every other
    case it returns the decoded output. *)
Theorem ffprobe_cmd_fails_iff {S} (params : list string) (s : S) out returncode :
  popen ("ffprobe" :: params) = Exited out returncode →
  (ffprobe_cmd params s = Raises FFProbeError s ↔ invocation_failed out returncode)
  ∧ (¬ invocation_failed out returncode →
     ∃ raw_output, decode_utf8 out = Some raw_output
                   ∧ ffprobe_cmd params s = Returns raw_output s).
Proof.
  intros Hrun. rewrite (ffprobe_cmd_exited params s out returncode Hrun).
  unfold invocation_failed.
  destruct (decode_utf8 out) as [raw_output|].
  2: { split; [split; [by left | done] | intros Hnot; exfalso; apply Hnot; by left]. }
  destruct (bool_decide (returncode = 1%Z)) eqn:Hrc; simpl.
  { apply bool_decide_eq_true in Hrc.
    split; [split; [by right; left | done]
           | intros Hnot; exfalso; apply Hnot; by right; left]. }
  apply bool_decide_eq_false in Hrc.
  destruct (Text.str_in "error" raw_output) eqn:Herr; simpl.
  { assert (∃ raw, Some raw_output = Some raw
                   ∧ (Text.str_in "error" raw = true ∨ raw = "")) as Hfail
      by (exists raw_output; by auto).
    split; [split; [by right; right | done]
           | intros Hnot; exfalso; apply Hnot; by right; right]. }
  destruct (Text.is_empty raw_output) eqn:Hempty.
  { apply is_empty_true in Hempty.
    assert (∃ raw, Some raw_output = Some raw
                   ∧ (Text.str_in "error" raw = true ∨ raw = "")) as Hfail
      by (exists raw_output; by auto).
    split; [split; [by right; right | done]
           | intros Hnot; exfalso; apply Hnot; by right; right]. }
  assert (raw_output ≠ "") as Hne.
  { intros Heq%is_empty_true. congruence. }
  split; [split; [done|] | by eauto].
  intros [Hdec|[Hone|(raw & Hdec & [Hin|Hnil])]]; try done.
  - injection Hdec as <-. congruence.
  - injection Hdec as <-. done.
Qed.

(** The content-type test, as a function of the file name. *)
Definition mimetype_allowed (allowed : list string) (file_path : string) : bool :=
  match guess_type file_path with
  | None => false
  | Some file_type => list_in (Text.before Text.slash file_type) allowed
  end.

Lemma test_valid_mimetype_allowed file_path p :
  test_valid_mimetype file_path p
  = Returns (mimetype_allowed (allowed_mimetypes p) file_path) p.
Proof.
  unfold test_valid_mimetype, mimetype_allowed. rewrite bind_get.
  destruct (guess_type file_path) as [file_type|]; [|done].
  by destruct (list_in _ _).
Qed.

(** The [Probe] after the first statement of [file]. *)
Definition cleared (p : Probe) : Probe := set_probe_info (VDict []) p.

Lemma allowed_mimetypes_cleared p : allowed_mimetypes (cleared p) = allowed_mimetypes p.
Proof. done. Qed.

(** [file] on each of its paths. *)
Lemma file_returns_none file_path p :
  file file_path p = Returns VNone (cleared p).
Proof.
  unfold file, mbind, M_bind, modify. fold (cleared p).
  destruct (path_exists file_path); simpl; [|done].
  rewrite test_valid_mimetype_allowed. by destruct (mimetype_allowed _ _).
Qed.

(** [ffprobe_file] once the process has run. *)
Lemma ffprobe_file_exited {S} file_path (s : S) out returncode :
  popen ("ffprobe" :: ffprobe_params file_path) = Exited out returncode →
  ffprobe_file file_path s
  = match ffprobe_cmd (ffprobe_params file_path) s with
    | Returns results s' =>
        match json_loads results with
        | Some info => Returns info s'
        | None => Raises FFProbeError s'
        end
    | Raises e s' => Raises e s'
    end.
Proof.
  intros _. unfold ffprobe_file, mbind, M_bind.
  destruct (ffprobe_cmd _ s) as [results s'|e s']; [|done].
  by destruct (json_loads results).
Qed.

End probing.

Section probe_boundary.
Context {host : Host}.
Import Probing.

(** Every failure of the run, and output that is not JSON, makes
    [ffprobe_file] raise [FFProbeError]. *)
Lemma ffprobe_file_fails {S} file_path (s : S) out returncode :
  popen ("ffprobe" :: ffprobe_params file_path) = Exited out returncode →
  invocation_failed out returncode
  ∨ (∃ raw_output, decode_utf8 out = Some raw_output ∧ json_loads raw_output = None) →
  ffprobe_file file_path s = Raises FFProbeError s.
Proof.
  intros Hrun Hfail.
  rewrite (ffprobe_file_exited file_path s out returncode Hrun),
          (ffprobe_cmd_exited _ s out returncode Hrun).
  destruct (decode_utf8 out) as [raw_output|] eqn:Hout; [|done].
  destruct (bool_decide (returncode = 1%Z)) eqn:Hrc; [done|].
  apply bool_decide_eq_false in Hrc.
  destruct (Text.str_in "error" raw_output) eqn:Herr; [done|].
  destruct (Text.is_empty raw_output) eqn:Hempty; [done|]. simpl.
  destruct Hfail as [[Hdec|[Hone|(raw & Hdec & [Hin|Hnil])]]|(raw & Hdec & Hjson)];
    try congruence.
  - assert (raw = raw_output) as -> by congruence. by subst.
  - assert (raw = raw_output) as -> by congruence. by rewrite Hjson.
Qed.

End probe_boundary.

Section current_result.
Context {host : Host}.
Import Probing.

(** C8 (as amended).  A new [Probe] holds the empty result.  Every call of
    [file] first clears the stored result: a call that fails because the
    file does not exist, or because its content type cannot be derived or
    is not allowed, returns [None] and leaves the empty result, whatever
    was stored before, and nothing else of the [Probe] changes. *)
Theorem failed_probe_resets_result (p : Probe) file_path :
  path_exists file_path = false
  ∨ mimetype_allowed (allowed_mimetypes p) file_path = false →
  file file_path p = Returns VNone (cleared p)
  ∧ probe_info (final (file file_path p)) = VDict []
  ∧ allowed_mimetypes (final (file file_path p)) = allowed_mimetypes p
  ∧ ∀ allowed, probe_info (new_probe allowed) = VDict [].
Proof.
  intros Hfails.
  assert (file file_path p = Returns VNone (cleared p)) as Hfile.
  { unfold file, mbind, M_bind, modify. fold (cleared p).
    destruct (path_exists file_path); simpl; [|done].
    rewrite test_valid_mimetype_allowed, allowed_mimetypes_cleared.
    destruct Hfails as [Hgone|Hno]; [done | by rewrite Hno]. }
  rewrite Hfile. by repeat split.
Qed.

End current_result.

(** ** Machines to probe on *)

(** A machine on which files are on disk or not, [.mkv] names are video,
    and every run of [ffprobe] comes to [run]; it decodes ASCII output and
    parses the JSON text of the empty object. *)
Definition machine (on_disk : bool) (run : process) : Host := {|
  which := λ name, Some ("/usr/bin/" +:+ name);
  os_name := "posix";
  abspath := λ path, "/library/" +:+ path;
  path_exists := λ _, on_disk;
  guess_type := λ path, if Text.str_in ".mkv" path then Some "video/x-matroska" else None;
  popen := λ _, run;
  decode_utf8 := λ out, Some (String.string_of_list_byte out);
  json_loads := λ text, if decide (text = "{}") then Some (VDict []) else None;
|}.

(** A run that printed the empty object and exited with status 2. *)
Definition exit_status_two : process := Exited (String.list_byte_of_string "{}") 2.

(** A run that printed the empty object and exited with status 1. *)
Definition exit_status_one : process := Exited (String.list_byte_of_string "{}") 1.

(** A run that printed the empty object and exited with status 0. *)
Definition exit_status_zero : process := Exited (String.list_byte_of_string "{}") 0.

(** Metadata as another consumer left it for [movie.mkv]. *)
Definition movie_probe : pyval :=
  VDict [("streams", VList []); ("format", VDict [("filename", VStr "movie.mkv")])].

(** C7 (counterexample).  A process that signals an error by exit status 2
    (output decodable, not empty, without ['error']) does not make
    [ffprobe_cmd] raise: the output is returned. *)
Lemma ffprobe_cmd_returns_on_exit_status_two :
  popen (Host := machine true exit_status_two)
        ("ffprobe" :: Probing.ffprobe_params "movie.mkv")
  = Exited (String.list_byte_of_string "{}") 2
  ∧ Probing.ffprobe_cmd (host := machine true exit_status_two)
      (Probing.ffprobe_params "movie.mkv") tt
    = Returns "{}" tt.
Proof. split; vm_compute; reflexivity. Qed.

(** C7 (instance).  With exit status 1 the same output is a failure. *)
Lemma ffprobe_cmd_fails_iff_witness :
  Probing.ffprobe_cmd (host := machine true exit_status_one)
    (Probing.ffprobe_params "movie.mkv") tt
  = Raises FFProbeError tt.
Proof.
  apply (ffprobe_cmd_fails_iff (host := machine true exit_status_one)
           (Probing.ffprobe_params "movie.mkv") tt
           (String.list_byte_of_string "{}") 1 eq_refl).
  right. left. reflexivity.
Defined.

(** C6 (defect in the code).  Adopting metadata is to give a falsy outcome
    when the metadata records no file name under [format].  The method that
    adopts, [set_probe], is not a method of [Probe]: its definition stands
    in class [StreamMapper].  [Probe.init_probe] calls it on the [Probe] it
    made as soon as the data carries shared metadata, here metadata without
    a file name, and the call raises [AttributeError] where [None] was to
    be returned; the data is left as it was. *)
Theorem adopt_is_not_a_method_of_probe :
  let data := Handoff.TaskData "movie.mkv"
                (Some (VDict [("ffprobe", VDict [("streams", VList [])])])) in
  Handoff.init_probe (host := machine true exit_status_zero) None data
  = Raises AttributeError data.
Proof. vm_compute. reflexivity. Qed.

(** A probe itself gives [None] on this machine, where the file is there,
    is a video, and [ffprobe] would print its metadata. *)
Example file_is_not_probed :
  Probing.file (host := machine true exit_status_zero) "movie.mkv" (Probing.new_probe None)
  = Returns VNone (Probing.new_probe None).
Proof. vm_compute. reflexivity. Qed.

(** C8 (counterexample).  A [Probe] holds the metadata of [movie.mkv].
    After a probe of a file that does not exist, which returns [None], it
    holds the empty result, not the one established before. *)
Lemma failed_probe_forgets_result :
  let p := Probing.MkProbe movie_probe ["video"] in
  let p' := final (Probing.file (host := machine false NotStarted) "gone.mkv" p) in
  Probing.probe_info p = movie_probe
  ∧ returned (Probing.file (host := machine false NotStarted) "gone.mkv" p) = Some VNone
  ∧ Probing.probe_info p' = VDict []
  ∧ Probing.probe_info p' ≠ Probing.probe_info p.
Proof.
  intros p p'. split; [reflexivity|]. split; [vm_compute; reflexivity|].
  split; [vm_compute; reflexivity|]. vm_compute. discriminate.
Qed.

(** C8 (instance).  The failed probe of the file that does not exist
    leaves the empty result. *)
Lemma failed_probe_resets_result_witness :
  let p := Probing.MkProbe movie_probe ["video"] in
  path_exists (Host := machine false NotStarted) "gone.mkv" = false
  ∧ Probing.probe_info
      (final (Probing.file (host := machine false NotStarted) "gone.mkv" p))
    = VDict [].
Proof.
  intros p. split; [reflexivity|].
  exact (proj1 (proj2 (failed_probe_resets_result (host := machine false NotStarted)
                         p "gone.mkv" (or_introl eq_refl)))).
Defined.

(** ** The metadata test: [file_has_metadata] *)

Section metadata.
Context {casing : Text.Casing}.
Import Plugin.

(** *** Dicts *)

Lemma dict_lookup_set k k' v (d : dict) :
  Dict.lookup k (Dict.set k' v d) = if decide (k' = k) then Some v else Dict.lookup k d.
Proof.
  induction d as [|[k1 v1] d IH]; simpl.
  - by case_decide.
  - destruct (decide (k1 = k')) as [->|Hne]; simpl.
    + by case_decide.
    + destruct (decide (k1 = k)) as [->|Hne'].
      * by rewrite decide_False.
      * done.
Qed.

Lemma dict_lookup_absent k (d : dict) : k ∉ d.*1 → Dict.lookup k d = None.
Proof.
  induction d as [|[k1 v1] d IH]; simpl; [done|].
  intros Hnot. rewrite decide_False.
  - apply IH. intros Hin. apply Hnot. by right.
  - intros ->. apply Hnot. left.
Qed.

(** An update with a dict (its keys are distinct) gives each of its keys
    the value it has there, and leaves the other keys alone. *)
Lemma dict_lookup_update k (new : dict) : ∀ acc : dict,
  NoDup new.*1 →
  Dict.lookup k (Dict.update acc new)
  = match Dict.lookup k new with
    | Some v => Some v
    | None => Dict.lookup k acc
    end.
Proof.
  induction new as [|[k1 v1] new IH]; intros acc Hnd; [done|].
  apply NoDup_cons in Hnd as [Hk1 Hnd].
  change (Dict.update acc ((k1, v1) :: new)) with (Dict.update (Dict.set k1 v1 acc) new).
  rewrite (IH _ Hnd), dict_lookup_set. simpl.
  destruct (decide (k1 = k)) as [->|Hne]; [|done].
  by rewrite (dict_lookup_absent k new Hk1).
Qed.

Lemma dict_lookup_filter (P : string * pyval → Prop) `{!∀ kv, Decision (P kv)}
    k v (d : dict) :
  Dict.lookup k d = Some v → P (k, v) → Dict.lookup k (filter P d) = Some v.
Proof.
  induction d as [|[k1 v1] d IH]; simpl; [done|].
  destruct (decide (k1 = k)) as [->|Hne].
  - intros [= ->] HP. rewrite filter_cons_True by done. simpl. by rewrite decide_True.
  - intros Hl HP. rewrite filter_cons. case_decide; simpl; [rewrite decide_False by done|];
      by apply IH.
Qed.

Lemma dict_keys_filter (P : string * pyval → Prop) `{!∀ kv, Decision (P kv)} (d : dict) :
  NoDup d.*1 → NoDup (filter P d).*1.
Proof.
  induction d as [|[k1 v1] d IH]; simpl; [done|].
  intros [Hk1 Hnd]%NoDup_cons. rewrite filter_cons. case_decide; [|by apply IH].
  simpl. apply NoDup_cons. split; [|by apply IH].
  intros ((k' & v') & Hk & [_ Hin]%list_elem_of_filter)%list_elem_of_fmap.
  simpl in Hk. subst k'. apply Hk1. apply list_elem_of_fmap. by exists (k1, v').
Qed.

(** Every item of an updated dict comes from one of the two. *)
Lemma dict_set_items k v (d : dict) kv :
  kv ∈ Dict.set k v d → kv = (k, v) ∨ kv ∈ d.
Proof.
  induction d as [|[k1 v1] d IH]; simpl.
  - intros ->%list_elem_of_singleton. by left.
  - case_decide as Hk.
    + intros [->|Hin]%elem_of_cons; [by left | right; by right].
    + intros [->|Hin]%elem_of_cons; [right; left|].
      destruct (IH Hin) as [|]; [by left | right; by right].
Qed.

Lemma dict_update_items (new : dict) : ∀ (acc : dict) kv,
  kv ∈ Dict.update acc new → kv ∈ acc ∨ kv ∈ new.
Proof.
  induction new as [|[k1 v1] new IH]; intros acc kv; [by left|].
  change (Dict.update acc ((k1, v1) :: new)) with (Dict.update (Dict.set k1 v1 acc) new).
  intros [Hin|Hin]%IH; [|right; by right].
  apply dict_set_items in Hin as [->|Hin]; [right; left | by left].
Qed.

(** *** The tests *)

(** Values that [in] accepts on its right: text, lists and dicts. *)
Definition testable (v : pyval) : bool :=
  match v with
  | VStr _ | VList _ | VDict _ => true
  | VNone | VBool _ | VNum _ => false
  end.

(** [needle in v] holds: [needle] is a piece of the text [v], an element of
    the list [v], or a key of the dict [v]. *)
Definition occurs_in (needle : string) (v : pyval) : bool :=
  match v with
  | VStr s => Text.str_in needle s
  | VList l =>
      existsb (λ x, match x with VStr s => bool_decide (s = needle) | _ => false end) l
  | VDict d => Dict.has needle d
  | VNone | VBool _ | VNum _ => false
  end.

Lemma contains_occurs {S} needle v (s : S) :
  contains needle v s
  = if testable v then Returns (occurs_in needle v) s else Raises TypeError s.
Proof. by destruct v. Qed.

(** A comprehension whose test is a function of the item that may raise
    [e] keeps the items that pass, or raises [e] for some item. *)
Lemma select_filter {S A} (test : A → M S bool) (ok pass : A → bool) e :
  (∀ x s, test x s = if ok x then Returns (pass x) s else Raises e s) →
  ∀ l s, select test l s
         = if forallb ok l then Returns (List.filter pass l) s else Raises e s.
Proof.
  intros Htest l s. induction l as [|x l IH]; simpl; [done|].
  unfold mbind, M_bind in *. rewrite Htest.
  destruct (ok x); simpl; [|done]. rewrite IH.
  destruct (forallb ok l); [|done]. by destruct (pass x).
Qed.

Lemma nonempty_filter {A} (pass : A → bool) (l : list A) :
  nonempty (List.filter pass l) = existsb pass l.
Proof.
  induction l as [|x l IH]; simpl; [done|]. by destruct (pass x).
Qed.

(** The test of lines 56, 62, 69 and 76 holds of an item: the key sought is
    a piece of the item's key in lower case, and the value sought occurs in
    the item's value. *)
Definition item_hit (metadata_key metadata_value : string) (kv : string * pyval) : bool :=
  Text.str_in metadata_key (Text.str_lower kv.1) && occurs_in metadata_value kv.2.

(** The test can be made on the item: its key is not concerned, or [in]
    accepts its value. *)
Definition item_ok (metadata_key : string) (kv : string * pyval) : bool :=
  negb (Text.str_in metadata_key (Text.str_lower kv.1)) || testable kv.2.

Lemma item_matches_hit {S} metadata_key metadata_value kv (s : S) :
  item_matches metadata_key metadata_value kv s
  = if item_ok metadata_key kv
    then Returns (item_hit metadata_key metadata_value kv) s
    else Raises TypeError s.
Proof.
  unfold item_matches, item_ok, item_hit.
  destruct (Text.str_in metadata_key (Text.str_lower kv.1)); simpl; [|done].
  apply contains_occurs.
Qed.

(** The test of line 51 holds of a stream: it has a field of exactly that
    name, and the value sought occurs in the field. *)
Definition field_hit (metadata_key metadata_value : string) (stream : dict) : bool :=
  match Dict.lookup metadata_key stream with
  | Some v => occurs_in metadata_value v
  | None => false
  end.

Definition field_ok (metadata_key : string) (stream : dict) : bool :=
  match Dict.lookup metadata_key stream with
  | Some v => testable v
  | None => true
  end.

Lemma field_matches_hit {S} metadata_key metadata_value stream (s : S) :
  field_matches metadata_key metadata_value stream s
  = if field_ok metadata_key stream
    then Returns (field_hit metadata_key metadata_value stream) s
    else Raises TypeError s.
Proof.
  unfold field_matches, field_ok, field_hit.
  destruct (Dict.lookup metadata_key stream) as [v|]; [|done]. apply contains_occurs.
Qed.

Lemma merge_tags_state {S} streams : ∀ acc (s : S),
  final (merge_tags streams acc s) = s.
Proof.
  induction streams as [|x streams IH]; intros acc s; simpl; [done|].
  destruct (Dict.lookup "tags" x) as [[| | | | |tags]|]; first [apply IH | done].
Qed.

(** One [try] block: the merged tags are scanned if they could be built,
    and a [KeyError] on the way counts as no match. *)
Lemma tags_scan_merged {S} metadata_key metadata_value streams (s : S) :
  tags_scan metadata_key metadata_value streams s
  = match merge_tags streams [] s with
    | Returns merged _ =>
        if forallb (item_ok metadata_key) merged
        then Returns (existsb (item_hit metadata_key metadata_value) merged) s
        else Raises TypeError s
    | Raises KeyError _ => Returns false s
    | Raises e _ => Raises e s
    end.
Proof.
  unfold tags_scan. unfold mbind at 1, M_bind at 1.
  pose proof (merge_tags_state streams [] s) as Hstate.
  destruct (merge_tags streams [] s) as [merged s'|e s']; simpl in Hstate; subst s'.
  - unfold mbind, M_bind.
    rewrite (select_filter _ (item_ok metadata_key)
               (item_hit metadata_key metadata_value) TypeError)
      by (intros; apply item_matches_hit).
    destruct (forallb _ merged); [|done]. unfold mret, M_ret.
    by rewrite nonempty_filter.
  - by destruct e.
Qed.

(** *** What the tests come to *)

(** Some video stream has the key as a field, with the value in it. *)
Definition video_field_matches (metadata_key metadata_value : string)
    (probe_streams : list dict) : Prop :=
  ∃ stream v, stream ∈ of_type "video" probe_streams
    ∧ Dict.lookup metadata_key stream = Some v
    ∧ occurs_in metadata_value v = true.

Lemma existsb_elem_of {A} (pass : A → bool) (l : list A) :
  existsb pass l = true ↔ ∃ x, x ∈ l ∧ pass x = true.
Proof.
  rewrite existsb_exists. split; intros (x & Hin & Hp); exists x;
    (split; [by apply list_elem_of_In | done]).
Qed.

Lemma forallb_elem_of {A} (ok : A → bool) (l : list A) :
  forallb ok l = true ↔ ∀ x, x ∈ l → ok x = true.
Proof.
  rewrite forallb_forall. split; intros Hall x Hin; apply Hall; by apply list_elem_of_In.
Qed.

(** [file_has_metadata], statement by statement. *)
Lemma file_has_metadata_steps path probe_streams probe_format metadata_key metadata_value :
  file_has_metadata path probe_streams probe_format metadata_key metadata_value tt
  = if forallb (field_ok metadata_key) (of_type "video" probe_streams) then
      if forallb (item_ok metadata_key) (flatten_format probe_format) then
        (ast ← tags_scan metadata_key metadata_value (of_type "attachment" probe_streams);
         vst ← tags_scan metadata_key metadata_value (of_type "video" probe_streams);
         aust ← tags_scan metadata_key metadata_value (of_type "audio" probe_streams);
         mret (existsb (field_hit metadata_key metadata_value)
                 (of_type "video" probe_streams)
               || existsb (item_hit metadata_key metadata_value)
                    (flatten_format probe_format)
               || ast || vst || aust)) tt
      else Raises TypeError tt
    else Raises TypeError tt.
Proof.
  unfold file_has_metadata.
  unfold mbind at 1, M_bind at 1.
  rewrite (select_filter _ (field_ok metadata_key)
             (field_hit metadata_key metadata_value) TypeError)
    by (intros; apply field_matches_hit).
  destruct (forallb _ (of_type "video" probe_streams)); [|done].
  unfold mbind at 1, M_bind at 1.
  rewrite (select_filter _ (item_ok metadata_key)
             (item_hit metadata_key metadata_value) TypeError)
    by (intros; apply item_matches_hit).
  destruct (forallb _ (flatten_format probe_format)); [|done].
  rewrite !nonempty_filter. unfold mbind, M_bind.
  destruct (tags_scan _ _ (of_type "attachment" probe_streams) tt) as [ast s1|]; [|done].
  destruct (tags_scan _ _ (of_type "video" probe_streams) s1) as [vst s2|]; [|done].
  destruct (tags_scan _ _ (of_type "audio" probe_streams) s2) as [aust s3|]; [|done].
  by destruct (_ || _ || ast || vst || aust).
Qed.

Lemma video_field_matches_hit metadata_key metadata_value probe_streams :
  existsb (field_hit metadata_key metadata_value) (of_type "video" probe_streams) = true
  ↔ video_field_matches metadata_key metadata_value probe_streams.
Proof.
  rewrite existsb_elem_of. unfold video_field_matches, field_hit. split.
  - intros (stream & Hin & Hhit).
    destruct (Dict.lookup metadata_key stream) as [v|] eqn:Hl; [|done]. by exists stream, v.
  - intros (stream & v & Hin & Hl & Hv). exists stream. by rewrite Hl.
Qed.

(** Tags that are mappings of values [in] accepts can be merged, unless a
    stream has none; what is merged holds such values only. *)
Lemma merge_tags_typed {S} streams : ∀ acc (s : S),
  (∀ stream t, stream ∈ streams → Dict.lookup "tags" stream = Some t →
     ∃ tags, t = VDict tags
       ∧ ∀ k v, (k, v) ∈ tags → is_dict v = false → testable v = true) →
  (∀ k v, (k, v) ∈ acc → testable v = true) →
  (∃ merged, merge_tags streams acc s = Returns merged s
             ∧ ∀ k v, (k, v) ∈ merged → testable v = true)
  ∨ merge_tags streams acc s = Raises KeyError s.
Proof.
  induction streams as [|x streams IH]; intros acc s Htags Hacc; simpl.
  - left. by exists acc.
  - destruct (Dict.lookup "tags" x) as [t|] eqn:Hx; [|by right].
    destruct (Htags x t) as (tags & -> & Hvalues); [left | done |].
    apply IH.
    + intros stream t Hin. apply Htags. by right.
    + intros k v [Hin|Hin]%dict_update_items; [by eapply Hacc|].
      apply list_elem_of_filter in Hin as [Hnd Hin]. by eapply Hvalues.
Qed.

Lemma tags_scan_total category metadata_key metadata_value probe_streams :
  (∀ stream t, stream ∈ probe_streams → Dict.lookup "tags" stream = Some t →
     ∃ tags, t = VDict tags
       ∧ ∀ k v, (k, v) ∈ tags → is_dict v = false → testable v = true) →
  ∃ found, tags_scan metadata_key metadata_value (of_type category probe_streams) tt
           = Returns found tt.
Proof.
  intros Htags. rewrite tags_scan_merged.
  destruct (merge_tags_typed (of_type category probe_streams) [] tt)
    as [(merged & -> & Hvalues)| ->].
  - intros stream t [_ Hin]%list_elem_of_filter. by apply Htags.
  - intros k v Hin. by apply elem_of_nil in Hin.
  - assert (forallb (item_ok metadata_key) merged = true) as ->; [|by eauto].
    apply forallb_elem_of. intros [k v] Hin. unfold item_ok. simpl.
    rewrite (Hvalues k v Hin). by rewrite orb_true_r.
  - by eauto.
Qed.

(** *** The tag scans *)

Lemma merge_tags_app {S} l1 : ∀ l2 acc (s : S),
  merge_tags (l1 ++ l2) acc s = (acc' ← merge_tags l1 acc; merge_tags l2 acc') s.
Proof.
  induction l1 as [|x l1 IH]; intros l2 acc s; simpl; [done|].
  destruct (Dict.lookup "tags" x) as [[| | | | |tags]|]; first [apply IH | done].
Qed.

(** A stream without [tags] among streams whose [tags], where present, are
    mappings: the merge raises [KeyError]. *)
Lemma merge_tags_missing {S} streams : ∀ acc (s : S),
  (∀ stream t, stream ∈ streams → Dict.lookup "tags" stream = Some t → is_dict t = true) →
  (∃ stream, stream ∈ streams ∧ Dict.lookup "tags" stream = None) →
  merge_tags streams acc s = Raises KeyError s.
Proof.
  induction streams as [|x streams IH]; intros acc s Hdicts (bare & Hin & Hbare).
  - by apply elem_of_nil in Hin.
  - simpl. destruct (Dict.lookup "tags" x) as [t|] eqn:Hx; [|done].
    pose proof (Hdicts x t (list_elem_of_here _ _) Hx) as Ht.
    destruct t as [| | | | |tags]; try done.
    apply IH.
    + intros stream t Hs. apply Hdicts. by right.
    + apply elem_of_cons in Hin as [->|Hin]; [congruence | by exists bare].
Qed.

Lemma dict_set_keys k v (d : dict) :
  (Dict.set k v d).*1 = if decide (k ∈ d.*1) then d.*1 else d.*1 ++ [k].
Proof.
  induction d as [|[k1 v1] d IH]; [done|].
  cbn [Dict.set]. rewrite fmap_cons. cbn [fst].
  destruct (decide (k1 = k)) as [->|Hne].
  - rewrite fmap_cons. cbn [fst]. rewrite decide_True; [done | left].
  - rewrite fmap_cons, IH. cbn [fst]. destruct (decide (k ∈ d.*1)) as [Hin|Hnot].
    + rewrite decide_True; [done | by right].
    + rewrite decide_False; [done|]. intros [->|]%elem_of_cons; done.
Qed.

Lemma dict_set_nodup k v (d : dict) : NoDup d.*1 → NoDup (Dict.set k v d).*1.
Proof.
  intros Hnd. rewrite dict_set_keys. case_decide as Hin; [done|].
  apply NoDup_app. split; [done|]. split; [|apply NoDup_singleton].
  intros k' Hk' ->%list_elem_of_singleton. done.
Qed.

Lemma dict_update_nodup (new : dict) : ∀ acc : dict,
  NoDup acc.*1 → NoDup (Dict.update acc new).*1.
Proof.
  induction new as [|[k1 v1] new IH]; intros acc Hnd; [done|].
  change (Dict.update acc ((k1, v1) :: new)) with (Dict.update (Dict.set k1 v1 acc) new).
  by apply IH, dict_set_nodup.
Qed.

Lemma merge_tags_nodup {S} streams : ∀ acc (s s' : S) merged,
  NoDup acc.*1 → merge_tags streams acc s = Returns merged s' → NoDup merged.*1.
Proof.
  induction streams as [|x streams IH]; intros acc s s' merged Hnd; simpl.
  - by intros [= <- _].
  - destruct (Dict.lookup "tags" x) as [[| | | | |tags]|]; try done.
    apply IH. by apply dict_update_nodup.
Qed.

Lemma dict_item_lookup k v (d : dict) :
  NoDup d.*1 → (k, v) ∈ d → Dict.lookup k d = Some v.
Proof.
  induction d as [|[k1 v1] d IH]; simpl; [by intros _ ?%elem_of_nil|].
  intros [Hk1 Hnd]%NoDup_cons [[= -> ->]|Hin]%elem_of_cons.
  - by rewrite decide_True.
  - rewrite decide_False; [by apply IH|].
    intros ->. apply Hk1. apply list_elem_of_fmap. by exists (k, v).
Qed.

Lemma dict_lookup_filter_absent (P : string * pyval → Prop) `{!∀ kv, Decision (P kv)}
    k (d : dict) :
  Dict.lookup k d = None → Dict.lookup k (filter P d) = None.
Proof.
  induction d as [|[k1 v1] d IH]; simpl; [done|].
  destruct (decide (k1 = k)) as [->|Hne]; [done|].
  intros Hl. rewrite filter_cons. case_decide; simpl; [rewrite decide_False by done|];
    by apply IH.
Qed.

(** Streams whose tags do not have the key leave its merged value alone. *)
Lemma merge_tags_keeps {S} k streams : ∀ acc (s s' : S) merged,
  (∀ stream t, stream ∈ streams → Dict.lookup "tags" stream = Some (VDict t) →
     NoDup t.*1 ∧ Dict.lookup k t = None) →
  merge_tags streams acc s = Returns merged s' →
  Dict.lookup k merged = Dict.lookup k acc.
Proof.
  induction streams as [|x streams IH]; intros acc s s' merged Hrest; simpl.
  - by intros [= <- _].
  - destruct (Dict.lookup "tags" x) as [[| | | | |tags]|] eqn:Hx; try done.
    intros Hmerge.
    destruct (Hrest x tags (list_elem_of_here _ _) Hx) as [Hnd Hk].
    rewrite (IH _ _ _ _ (λ stream t Hin, Hrest stream t (list_elem_of_further _ _ _ Hin))
               Hmerge).
    rewrite dict_lookup_update by by apply dict_keys_filter.
    by rewrite dict_lookup_filter_absent.
Qed.

(** C10.  Within one category: if the [tags] of its streams, where present,
    are mappings and some stream has no [tags], the scan of the category
    finds no match, whatever the tags of the other streams hold; and when
    the tags can be merged, a key that a stream gives a value (not a
    mapping) and that no stream after it has, holds in the merged mapping
    the value of that stream and only that one, so that the value an
    earlier stream gave the same key is not tested. *)
Theorem tags_scan_all_or_nothing :
  (∀ metadata_key metadata_value (streams : list dict),
     (∀ stream t, stream ∈ streams → Dict.lookup "tags" stream = Some t →
        is_dict t = true) →
     (∃ stream, stream ∈ streams ∧ Dict.lookup "tags" stream = None) →
     tags_scan metadata_key metadata_value streams tt = Returns false tt)
  ∧ (∀ (earlier : list dict) (later : dict) (rest : list dict)
       (tags merged : dict) k v,
       Dict.lookup "tags" later = Some (VDict tags) → NoDup tags.*1 →
       Dict.lookup k tags = Some v → is_dict v = false →
       (∀ stream t, stream ∈ rest → Dict.lookup "tags" stream = Some (VDict t) →
          NoDup t.*1 ∧ Dict.lookup k t = None) →
       merge_tags (earlier ++ later :: rest) [] tt = Returns merged tt →
       Dict.lookup k merged = Some v
       ∧ ∀ v', (k, v') ∈ merged → v' = v).
Proof.
  split.
  - intros metadata_key metadata_value streams Hdicts Hbare.
    rewrite tags_scan_merged. by rewrite (merge_tags_missing streams [] tt Hdicts Hbare).
  - intros earlier later rest tags merged k v Hlater Hnd Hk Hv Hrest Hmerge.
    assert (Dict.lookup k merged = Some v) as Hlookup.
    { rewrite merge_tags_app in Hmerge.
      apply bind_inv_returns in Hmerge as (acc & [] & _ & Hmerge).
      simpl in Hmerge. rewrite Hlater in Hmerge.
      rewrite (merge_tags_keeps k rest _ tt tt merged Hrest Hmerge).
      rewrite dict_lookup_update by by apply dict_keys_filter.
      by rewrite (dict_lookup_filter _ k v tags Hk) by exact Hv. }
    split; [done|]. intros v' Hin.
    assert (NoDup merged.*1) as Hmnd.
    { eapply (merge_tags_nodup (earlier ++ later :: rest) [] tt tt merged); [|done].
      apply NoDup_nil_2. }
    rewrite (dict_item_lookup k v' merged Hmnd Hin) in Hlookup. congruence.
Qed.

End metadata.

(** ** The literal matching, as the design document words it *)

(** The five segments of the search, said over finite maps: they are set
    against the lists and loops of [file_has_metadata] below. *)
Module Literal.
Section segments.
Context {casing : Text.Casing}.

(** A mapping, by its keys. *)
Definition as_map (d : dict) : gmap string pyval := list_to_map d.

(** Its entries whose value is not itself a mapping. *)
Definition plain (m : gmap string pyval) : gmap string pyval :=
  filter (λ kv, is_dict kv.2 = false) m.

(** The mappings that are values of a mapping, in its order. *)
Definition nested (d : dict) : list (gmap string pyval) :=
  omap (λ kv, match kv.2 with VDict inner => Some (as_map inner) | _ => None end) d.

(** The flattened format mapping: the plain entries of the format, with
    the nested mappings merged in one after the other, an entry merged in
    taking the place of one of the same key. *)
Definition flattened (probe_format : dict) : gmap string pyval :=
  foldl (λ merged inner, inner ∪ merged) (plain (as_map probe_format))
        (nested probe_format).

(** A stream of a category: its [codec_type] is that text. *)
Definition in_category (category : string) (stream : dict) : bool :=
  match as_map stream !! "codec_type" with
  | Some (VStr codec_type) => bool_decide (codec_type = category)
  | _ => false
  end.

(** The merged tags of streams: the plain entries of the [tags] of each,
    a later stream's entry taking the place of an earlier one of the same
    key; there are none when a stream has no [tags] that is a mapping. *)
Definition add_tags (merged : option (gmap string pyval)) (stream : dict)
    : option (gmap string pyval) :=
  m ← merged;
  match as_map stream !! "tags" with
  | Some (VDict tags) => Some (plain (as_map tags) ∪ m)
  | _ => None
  end.

Definition merged_tags (streams : list dict) : option (gmap string pyval) :=
  foldl add_tags (Some ∅) streams.

(** The test on a mapping: some key has the key sought as a piece of it,
    in lower case, with the value sought in its raw value. *)
Definition key_value_match (metadata_key metadata_value : string)
    (m : gmap string pyval) : Prop :=
  ∃ k v, m !! k = Some v
    ∧ Text.str_in metadata_key (Text.str_lower k) = true
    ∧ occurs_in metadata_value v = true.

(** The direct check: some video stream has the key sought as the exact
    name of a field, with the value sought in that field. *)
Definition field_match (metadata_key metadata_value : string)
    (probe_streams : list dict) : Prop :=
  ∃ stream v, stream ∈ probe_streams
    ∧ in_category "video" stream = true
    ∧ as_map stream !! metadata_key = Some v
    ∧ occurs_in metadata_value v = true.

(** The scan of the tags of one category. *)
Definition tags_segment (category metadata_key metadata_value : string)
    (probe_streams : list dict) : Prop :=
  ∃ m, merged_tags (filter (λ stream, in_category category stream = true) probe_streams)
       = Some m
    ∧ key_value_match metadata_key metadata_value m.

(** Some segment matches. *)
Definition matches (metadata_key metadata_value : string)
    (probe_streams : list dict) (probe_format : dict) : Prop :=
  field_match metadata_key metadata_value probe_streams
  ∨ key_value_match metadata_key metadata_value (flattened probe_format)
  ∨ tags_segment "attachment" metadata_key metadata_value probe_streams
  ∨ tags_segment "video" metadata_key metadata_value probe_streams
  ∨ tags_segment "audio" metadata_key metadata_value probe_streams.

(** A mapping holds each key once: the format and the mappings in it, and
    the tags of the streams. *)
Definition distinct (d : dict) : bool := bool_decide (NoDup d.*1).

Definition format_well_formed (probe_format : dict) : bool :=
  distinct probe_format
  && forallb (λ kv, match kv.2 with VDict inner => distinct inner | _ => true end)
       probe_format.

Definition tags_well_formed (probe_streams : list dict) : bool :=
  forallb (λ stream, match as_map stream !! "tags" with
                     | Some (VDict tags) => distinct tags
                     | _ => true
                     end) probe_streams.

End segments.
End Literal.

Section literal_matching.
Context {casing : Text.Casing}.
Import Plugin Literal.

Lemma as_map_lookup (d : dict) k : as_map d !! k = Dict.lookup k d.
Proof.
  unfold as_map. induction d as [|[k1 v1] d IH]; [apply lookup_empty|].
  rewrite list_to_map_cons. simpl. destruct (decide (k1 = k)) as [->|Hne].
  - by rewrite lookup_insert_eq.
  - by rewrite lookup_insert_ne.
Qed.

Lemma of_type_in_category category (probe_streams : list dict) :
  of_type category probe_streams
  = filter (λ stream, in_category category stream = true) probe_streams.
Proof.
  unfold of_type. apply list_filter_iff. intros stream.
  assert (has_type category stream = in_category category stream) as ->.
  { unfold has_type, in_category. by rewrite as_map_lookup. }
  apply Is_true_true.
Qed.

Lemma dict_lookup_item k v (d : dict) : Dict.lookup k d = Some v → (k, v) ∈ d.
Proof.
  induction d as [|[k1 v1] d IH]; simpl; [done|].
  destruct (decide (k1 = k)) as [->|Hne].
  - intros [= ->]. left.
  - intros Hl. right. by apply IH.
Qed.

(** An association list and the finite map it stands for. *)
Definition represents (d : dict) (m : gmap string pyval) : Prop :=
  ∀ k, Dict.lookup k d = m !! k.

Lemma represents_items (d : dict) m k v :
  NoDup d.*1 → represents d m → (k, v) ∈ d ↔ m !! k = Some v.
Proof.
  intros Hnd Hrep. rewrite <-Hrep. split; [by apply dict_item_lookup | apply dict_lookup_item].
Qed.

Lemma represents_update (acc new : dict) m :
  NoDup new.*1 → represents acc m →
  represents (Dict.update acc new) (as_map new ∪ m).
Proof.
  intros Hnd Hrep k. rewrite dict_lookup_update by done.
  rewrite lookup_union, as_map_lookup, <-Hrep.
  by destruct (Dict.lookup k new), (Dict.lookup k acc).
Qed.

Lemma dict_lookup_filter_out (P : string * pyval → Prop) `{!∀ kv, Decision (P kv)}
    k v (d : dict) :
  NoDup d.*1 → Dict.lookup k d = Some v → ¬ P (k, v) →
  Dict.lookup k (filter P d) = None.
Proof.
  induction d as [|[k1 v1] d IH]; simpl; [done|].
  intros [Hk1 Hnd]%NoDup_cons. destruct (decide (k1 = k)) as [->|Hne].
  - intros [= ->] HP. rewrite filter_cons_False by done.
    apply dict_lookup_absent.
    intros ((k' & v') & Hk & [_ Hin]%list_elem_of_filter)%list_elem_of_fmap.
    simpl in Hk. subst k'. apply Hk1. apply list_elem_of_fmap. by exists (k, v').
  - intros Hl HP. rewrite filter_cons.
    case_decide; simpl; [rewrite decide_False by done|]; by apply IH.
Qed.

Lemma represents_plain (d : dict) :
  NoDup d.*1 →
  represents (filter (λ kv, is_dict kv.2 = false) d) (plain (as_map d)).
Proof.
  intros Hnd k. unfold plain. rewrite map_lookup_filter, as_map_lookup.
  destruct (Dict.lookup k d) as [v|] eqn:Hl; simpl.
  - destruct (decide (is_dict v = false)) as [Hv|Hv].
    + rewrite option_guard_True by done. by apply dict_lookup_filter.
    + rewrite option_guard_False by done. by apply (dict_lookup_filter_out _ k v).
  - by apply dict_lookup_filter_absent.
Qed.

Lemma as_map_plain (d : dict) :
  NoDup d.*1 → as_map (filter (λ kv, is_dict kv.2 = false) d) = plain (as_map d).
Proof.
  intros Hnd. apply map_eq. intros k. rewrite as_map_lookup. by apply represents_plain.
Qed.

Lemma dict_set_new k v (d : dict) : k ∉ d.*1 → Dict.set k v d = d ++ [(k, v)].
Proof.
  induction d as [|[k1 v1] d IH]; simpl; [done|].
  intros Hnot. rewrite decide_False.
  - rewrite IH; [done|]. intros Hin. apply Hnot. by right.
  - intros ->. apply Hnot. left.
Qed.

(** With keys all distinct an update adds the new items at the end, in
    their order. *)
Lemma dict_update_app (new : dict) : ∀ acc : dict,
  NoDup (acc ++ new).*1 → Dict.update acc new = acc ++ new.
Proof.
  induction new as [|[k v] new IH]; intros acc Hnd; [by rewrite app_nil_r|].
  change (Dict.update acc ((k, v) :: new)) with (Dict.update (Dict.set k v acc) new).
  rewrite dict_set_new.
  - rewrite IH; rewrite <-app_assoc; done.
  - rewrite fmap_app in Hnd. apply NoDup_app in Hnd as (_ & Hsep & _).
    intros Hin. apply (Hsep k Hin). left.
Qed.

Lemma dict_update_nil (new : dict) : NoDup new.*1 → Dict.update [] new = new.
Proof. intros Hnd. by rewrite dict_update_app. Qed.

Lemma distinct_keys (d : dict) : distinct d = true → NoDup d.*1.
Proof. unfold distinct. by intros ?%bool_decide_eq_true. Qed.

Lemma format_well_formed_keys (probe_format : dict) :
  format_well_formed probe_format = true →
  NoDup probe_format.*1
  ∧ ∀ name inner, (name, VDict inner) ∈ probe_format → NoDup inner.*1.
Proof.
  unfold format_well_formed. intros [Hd Hall]%andb_true_iff.
  split; [by apply distinct_keys|]. intros name inner Hin.
  apply (proj1 (forallb_elem_of _ _) Hall) in Hin. by apply distinct_keys.
Qed.

(** The loop of lines 54-55 over the nested mappings. *)
Lemma nested_merged_in (l : dict) : ∀ (acc : dict) m,
  (∀ name inner, (name, VDict inner) ∈ l → NoDup inner.*1) →
  represents acc m →
  represents
    (foldl (λ kv v, match v with VDict d => Dict.update kv d | _ => kv end)
       acc ((filter (λ kv, is_dict kv.2 = true) l).*2))
    (foldl (λ merged inner, inner ∪ merged) m (nested l)).
Proof.
  induction l as [|[name v] l IH]; intros acc m Hinner Hrep; [done|].
  assert (∀ name' inner, (name', VDict inner) ∈ l → NoDup inner.*1) as Hrest.
  { intros name' inner Hin. apply (Hinner name'). by right. }
  destruct v as [| | | | |inner].
  1-5: rewrite filter_cons_False by done; by apply IH.
  rewrite filter_cons_True by done. simpl. apply IH; [done|].
  apply represents_update; [|done]. apply (Hinner name). left.
Qed.

Lemma flatten_format_represents (probe_format : dict) :
  format_well_formed probe_format = true →
  represents (flatten_format probe_format) (flattened probe_format).
Proof.
  intros [Hnd Hinner]%format_well_formed_keys. unfold flatten_format, flattened.
  rewrite !dict_update_nil by by apply dict_keys_filter.
  apply nested_merged_in; [done|]. by apply represents_plain.
Qed.

Lemma flatten_format_nodup (probe_format : dict) : NoDup (flatten_format probe_format).*1.
Proof.
  unfold flatten_format.
  generalize ((Dict.update [] (filter (λ kv, is_dict kv.2 = true) probe_format)).*2).
  assert (NoDup (Dict.update [] (filter (λ kv, is_dict kv.2 = false) probe_format)).*1)
    as Hstart by apply dict_update_nodup, NoDup_nil_2.
  revert Hstart.
  generalize (Dict.update [] (filter (λ kv, is_dict kv.2 = false) probe_format)).
  intros acc Hacc values. revert acc Hacc.
  induction values as [|v values IH]; intros acc Hacc; [done|].
  simpl. apply IH. destruct v; try done. by apply dict_update_nodup.
Qed.

(** The comprehension of line 56 and its like, on a list that stands for
    a map. *)
Lemma existsb_item_hit metadata_key metadata_value (d : dict) m :
  NoDup d.*1 → represents d m →
  existsb (item_hit metadata_key metadata_value) d = true
  ↔ key_value_match metadata_key metadata_value m.
Proof.
  intros Hnd Hrep. rewrite existsb_elem_of. unfold item_hit, key_value_match. split.
  - intros ([k v] & Hin & [Hk Hv]%andb_true_iff). exists k, v.
    split; [by apply (represents_items d m k v Hnd Hrep) | done].
  - intros (k & v & Hm & Hk & Hv). exists (k, v).
    split; [by apply (represents_items d m k v Hnd Hrep)|]. simpl. by rewrite Hk, Hv.
Qed.

Lemma add_tags_none streams : foldl add_tags None streams = None.
Proof. by induction streams. Qed.

(** The comprehension of lines 61, 68 and 75. *)
Lemma merge_tags_represents streams : ∀ (acc : dict) m,
  tags_well_formed streams = true → represents acc m →
  match merge_tags streams acc tt with
  | Returns merged _ =>
      ∃ m', foldl add_tags (Some m) streams = Some m' ∧ represents merged m'
  | Raises KeyError _ => foldl add_tags (Some m) streams = None
  | Raises _ _ => True
  end.
Proof.
  induction streams as [|x streams IH]; intros acc m Hwf Hrep; simpl.
  - by exists m.
  - simpl in Hwf. apply andb_true_iff in Hwf as [Hx Hwf].
    rewrite as_map_lookup in Hx |- *.
    destruct (Dict.lookup "tags" x) as [[| | | | |tags]|]; simpl; try done.
    + apply distinct_keys in Hx. apply IH; [done|].
      rewrite <-(as_map_plain tags Hx).
      apply represents_update; [by apply dict_keys_filter | done].
    + apply add_tags_none.
Qed.

Lemma tags_well_formed_filter (P : dict → Prop) `{!∀ s, Decision (P s)} streams :
  tags_well_formed streams = true → tags_well_formed (filter P streams) = true.
Proof.
  unfold tags_well_formed. rewrite !forallb_elem_of.
  intros Hall stream [_ Hin]%list_elem_of_filter. by apply Hall.
Qed.

(** One scan of tags against its segment. *)
Lemma tags_scan_segment category metadata_key metadata_value probe_streams found :
  tags_well_formed probe_streams = true →
  tags_scan metadata_key metadata_value (of_type category probe_streams) tt
  = Returns found tt →
  found = true ↔ tags_segment category metadata_key metadata_value probe_streams.
Proof.
  intros Hwf. rewrite tags_scan_merged, of_type_in_category. unfold tags_segment, merged_tags.
  set (streams := filter (λ stream, in_category category stream = true) probe_streams).
  assert (tags_well_formed streams = true) as Hwf' by by apply tags_well_formed_filter.
  pose proof (merge_tags_represents streams [] ∅ Hwf' (λ k, eq_sym (lookup_empty k)))
    as Hmerged.
  pose proof (merge_tags_nodup streams [] tt) as Hnodup.
  destruct (merge_tags streams [] tt) as [merged []|e []].
  - destruct Hmerged as (m' & Hm' & Hrep).
    destruct (forallb _ merged); [|done]. intros [= <-].
    rewrite (existsb_item_hit _ _ merged m' (Hnodup tt merged (NoDup_nil_2) eq_refl) Hrep).
    split.
    + intros Hmatch. by exists m'.
    + intros (m'' & Hm'' & Hmatch). congruence.
  - destruct e; try done. intros [= <-]. split; [done|].
    intros (m' & Hm' & _). congruence.
Qed.

(** The direct check against its segment. *)
Lemma field_segment metadata_key metadata_value probe_streams :
  existsb (field_hit metadata_key metadata_value) (of_type "video" probe_streams) = true
  ↔ field_match metadata_key metadata_value probe_streams.
Proof.
  rewrite existsb_elem_of, of_type_in_category. unfold field_match, field_hit. split.
  - intros (stream & [Hvideo Hin]%list_elem_of_filter & Hhit).
    destruct (Dict.lookup metadata_key stream) as [v|] eqn:Hl; [|done].
    exists stream, v. by rewrite as_map_lookup.
  - intros (stream & v & Hin & Hvideo & Hl & Hv). exists stream.
    split; [by apply list_elem_of_filter|]. rewrite as_map_lookup in Hl. by rewrite Hl.
Qed.

(** C9.  On a format and tags that hold each key once, as mappings do:
    when [file_has_metadata] returns, it returns [True] exactly when one
    of the five segments matches.  The direct check asks for a video
    stream with the key as the exact name of a field and the value in that
    field; the format check, for a key of the flattened format mapping
    (the nested mappings merged in) that has the key as a piece of it in
    lower case, with the value in its raw value; and the three scans make
    that same test on the merged tags of the attachment streams, of the
    video streams and of the audio streams.  The function does return when
    every value it tests is one that [in] accepts (text, a list or a
    mapping) and every [tags] field is a mapping. *)
Theorem file_has_metadata_literal path probe_streams probe_format
    metadata_key metadata_value :
  format_well_formed probe_format = true →
  tags_well_formed probe_streams = true →
  (∀ found,
     file_has_metadata path probe_streams probe_format metadata_key metadata_value tt
     = Returns found tt →
     (found = true ↔ matches metadata_key metadata_value probe_streams probe_format))
  ∧ ((∀ stream v, stream ∈ probe_streams → in_category "video" stream = true →
        as_map stream !! metadata_key = Some v → testable v = true) →
     (∀ k v, flattened probe_format !! k = Some v →
        Text.str_in metadata_key (Text.str_lower k) = true → testable v = true) →
     (∀ stream t, stream ∈ probe_streams → as_map stream !! "tags" = Some t →
        ∃ tags, t = VDict tags
          ∧ ∀ k v, as_map tags !! k = Some v → is_dict v = false → testable v = true) →
     ∃ found,
       file_has_metadata path probe_streams probe_format metadata_key metadata_value tt
       = Returns found tt).
Proof.
  intros Hformat Htags. split.
  - intros found. rewrite file_has_metadata_steps.
    destruct (forallb _ (of_type "video" probe_streams)); [|done].
    destruct (forallb _ (flatten_format probe_format)); [|done].
    intros (ast & [] & Hast & Hret)%bind_inv_returns.
    apply bind_inv_returns in Hret as (vst & [] & Hvst & Hret).
    apply bind_inv_returns in Hret as (aust & [] & Haust & Hret).
    injection Hret as <-.
    rewrite !orb_true_iff. unfold matches.
    rewrite field_segment.
    rewrite (existsb_item_hit _ _ _ _ (flatten_format_nodup probe_format)
               (flatten_format_represents probe_format Hformat)).
    rewrite (tags_scan_segment _ _ _ _ _ Htags Hast),
            (tags_scan_segment _ _ _ _ _ Htags Hvst),
            (tags_scan_segment _ _ _ _ _ Htags Haust).
    tauto.
  - intros Hfields Hitems Htyped. rewrite file_has_metadata_steps.
    assert (forallb (field_ok metadata_key) (of_type "video" probe_streams) = true) as ->.
    { apply forallb_elem_of. intros stream Hin. unfold field_ok.
      rewrite of_type_in_category in Hin. apply list_elem_of_filter in Hin as [Hvideo Hin].
      destruct (Dict.lookup metadata_key stream) as [v|] eqn:Hl; [|done].
      apply (Hfields stream v Hin Hvideo). by rewrite as_map_lookup. }
    assert (forallb (item_ok metadata_key) (flatten_format probe_format) = true) as ->.
    { apply forallb_elem_of. intros [k v] Hin. unfold item_ok. simpl.
      destruct (Text.str_in metadata_key (Text.str_lower k)) eqn:Hk; [|done]. simpl.
      apply (Hitems k); [|done].
      by apply (represents_items _ _ k v (flatten_format_nodup probe_format)
                  (flatten_format_represents probe_format Hformat)). }
    assert (∀ stream t, stream ∈ probe_streams → Dict.lookup "tags" stream = Some t →
              ∃ tags, t = VDict tags
                ∧ ∀ k v, (k, v) ∈ tags → is_dict v = false → testable v = true) as Htyped'.
    { intros stream t Hin Ht.
      destruct (Htyped stream t Hin) as (tags & -> & Hvalues);
        [by rewrite as_map_lookup|].
      exists tags. split; [done|]. intros k v Hkv. apply (Hvalues k).
      rewrite as_map_lookup. apply dict_item_lookup; [|done].
      apply distinct_keys.
      pose proof (proj1 (forallb_elem_of _ _) Htags stream Hin) as Hstream.
      simpl in Hstream. by rewrite as_map_lookup, Ht in Hstream. }
    destruct (tags_scan_total "attachment" metadata_key metadata_value probe_streams Htyped')
      as [ast Hast].
    destruct (tags_scan_total "video" metadata_key metadata_value probe_streams Htyped')
      as [vst Hvst].
    destruct (tags_scan_total "audio" metadata_key metadata_value probe_streams Htyped')
      as [aust Haust].
    rewrite (bind_returns _ _ _ _ _ Hast), (bind_returns _ _ _ _ _ Hvst),
            (bind_returns _ _ _ _ _ Haust).
    by eauto.
Qed.

End literal_matching.

(** ** A probed file to test *)

Module Library.

Definition video_stream : dict :=
  [("index", VNum 0); ("codec_name", VStr "hevc"); ("codec_type", VStr "video");
   ("pix_fmt", VStr "yuv420p10le"); ("width", VNum 1920);
   ("tags", VDict [("language", VStr "eng")])].

Definition audio_english : dict :=
  [("index", VNum 1); ("codec_name", VStr "aac"); ("codec_type", VStr "audio");
   ("tags", VDict [("language", VStr "eng"); ("title", VStr "Stereo")])].

Definition audio_commentary : dict :=
  [("index", VNum 2); ("codec_name", VStr "aac"); ("codec_type", VStr "audio");
   ("tags", VDict [("language", VStr "eng"); ("title", VStr "Commentary")])].

Definition audio_untagged : dict :=
  [("index", VNum 3); ("codec_name", VStr "ac3"); ("codec_type", VStr "audio")].

Definition format : dict :=
  [("filename", VStr "movie.mkv"); ("nb_streams", VNum 3);
   ("format_name", VStr "matroska,webm");
   ("tags", VDict [("ENCODER", VStr "Lavf58.76.100")])].

End Library.

(** C9 (instance).  The plugin's own question, is the video HEVC: the
    answer is [True], through one of the five segments. *)
Lemma file_has_metadata_literal_witness :
  Literal.format_well_formed Library.format = true
  ∧ Literal.tags_well_formed [Library.video_stream; Library.audio_english] = true
  ∧ Plugin.file_has_metadata "movie.mkv"
      [Library.video_stream; Library.audio_english] Library.format "codec_name" "hevc" tt
    = Returns true tt
  ∧ Literal.matches "codec_name" "hevc"
      [Library.video_stream; Library.audio_english] Library.format.
Proof.
  assert (Literal.format_well_formed Library.format = true) as Hformat.
  { vm_compute. reflexivity. }
  assert (Literal.tags_well_formed [Library.video_stream; Library.audio_english] = true)
    as Htags.
  { vm_compute. reflexivity. }
  assert (Plugin.file_has_metadata "movie.mkv"
            [Library.video_stream; Library.audio_english] Library.format
            "codec_name" "hevc" tt
          = Returns true tt) as Hrun.
  { vm_compute. reflexivity. }
  split; [exact Hformat|]. split; [exact Htags|]. split; [exact Hrun|].
  apply (proj1 (file_has_metadata_literal "movie.mkv"
                  [Library.video_stream; Library.audio_english] Library.format
                  "codec_name" "hevc" Hformat Htags) true Hrun).
  reflexivity.
Defined.

(** C10 (instance).  Two audio streams, the first titled [Stereo], the
    second without tags: the scan for a title holding [Stereo] finds
    nothing. *)
Lemma tags_scan_all_or_nothing_witness :
  Plugin.tags_scan "title" "Stereo" [Library.audio_english; Library.audio_untagged] tt
  = Returns false tt.
Proof.
  apply (proj1 tags_scan_all_or_nothing).
  - intros stream t [->|[->|Hin]%elem_of_cons]%elem_of_cons.
    + intros [= <-]. reflexivity.
    + intros Hl. discriminate Hl.
    + by apply elem_of_nil in Hin.
  - exists Library.audio_untagged. split; [right; left | reflexivity].
Defined.

(** With the tags of both streams present the same title is found ... *)
Example tags_scan_finds_title :
  Plugin.tags_scan "title" "Stereo" [Library.audio_english] tt = Returns true tt.
Proof. vm_compute. reflexivity. Qed.

(** ... unless a later stream gives the key another value: only that one
    is tested. *)
Example tags_scan_later_title_wins :
  Plugin.tags_scan "title" "Stereo" [Library.audio_english; Library.audio_commentary] tt
  = Returns false tt
  ∧ Plugin.tags_scan "title" "Commentary"
      [Library.audio_english; Library.audio_commentary] tt
    = Returns true tt.
Proof. split; vm_compute; reflexivity. Qed.

(** A key that meets a number lets [TypeError] through: the test is made
    with [in], which a number does not take. *)
Example file_has_metadata_number_raises :
  raised (Plugin.file_has_metadata "movie.mkv" [Library.video_stream] Library.format
            "width" "1920" tt)
  = Some TypeError.
Proof. vm_compute. reflexivity. Qed.

(** * The rest of the two classes *)

(** ** More on the option groups *)

Section option_groups.
Import BuildArgs OverrideLaw.

Lemma for_each_invariant {A} (round : A → M frame unit) (I : frame → Prop) :
  (∀ x f, I f → I (final (round x f))) →
  ∀ l f, I f → I (final (for_each round l f)).
Proof.
  intros Hround l. induction l as [|x l IH]; intros f Hf; simpl; [done|].
  unfold mbind, M_bind. pose proof (Hround x f Hf) as Hf1.
  destruct (round x f) as [[] f1|e f1]; simpl in *; [by apply IH | done].
Qed.

(** While a call edits [group], the list object [other] of the caller is
    out of its reach: the local name denotes [group] or an object made
    during the call. *)
Definition out_of_reach (group other : loc) (h0 : heap) (f : frame) : Prop :=
  (options f = group ∨ next h0 ≤ options f)
  ∧ next h0 ≤ next (fheap f)
  ∧ deref (fheap f) other = deref h0 other.

Lemma iadd_out_of_reach group other h0 l f :
  other ≠ group → other < next h0 →
  out_of_reach group other h0 f → out_of_reach group other h0 (final (iadd l f)).
Proof.
  intros Hne Hlt (Hopt & Hnext & Hother). unfold iadd, modify. simpl.
  split; [done|]. split; [done|]. simpl. rewrite deref_update_other; [done|].
  destruct Hopt as [->|Hge]; [done | lia].
Qed.

Lemma rebind_out_of_reach group other h0 arg f :
  other ≠ group → other < next h0 →
  out_of_reach group other h0 f →
  out_of_reach group other h0 (final (rebind_without arg f)).
Proof.
  intros Hne Hlt (Hopt & Hnext & Hother). unfold rebind_without, modify. simpl.
  split; [right; simpl; lia|]. split; [simpl; lia|]. simpl.
  rewrite <-Hother. apply (deref_alloc_old _ (fheap f) other). lia.
Qed.

Lemma setitem_out_of_reach group other h0 i x f :
  other ≠ group → other < next h0 →
  out_of_reach group other h0 f →
  out_of_reach group other h0 (final (setitem i x f)).
Proof.
  intros Hne Hlt (Hopt & Hnext & Hother). unfold setitem, mbind, M_bind, get.
  case_decide; simpl; [|done].
  split; [done|]. split; [done|]. simpl. rewrite deref_update_other; [done|].
  destruct Hopt as [->|Hge]; [done | lia].
Qed.

Lemma positional_out_of_reach group other h0 arg f :
  other ≠ group → other < next h0 →
  out_of_reach group other h0 f →
  out_of_reach group other h0 (final (positional arg f)).
Proof.
  intros Hne Hlt Hf. unfold positional, mbind, M_bind, get.
  destruct (list_in arg (current f)).
  - pose proof (rebind_out_of_reach group other h0 arg f Hne Hlt Hf) as Hf1.
    destruct (rebind_without arg f) as [[] f1|e f1] eqn:Hr; [|done]. simpl in Hf1.
    by apply iadd_out_of_reach.
  - by apply iadd_out_of_reach.
Qed.

Lemma named_out_of_reach group other h0 kw f :
  other ≠ group → other < next h0 →
  out_of_reach group other h0 f →
  out_of_reach group other h0 (final (named kw f)).
Proof.
  intros Hne Hlt Hf. unfold named, mbind, M_bind, get.
  destruct (list_index kw.1 (current f)) as [key_pos|].
  - pose proof (setitem_out_of_reach group other h0 key_pos kw.1 f Hne Hlt Hf) as Hf1.
    destruct (setitem key_pos kw.1 f) as [[] f1|e f1]; simpl in *; [|done].
    by apply setitem_out_of_reach.
  - by apply iadd_out_of_reach.
Qed.

(** A call of [__build_args] on one list object, whether it returns or
    raises, leaves every other list object that existed before the call as
    it was, and frees no reference. *)
Lemma build_args_out_of_reach group other args kwargs h :
  other ≠ group → other < next h →
  next h ≤ next (final (build_args group args kwargs h))
  ∧ deref (final (build_args group args kwargs h)) other = deref h other.
Proof.
  intros Hne Hlt.
  assert (out_of_reach group other h (Frame h group)) as Hstart.
  { split; [by left|]. split; simpl; [lia | done]. }
  pose proof (for_each_invariant positional (out_of_reach group other h)
                (λ x f, positional_out_of_reach group other h x f Hne Hlt)
                args _ Hstart) as Hpos.
  unfold build_args, body, mbind, M_bind.
  destruct (for_each positional args _) as [[] f1|e f1]; simpl in Hpos.
  - pose proof (for_each_invariant named (out_of_reach group other h)
                  (λ x f, named_out_of_reach group other h x f Hne Hlt)
                  kwargs _ Hpos) as Hnamed.
    destruct (for_each named kwargs f1) as [[] f2|e f2]; simpl in *;
      by destruct Hnamed as (_ & ? & ?).
  - by destruct Hpos as (_ & ? & ?).
Qed.

Lemma list_index_first k (pre post : list string) :
  k ∉ pre → list_index k (pre ++ k :: post) = Some (length pre).
Proof.
  induction pre as [|x pre IH]; intros Hnot; simpl.
  - by rewrite decide_True.
  - rewrite decide_False.
    + rewrite IH; [done|]. intros Hin. apply Hnot. by right.
    + intros ->. apply Hnot. left.
Qed.

Lemma build_args_one_named group kw h :
  build_args group [] [kw] h
  = match named kw (Frame h group) with
    | Returns _ f => Returns tt (fheap f)
    | Raises e f => Raises e (fheap f)
    end.
Proof.
  unfold build_args, body. simpl. unfold mbind, M_bind, mret, M_ret.
  by destruct (named kw (Frame h group)) as [[] f|e f].
Qed.

(** One named override, in full.  A flag that is not in the group is added
    at the end with its value.  A flag that is in the group and has a
    token after its first occurrence gets that token replaced, and nothing
    else changes.  A flag whose first occurrence is the last token of the
    group makes the call raise [IndexError], the group unchanged. *)
Theorem build_args_named_override group h k v :
  (k ∉ deref h group →
   ∃ h', build_args group [] [(k, v)] h = Returns tt h'
         ∧ deref h' group = deref h group ++ [k; v])
  ∧ (∀ pre old post, deref h group = pre ++ k :: old :: post → k ∉ pre →
     ∃ h', build_args group [] [(k, v)] h = Returns tt h'
           ∧ deref h' group = pre ++ k :: v :: post)
  ∧ (∀ pre, deref h group = pre ++ [k] → k ∉ pre →
     ∃ h', build_args group [] [(k, v)] h = Raises IndexError h'
           ∧ deref h' group = deref h group).
Proof.
  rewrite build_args_one_named.
  split; [|split].
  - intros Hnot%list_index_none. unfold named, mbind, M_bind, get. simpl.
    unfold current. simpl. rewrite Hnot. simpl. eexists. split; [done|].
    simpl. by rewrite deref_update_same.
  - intros pre old post Hg Hnot.
    pose proof (list_index_first k pre (old :: post) Hnot) as Hidx. rewrite <-Hg in Hidx.
    unfold named, mbind at 1, M_bind at 1, get. simpl.
    change (deref h group) with (current (Frame h group)) in Hidx, Hg.
    rewrite Hidx.
    destruct (setitem_in_range (length pre) k (Frame h group)) as (f1 & Hr1 & Hal1 & Hc1).
    { rewrite Hg, length_app. simpl. lia. }
    unfold mbind, M_bind. rewrite Hr1.
    destruct (setitem_in_range (length pre + 1) v f1) as (f2 & Hr2 & Hal2 & Hc2).
    { rewrite Hc1, length_insert, Hg, length_app. simpl. lia. }
    rewrite Hr2. eexists. split; [done|].
    assert (deref (fheap f2) group = current f2) as ->.
    { unfold current. by rewrite Hal2, Hal1. }
    rewrite Hc2, Hc1, Hg.
    rewrite (list_insert_id (pre ++ k :: old :: post) (length pre) k)
      by (by rewrite lookup_app_r, Nat.sub_diag by lia).
    rewrite insert_app_r_alt by lia.
    by replace (length pre + 1 - length pre) with 1 by lia.
  - intros pre Hg Hnot.
    pose proof (list_index_first k pre [] Hnot) as Hidx. rewrite <-Hg in Hidx.
    unfold named, mbind at 1, M_bind at 1, get. simpl.
    change (deref h group) with (current (Frame h group)) in Hidx, Hg.
    rewrite Hidx.
    destruct (setitem_in_range (length pre) k (Frame h group)) as (f1 & Hr1 & Hal1 & Hc1).
    { rewrite Hg, length_app. simpl. lia. }
    unfold mbind, M_bind. rewrite Hr1.
    rewrite setitem_out_of_range.
    + eexists. split; [done|].
      assert (deref (fheap f1) group = current f1) as ->.
      { unfold current. by rewrite Hal1. }
      rewrite Hc1. unfold current in Hg |- *. simpl in Hg |- *.
      rewrite Hg. apply list_insert_id. by rewrite lookup_app_r, Nat.sub_diag by lia.
    + rewrite Hc1, length_insert, Hg, length_app. simpl. lia.
Qed.

End option_groups.

Section null_output.
Context {host : Host}.
Import BuildArgs Mapper.

(** A named override that returns leaves the flag with its value next to
    it. *)
Lemma named_flag_adjacent k v f f' :
  named (k, v) f = Returns tt f' →
  ∃ i, current f' !! i = Some k ∧ current f' !! (i + 1) = Some v.
Proof.
  unfold named. unfold mbind at 1, M_bind at 1, get at 1. simpl.
  destruct (list_index k (current f)) as [key_pos|] eqn:Hidx.
  - apply list_index_lt in Hidx.
    destruct (setitem_in_range key_pos k f) as (f1 & Hr1 & Hal1 & Hc1).
    { by eapply lookup_lt_Some. }
    rewrite list_insert_id in Hc1 by done.
    unfold mbind, M_bind. rewrite Hr1.
    destruct (decide (key_pos + 1 < length (current f1))) as [Hlt|Hge].
    + destruct (setitem_in_range (key_pos + 1) v f1 Hlt) as (f2 & -> & Hal2 & Hc2).
      intros [= <-]. exists key_pos. rewrite Hc2. split.
      * rewrite list_lookup_insert_ne by lia. by rewrite Hc1.
      * by rewrite list_lookup_insert_eq.
    + by rewrite setitem_out_of_range.
  - intros [= <-]. exists (length (current f)). unfold current. simpl.
    rewrite deref_update_same. fold (current f). split.
    + by rewrite lookup_app_r, Nat.sub_diag by lia.
    + rewrite lookup_app_r by lia.
      by replace (length (current f) + 1 - length (current f)) with 1 by lia.
Qed.

(** A named override raises only for want of a token after the flag: the
    first occurrence of the flag is the last token. *)
Lemma named_raises k v f e f' :
  named (k, v) f = Raises e f' →
  e = IndexError ∧ last (current f) = Some k.
Proof.
  unfold named. unfold mbind at 1, M_bind at 1, get at 1. simpl.
  destruct (list_index k (current f)) as [key_pos|] eqn:Hidx; [|done].
  apply list_index_lt in Hidx.
  destruct (setitem_in_range key_pos k f) as (f1 & Hr1 & Hal1 & Hc1).
  { by eapply lookup_lt_Some. }
  rewrite list_insert_id in Hc1 by done.
  unfold mbind, M_bind. rewrite Hr1.
  destruct (decide (key_pos + 1 < length (current f1))) as [Hlt|Hge].
  - by destruct (setitem_in_range (key_pos + 1) v f1 Hlt) as (f2 & -> & _).
  - rewrite setitem_out_of_range by done. intros [= <- _]. split; [done|].
    rewrite Hc1 in Hge. pose proof (lookup_lt_Some _ _ _ Hidx) as Hlt.
    rewrite last_lookup. replace (pred (length (current f))) with key_pos by lia. done.
Qed.

(** The mapper when [set_output_null] comes to its last statement. *)
Definition with_null_output (w : world) : world :=
  World (set_output discard_target (self w)) (objects w) (calls w).

Lemma set_output_null_last_statement w :
  set_output_null w = build_args_on main_options [] [("-f", "null")] (with_null_output w).
Proof.
  unfold set_output_null, with_null_output, discard_target, on_self.
  rewrite bind_modify. simpl.
  destruct (decide (os_name = "nt")); [by rewrite bind_modify | by rewrite bind_mret].
Qed.

(** [set_output_null], whichever way it ends, has made the discard target
    the output path and has touched no other attribute.  When it returns,
    the main options hold [-f] with [null] right after it.  It raises only
    [IndexError], and then the main options ended in [-f] with nothing
    after it. *)
Theorem set_output_null_effect (w : world) :
  self (final (set_output_null w)) = set_output discard_target (self w)
  ∧ calls (final (set_output_null w)) = calls w
  ∧ (∀ w', set_output_null w = Returns tt w' →
       ∃ i, group main_options w' !! i = Some "-f"
            ∧ group main_options w' !! (i + 1) = Some "null")
  ∧ (∀ e w', set_output_null w = Raises e w' →
       e = IndexError ∧ last (group main_options w) = Some "-f").
Proof.
  rewrite set_output_null_last_statement. unfold build_args_on.
  rewrite build_args_one_named.
  set (f0 := Frame (objects (with_null_output w)) (main_options (self (with_null_output w)))).
  pose proof (named_flag_adjacent "-f" "null" f0) as Hadjacent.
  pose proof (named_raises "-f" "null" f0) as Hraises.
  destruct (named ("-f", "null") f0) as [[] f1|e f1] eqn:Hnamed; simpl.
  - split; [done|]. split; [done|]. split; [|done].
    intros w' [= <-]. destruct (Hadjacent f1 eq_refl) as (i & Hi & Hi').
    assert (options f1 = main_options (self w)) as Hal.
    { by destruct (named_in_place (main_options (self w)) ("-f", "null") f0 f1 eq_refl Hnamed). }
    exists i. unfold group. simpl. unfold current in Hi, Hi'. by rewrite <-Hal.
  - split; [done|]. split; [done|]. split; [done|].
    intros e' w' [= <- _]. by apply (Hraises e f1).
Qed.

End null_output.

(** ** The other methods of [StreamMapper] *)

(** [os.path.splitext]: a path cut before the extension of its last
    component, and that extension. *)
Class OsPath := {
  splitext : string → string * string;
}.

Module MapperRest.
Section methods.
Context {policy : StreamPolicy} {os_path : OsPath}.

(** The character ['.']. *)
Definition dot : Ascii.ascii := Ascii.ascii_of_N 46.

(** [s.lstrip('.')]. *)
Fixpoint lstrip_dots (s : string) : string :=
  match s with
  | EmptyString => EmptyString
  | String c s' => if decide (c = dot) then lstrip_dots s' else s
  end.

(** [get_stream_mapping] (lines 624-633). *)
Definition get_stream_mapping : M world (list string) :=
  w ← get;
  (if Plugin.nonempty (stream_mapping (self w))
   then mret tt
   else Mapper.set_stream_mapping ;; mret tt) ;;
  w' ← get;
  mret (stream_mapping (self w')).

(** [get_stream_encoding] (lines 635-644). *)
Definition get_stream_encoding : M world (list string) :=
  w ← get;
  (if Plugin.nonempty (stream_encoding (self w))
   then mret tt
   else Mapper.set_stream_mapping ;; mret tt) ;;
  w' ← get;
  mret (stream_encoding (self w')).

(** [container_needs_remuxing] (lines 544-556). *)
Definition container_needs_remuxing (container_extension : string) : M world bool :=
  w ← get;
  if Text.is_empty (input_file (self w)) then
    raise (PyException "Input file not yet set")
  else
    let split_file_in := splitext (input_file (self w)) in
    if bool_decide (lstrip_dots split_file_in.2 ≠ lstrip_dots container_extension)
    then mret true
    else mret false.

(** What a caller hands to [set_probe]: metadata, or a [Probe]. *)
Inductive handed : Type :=
  | Metadata (probe_info : pyval)
  | ProbeObject (probe : Probing.Probe).

(** [probe_info.get('format', {}).get('filename')] (line 692); a [Probe]
    has no [get]. *)
Definition format_filename (probe_info : handed) : M world pyval :=
  match probe_info with
  | Metadata (VDict d) =>
      match default (VDict []) (Dict.lookup "format" d) with
      | VDict fmt => mret (default VNone (Dict.lookup "filename" fmt))
      | _ => raise AttributeError
      end
  | Metadata _ => raise AttributeError
  | ProbeObject _ => missing_attribute "get"
  end.

(** [set_probe] (lines 690-700), the one the class keeps.
    [self.__test_valid_mimetype] is the name
    [_StreamMapper__test_valid_mimetype], which [StreamMapper] does not
    define: the lookup raises, and lines 698-700 are not reached. *)
Definition set_probe (probe_info : handed) : M world pyval :=
  file_path ← format_filename probe_info;
  if negb (truthy file_path) then mret VNone
  else missing_attribute "_StreamMapper__test_valid_mimetype".

(** [get_probe] (lines 702-704) and [get] (lines 706-708): [probe_info] is
    not an attribute of a [StreamMapper]. *)
Definition get_probe : M world pyval := missing_attribute "probe_info".
Definition get_key (key : string) (default_value : pyval) : M world pyval :=
  missing_attribute "probe_info".

End methods.
End MapperRest.

(** ** More on the mapping pass *)

Section pass.
Context {policy : StreamPolicy}.
Import Mapper.

Lemma way_taken_same_self k stream_info wA wB :
  self wA = self wB → way_taken k stream_info wA = way_taken k stream_info wB.
Proof. intros Hself. unfold way_taken. by rewrite Hself. Qed.

(** The loop body reads the mapper, not the log of calls: from two worlds
    with the same mapper it returns the same flag, leaves the same mapper,
    and makes the same calls. *)
Lemma map_one_same_self stream_info found wA wB found' wA' :
  self wA = self wB →
  map_one stream_info found wA = Returns found' wA' →
  ∃ wB' cs, map_one stream_info found wB = Returns found' wB'
    ∧ self wA' = self wB'
    ∧ calls wA' = calls wA ++ cs ∧ calls wB' = calls wB ++ cs.
Proof.
  intros Hself Hret. destruct (kind_of stream_info) as [k|] eqn:Hk.
  - rewrite (map_one_recognised _ k) in Hret |- * by done.
    pose proof (way_taken_same_self k stream_info wA wB Hself) as Hway.
    apply map_stream_returns in Hret as (sm & se & -> & Hshape). simpl in Hshape.
    destruct (decide (way_taken k stream_info wA = Mapped)) as [Hm|Hm].
    + rewrite Hm in Hshape. destruct Hshape as [Hshape ->].
      pose proof (map_stream_maps k stream_info found wB) as Hmaps.
      rewrite <-Hway, Hm in Hmaps. specialize (Hmaps eq_refl). simpl in Hmaps.
      rewrite <-Hself, Hshape in Hmaps. rewrite Hmaps.
      eexists _, _. split; [done|]. unfold emit, record_calls. simpl.
      rewrite Hself, Hm. simpl. by rewrite <-Hself.
    + pose proof (map_stream_copies k stream_info found wB) as Hcopies.
      rewrite <-Hway in Hcopies. specialize (Hcopies Hm). simpl in Hcopies.
      rewrite Hcopies. eexists _, _.
      assert (sm = copy_selection k (count_of k (stream_counts (self wA)))
              ∧ se = copy_codec k (count_of k (stream_counts (self wA)))
              ∧ found' = found) as (-> & -> & ->).
      { by destruct (way_taken k stream_info wA). }
      split; [done|]. unfold emit, record_calls. simpl. by rewrite Hself.
  - rewrite map_one_unrecognised in Hret |- * by done.
    destruct (codec_type_is_text stream_info); [|done]. injection Hret as <- <-.
    exists wB, []. by rewrite !app_nil_r.
Qed.

Lemma map_all_same_self streams : ∀ found wA wB found' wA',
  self wA = self wB →
  map_all streams found wA = Returns found' wA' →
  ∃ wB' cs, map_all streams found wB = Returns found' wB'
    ∧ self wA' = self wB'
    ∧ calls wA' = calls wA ++ cs ∧ calls wB' = calls wB ++ cs.
Proof.
  induction streams as [|s streams IH]; intros found wA wB found' wA' Hself; simpl.
  - intros [= <- <-]. exists wB, []. by rewrite !app_nil_r.
  - intros (found1 & wA1 & Hone & Hrest)%bind_inv_returns.
    destruct (map_one_same_self s found wA wB found1 wA1 Hself Hone)
      as (wB1 & cs1 & HoneB & Hself1 & HcA1 & HcB1).
    destruct (IH found1 wA1 wB1 found' wA' Hself1 Hrest)
      as (wB' & cs2 & HrestB & Hself' & HcA' & HcB').
    exists wB', (cs1 ++ cs2). rewrite (bind_returns _ _ _ _ _ HoneB).
    split; [done|]. split; [done|].
    rewrite HcA', HcA1, HcB', HcB1. by rewrite !app_assoc.
Qed.

(** The attributes a pass does not write. *)
Definition configuration (m : StreamMapper) : StreamMapper :=
  set_counts no_streams_counted (set_directives [] [] m).

Lemma map_one_configuration stream_info found w :
  configuration (self (final (map_one stream_info found w))) = configuration (self w)
  ∧ objects (final (map_one stream_info found w)) = objects w.
Proof.
  destruct (kind_of stream_info) as [k|] eqn:Hk.
  - rewrite (map_one_recognised _ k) by done.
    destruct (decide (way_taken k stream_info w = Mapped)) as [Hm|Hm].
    + pose proof (map_stream_maps k stream_info found w Hm) as Hmaps. simpl in Hmaps.
      destruct (well_shaped _) as [[sm se]|].
      * by rewrite Hmaps.
      * by destruct Hmaps as [msg ->].
    + by rewrite (map_stream_copies k stream_info found w Hm).
  - rewrite map_one_unrecognised by done. by destruct (codec_type_is_text _).
Qed.

Lemma map_all_configuration streams : ∀ found w,
  configuration (self (final (map_all streams found w))) = configuration (self w)
  ∧ objects (final (map_all streams found w)) = objects w.
Proof.
  induction streams as [|s streams IH]; intros found w; simpl; [done|].
  unfold mbind, M_bind. pose proof (map_one_configuration s found w) as [Hc Ho].
  destruct (map_one s found w) as [found1 w1|e w1]; simpl in *; [|done].
  destruct (IH found1 w1) as [Hc' Ho']. split; congruence.
Qed.

(** Whether it returns or raises, a pass writes the two directive lists
    and the five counters and nothing else: the probe, the configured kinds,
    the two paths and the option groups stay as they were. *)
Lemma set_stream_mapping_configuration w :
  configuration (self (final (set_stream_mapping w))) = configuration (self w)
  ∧ objects (final (set_stream_mapping w)) = objects w.
Proof.
  destruct (probe_streams (self w)) as [[|s l]|] eqn:Hp.
  - unfold set_stream_mapping. by rewrite bind_get, Hp.
  - rewrite (set_stream_mapping_loop w (s :: l) Hp) by done.
    by destruct (map_all_configuration (s :: l) false (start w)) as [-> ->].
  - unfold set_stream_mapping. by rewrite bind_get, Hp.
Qed.

(** A pass that has returned can be run again: it returns the same flag,
    leaves the same mapper, and makes the same calls once more. *)
Lemma set_stream_mapping_again w found w1 :
  set_stream_mapping w = Returns found w1 →
  ∃ w2 cs, set_stream_mapping w1 = Returns found w2
    ∧ self w2 = self w1
    ∧ calls w1 = calls w ++ cs ∧ calls w2 = calls w1 ++ cs.
Proof.
  intros Hret.
  pose proof (set_stream_mapping_configuration w) as [Hconf _]. rewrite Hret in Hconf.
  simpl in Hconf.
  assert (probe_streams (self w1) = probe_streams (self w)) as Hprobe.
  { change (probe_streams (configuration (self w1)) = probe_streams (configuration (self w))).
    by rewrite Hconf. }
  destruct (probe_streams (self w)) as [[|s l]|] eqn:Hp.
  - unfold set_stream_mapping in Hret |- *. rewrite bind_get in Hret |- *.
    rewrite Hp in Hret. injection Hret as <- <-. rewrite Hp.
    exists w, []. by rewrite app_nil_r.
  - rewrite (set_stream_mapping_loop w (s :: l) Hp) in Hret by done.
    rewrite (set_stream_mapping_loop w1 (s :: l) Hprobe) by done.
    destruct (map_all_same_self (s :: l) false (start w) (start w1) found w1)
      as (w2 & cs & Hret2 & Hself & Hc1 & Hc2); [symmetry; exact Hconf | done |].
    exists w2, cs. by rewrite Hret2.
  - unfold set_stream_mapping in Hret |- *. rewrite bind_get in Hret |- *.
    rewrite Hp in Hret. injection Hret as <- <-. rewrite Hp.
    exists w, []. by rewrite app_nil_r.
Qed.

End pass.

Section pass_properties.
Context {policy : StreamPolicy}.
Import Mapper.

(** What one stream adds to the selection list and to the codec list,
    given the streams before it: the mapping the producer gave for its
    ordinal when it sets one off, its copy directive when it is of a
    recognised kind and does not, nothing otherwise. *)
Definition share (w : world) (earlier : list dict) (stream_info : dict)
    : list string * list string :=
  match kind_of stream_info with
  | Some k =>
      let n := ordinal k earlier in
      if triggers w earlier stream_info
      then default ([], []) (well_shaped (custom_stream_mapping stream_info n))
      else (copy_selection k n, copy_codec k n)
  | None => ([], [])
  end.

(** The shares of the streams [rest], in their order. *)
Fixpoint shares (w : world) (earlier rest : list dict) : list string * list string :=
  match rest with
  | [] => ([], [])
  | stream_info :: rest' =>
      ((share w earlier stream_info).1 ++ (shares w (earlier ++ [stream_info]) rest').1,
       (share w earlier stream_info).2 ++ (shares w (earlier ++ [stream_info]) rest').2)
  end.

Lemma map_one_share w0 earlier stream_info found w found' w' :
  stands_after w0 earlier w →
  map_one stream_info found w = Returns found' w' →
  stream_mapping (self w') = stream_mapping (self w) ++ (share w0 earlier stream_info).1
  ∧ stream_encoding (self w')
    = stream_encoding (self w) ++ (share w0 earlier stream_info).2.
Proof.
  intros Hst Hret. unfold share. destruct (kind_of stream_info) as [k|] eqn:Hk.
  - rewrite (map_one_recognised _ k) in Hret by done.
    apply map_stream_returns in Hret as (sm & se & -> & Hway). simpl in Hway.
    rewrite <-(way_taken_triggers w0 earlier w stream_info k Hst Hk).
    destruct Hst as [_ Hcount]. rewrite Hcount in Hway. simpl.
    destruct (way_taken k stream_info w); simpl;
      [by destruct Hway as (-> & -> & _) ..|].
    destruct Hway as [-> _]. done.
  - rewrite map_one_unrecognised in Hret by done.
    destruct (codec_type_is_text stream_info); [|done]. injection Hret as <- <-.
    simpl. by rewrite !app_nil_r.
Qed.

Lemma map_all_shares w0 rest : ∀ earlier found w found' w',
  stands_after w0 earlier w →
  map_all rest found w = Returns found' w' →
  stream_mapping (self w') = stream_mapping (self w) ++ (shares w0 earlier rest).1
  ∧ stream_encoding (self w') = stream_encoding (self w) ++ (shares w0 earlier rest).2.
Proof.
  induction rest as [|s rest IH]; intros earlier found w found' w' Hst; simpl.
  - intros [= <- <-]. by rewrite !app_nil_r.
  - intros (found1 & w1 & Hone & Hrest)%bind_inv_returns.
    destruct (map_one_share _ _ _ _ _ _ _ Hst Hone) as [Hsm1 Hse1].
    destruct (map_one_stands _ _ _ _ _ _ _ Hst Hone) as [Hst1 _].
    destruct (IH _ _ _ _ _ Hst1 Hrest) as [Hsm Hse].
    rewrite Hsm, Hse, Hsm1, Hse1. by rewrite !app_assoc.
Qed.

(** What a pass builds.  A pass that returns leaves, as the selection list
    and the codec list, the shares of the probe's streams one after the
    other in stream order, whatever the two lists held before; and each
    counter stands at the number of streams of its kind. *)
Theorem pass_builds_directives w streams found w' :
  probe_streams (self w) = Some streams → streams ≠ [] →
  streams_need_processing w = Returns found w' →
  stream_mapping (self w') = (shares w [] streams).1
  ∧ stream_encoding (self w') = (shares w [] streams).2
  ∧ ∀ k, count_of k (stream_counts (self w')) = ordinal k streams.
Proof.
  intros Hp Hne. unfold streams_need_processing.
  rewrite (set_stream_mapping_loop w streams Hp Hne). intros Hret.
  destruct (map_all_shares w streams [] false (start w) found w' (start_stands w) Hret)
    as [Hsm Hse].
  destruct (map_all_stands w streams [] false (start w) found w' (start_stands w) Hret)
    as [[_ Hcount] _].
  split; [exact Hsm|]. split; [exact Hse|]. exact Hcount.
Qed.

(** A pass can be repeated.  After a pass that returned, a second pass
    returns the same flag and leaves the mapper exactly as the first left
    it (no directive is doubled); it puts the same questions to the
    subclass again. *)
Theorem streams_need_processing_repeatable w found w1 :
  streams_need_processing w = Returns found w1 →
  ∃ w2, streams_need_processing w1 = Returns found w2
    ∧ self w2 = self w1
    ∧ objects w2 = objects w1
    ∧ drop (length (calls w1)) (calls w2) = drop (length (calls w)) (calls w1).
Proof.
  unfold streams_need_processing. intros Hret.
  destruct (set_stream_mapping_again w found w1 Hret) as (w2 & cs & Hret2 & Hself & Hc1 & Hc2).
  exists w2. split; [done|]. split; [done|]. split.
  - pose proof (set_stream_mapping_configuration w1) as [_ Ho]. by rewrite Hret2 in Ho.
  - by rewrite Hc2, Hc1, !drop_app_length.
Qed.

Lemma map_all_unconfigured streams : ∀ found w,
  processing_stream_type (self w) = [] →
  calls (final (map_all streams found w)) = calls w
  ∧ ∀ found' w', map_all streams found w = Returns found' w' → found' = found.
Proof.
  induction streams as [|s streams IH]; intros found w Hpst; simpl.
  - split; [done|]. by intros found' w' [= <- _].
  - assert (calls (final (map_one s found w)) = calls w
            ∧ ∀ found1 w1, map_one s found w = Returns found1 w1 → found1 = found)
      as [Hcalls Hflag].
    { destruct (kind_of s) as [k|] eqn:Hk.
      - rewrite (map_one_recognised _ k) by done.
        assert (way_taken k s w = NotConfigured) as Hway.
        { unfold way_taken. by rewrite Hpst. }
        rewrite map_stream_copies by by rewrite Hway.
        rewrite Hway. simpl. split; [by rewrite app_nil_r|]. by intros ?? [= <- _].
      - rewrite map_one_unrecognised by done.
        destruct (codec_type_is_text s); [|done]. split; [done|]. by intros ?? [= <- _]. }
    pose proof (map_one_configuration s found w) as [Hconf _].
    unfold mbind, M_bind.
    destruct (map_one s found w) as [found1 w1|e w1]; simpl in *; [|done].
    rewrite (Hflag found1 w1 eq_refl).
    assert (processing_stream_type (self w1) = []) as Hpst1.
    { change (processing_stream_type (configuration (self w1)) = []). by rewrite Hconf. }
    destruct (IH found w1 Hpst1) as [Hcalls' Hflag']. split; [congruence | done].
Qed.

(** A mapper with no kind configured (an empty list, or [None]) never
    calls the subclass during a pass, whether the pass returns or raises,
    and a pass that returns gives [False]. *)
Theorem unconfigured_pass_asks_nothing w :
  processing_stream_type (self w) = [] →
  calls (final (streams_need_processing w)) = calls w
  ∧ ∀ found w', streams_need_processing w = Returns found w' → found = false.
Proof.
  intros Hpst. unfold streams_need_processing.
  destruct (probe_streams (self w)) as [[|s l]|] eqn:Hp.
  - unfold set_stream_mapping. rewrite bind_get, Hp. split; [done|].
    by intros ?? [= <- _].
  - rewrite (set_stream_mapping_loop w (s :: l) Hp) by done.
    by apply (map_all_unconfigured (s :: l) false (start w)).
  - unfold set_stream_mapping. rewrite bind_get, Hp. split; [done|].
    by intros ?? [= <- _].
Qed.

End pass_properties.

Section accessors.
Context {policy : StreamPolicy} {os_path : OsPath}.
Import Mapper MapperRest.

Lemma get_stream_mapping_cases w :
  get_stream_mapping w
  = if Plugin.nonempty (stream_mapping (self w))
    then Returns (stream_mapping (self w)) w
    else match set_stream_mapping w with
         | Returns _ w1 => Returns (stream_mapping (self w1)) w1
         | Raises e w1 => Raises e w1
         end.
Proof.
  unfold get_stream_mapping. rewrite bind_get.
  destruct (Plugin.nonempty (stream_mapping (self w))).
  - by rewrite bind_mret, bind_get.
  - unfold mbind, M_bind. by destruct (set_stream_mapping w).
Qed.

Lemma get_stream_encoding_cases w :
  get_stream_encoding w
  = if Plugin.nonempty (stream_encoding (self w))
    then Returns (stream_encoding (self w)) w
    else match set_stream_mapping w with
         | Returns _ w1 => Returns (stream_encoding (self w1)) w1
         | Raises e w1 => Raises e w1
         end.
Proof.
  unfold get_stream_encoding. rewrite bind_get.
  destruct (Plugin.nonempty (stream_encoding (self w))).
  - by rewrite bind_mret, bind_get.
  - unfold mbind, M_bind. by destruct (set_stream_mapping w).
Qed.

(** [get_stream_mapping] runs a pass only when the selection list is
    empty; a list that holds something is returned as it is, with no call
    to the subclass.  What it returns is the selection list it leaves, and
    asking again returns the same list and leaves the same mapper, also
    when the list is empty and the pass is run once more. *)
Theorem get_stream_mapping_stable w :
  (stream_mapping (self w) ≠ [] →
   get_stream_mapping w = Returns (stream_mapping (self w)) w)
  ∧ ∀ l w1, get_stream_mapping w = Returns l w1 →
      l = stream_mapping (self w1)
      ∧ ∃ w2, get_stream_mapping w1 = Returns l w2 ∧ self w2 = self w1.
Proof.
  split.
  - intros Hne. rewrite get_stream_mapping_cases.
    by destruct (stream_mapping (self w)).
  - intros l w1. rewrite get_stream_mapping_cases.
    destruct (Plugin.nonempty (stream_mapping (self w))) eqn:Hfull.
    + intros [= <- <-]. split; [done|]. exists w.
      by rewrite get_stream_mapping_cases, Hfull.
    + destruct (set_stream_mapping w) as [found w'|e w'] eqn:Hpass; [|done].
      intros [= <- <-]. split; [done|].
      rewrite get_stream_mapping_cases.
      destruct (Plugin.nonempty (stream_mapping (self w'))); [by exists w'|].
      destruct (set_stream_mapping_again w found w' Hpass) as (w2 & cs & -> & Hself & _).
      exists w2. by rewrite Hself.
Qed.

(** The same for [get_stream_encoding] and the codec list. *)
Theorem get_stream_encoding_stable w :
  (stream_encoding (self w) ≠ [] →
   get_stream_encoding w = Returns (stream_encoding (self w)) w)
  ∧ ∀ l w1, get_stream_encoding w = Returns l w1 →
      l = stream_encoding (self w1)
      ∧ ∃ w2, get_stream_encoding w1 = Returns l w2 ∧ self w2 = self w1.
Proof.
  split.
  - intros Hne. rewrite get_stream_encoding_cases.
    by destruct (stream_encoding (self w)).
  - intros l w1. rewrite get_stream_encoding_cases.
    destruct (Plugin.nonempty (stream_encoding (self w))) eqn:Hfull.
    + intros [= <- <-]. split; [done|]. exists w.
      by rewrite get_stream_encoding_cases, Hfull.
    + destruct (set_stream_mapping w) as [found w'|e w'] eqn:Hpass; [|done].
      intros [= <- <-]. split; [done|].
      rewrite get_stream_encoding_cases.
      destruct (Plugin.nonempty (stream_encoding (self w'))); [by exists w'|].
      destruct (set_stream_mapping_again w found w' Hpass) as (w2 & cs & -> & Hself & _).
      exists w2. by rewrite Hself.
Qed.

Lemma lstrip_dots_idempotent s : lstrip_dots (lstrip_dots s) = lstrip_dots s.
Proof.
  induction s as [|c s IH]; simpl; [done|].
  case_decide as Hc; [done|]. simpl. by rewrite decide_False.
Qed.

(** [container_needs_remuxing] raises when no input path is set and
    otherwise returns and changes nothing.  Dots in front of the extension
    asked for do not count, whether one is added or all are removed; the
    answer is [False] exactly when the two extensions, rid of the dots in
    front of them, are the same text. *)
Theorem container_needs_remuxing_dots container_extension w :
  container_needs_remuxing (String dot container_extension) w
  = container_needs_remuxing container_extension w
  ∧ container_needs_remuxing (lstrip_dots container_extension) w
    = container_needs_remuxing container_extension w
  ∧ (input_file (self w) = "" →
     container_needs_remuxing container_extension w
     = Raises (PyException "Input file not yet set") w)
  ∧ (input_file (self w) ≠ "" →
     ∃ needed, container_needs_remuxing container_extension w = Returns needed w
       ∧ (needed = false ↔
          lstrip_dots (splitext (input_file (self w))).2
          = lstrip_dots container_extension)).
Proof.
  unfold container_needs_remuxing. rewrite !bind_get.
  split; [|split; [|split]].
  - reflexivity.
  - by rewrite lstrip_dots_idempotent.
  - by intros ->.
  - intros Hin. destruct (input_file (self w)) eqn:Hfile; [done|]. simpl.
    case_bool_decide as Hne.
    + exists true. split; [done|]. split; [done|]. intros Heq. by destruct Hne.
    + exists false. split; [done|]. split; [|done]. intros _.
      by destruct (decide (lstrip_dots (splitext (String a s)).2
                           = lstrip_dots container_extension)).
Qed.

End accessors.

(** ** What is left of probing *)

Section probe_rest.
Context {host : Host}.
Import Probing Handoff.

(** [init_probe] gives no [Probe].  Whatever the machine and the data, it
    leaves the data as it was, and when it returns it returns [None].
    Without [ffprobe] on the machine it raises the exception of
    [__init__]; with shared metadata in the data it raises
    [AttributeError], the name [set_probe] not being one of [Probe]; and
    with no [shared_info] in the data it returns [None], the file not
    having been probed. *)
Theorem init_probe_gives_no_probe allowed_mimetypes (data : task_data) :
  final (init_probe allowed_mimetypes data) = data
  ∧ (∀ r data', init_probe allowed_mimetypes data = Returns r data' → r = None)
  ∧ (which "ffprobe" = None →
     ∃ msg, init_probe allowed_mimetypes data = Raises (PyException msg) data)
  ∧ (∀ shared blob,
       is_Some (which "ffprobe") →
       shared_info data = Some (VDict shared) →
       Dict.lookup "ffprobe" shared = Some blob → truthy blob = true →
       init_probe allowed_mimetypes data = Raises AttributeError data)
  ∧ (is_Some (which "ffprobe") → shared_info data = None →
     init_probe allowed_mimetypes data = Returns None data).
Proof.
  unfold init_probe, init.
  destruct (which "ffprobe") as [found|].
  2: { split; [done|]. split; [done|]. split; [by eexists|].
       split; [by intros shared blob [? [=]] | by intros [? [=]]]. }
  assert (∀ probe,
    (data0 ← get;
     probed ← on_probe (file (path data0)) probe;
     if negb (truthy probed.1) then mret None
     else current ← on_probe (missing_attribute (A := pyval) "get_probe") probed.2;
          share_ffprobe current.1 ;; mret (Some probed.2)) data
    = Returns None data) as Hprobing.
  { intros probe. rewrite bind_get. unfold on_probe, mbind, M_bind.
    by rewrite file_returns_none. }
  unfold shared_ffprobe. rewrite bind_assoc, bind_get.
  destruct (shared_info data) as [[| | | | |shared]|] eqn:Hshared;
    try (split; [done|]; split; [done|]; split; [done|]; split; done).
  - rewrite bind_mret.
    destruct (truthy (default VNone (Dict.lookup "ffprobe" shared))) eqn:Htruthy.
    + split; [done|]. split; [done|]. split; [done|]. split; done.
    + rewrite Hprobing. split; [done|]. split; [by intros r data' [= <- _]|].
      split; [done|]. split; [|done].
      intros shared' blob _ [= <-] Hblob Hblob'. rewrite Hblob in Htruthy. simpl in Htruthy.
      congruence.
  - rewrite bind_mret. simpl. rewrite Hprobing.
    split; [done|]. split; [by intros r data' [= <- _]|]. split; [done|]. split; done.
Qed.

(** [ffprobe_file], once the process has run, raises [FFProbeError]
    exactly when the run failed as [ffprobe_cmd] sees it or its output is
    not JSON; in every other case it returns the parsed output.  No other
    exception leaves it. *)
Theorem ffprobe_file_outcomes {S} file_path (s : S) out returncode :
  popen ("ffprobe" :: ffprobe_params file_path) = Exited out returncode →
  (ffprobe_file file_path s = Raises FFProbeError s
   ↔ invocation_failed out returncode
     ∨ ∃ raw_output, decode_utf8 out = Some raw_output ∧ json_loads raw_output = None)
  ∧ (¬ (invocation_failed out returncode
        ∨ ∃ raw_output, decode_utf8 out = Some raw_output ∧ json_loads raw_output = None) →
     ∃ raw_output info,
       decode_utf8 out = Some raw_output ∧ json_loads raw_output = Some info
       ∧ ffprobe_file file_path s = Returns info s).
Proof.
  intros Hrun. split; [split|].
  - rewrite (ffprobe_file_exited file_path s out returncode Hrun),
            (ffprobe_cmd_exited _ s out returncode Hrun).
    unfold invocation_failed.
    destruct (decode_utf8 out) as [raw_output|]; [|intros _; left; by left].
    destruct (bool_decide (returncode = 1%Z)) eqn:Hrc; simpl.
    { apply bool_decide_eq_true in Hrc. intros _. left. right. by left. }
    destruct (Text.str_in "error" raw_output) eqn:Herr; simpl.
    { intros _. left. right. right. exists raw_output. by auto. }
    destruct (Text.is_empty raw_output) eqn:Hempty.
    { apply is_empty_true in Hempty. intros _. left. right. right.
      exists raw_output. by auto. }
    destruct (json_loads raw_output) eqn:Hjson; [done|].
    intros _. right. by exists raw_output.
  - by apply ffprobe_file_fails.
  - intros Hfine.
    rewrite (ffprobe_file_exited file_path s out returncode Hrun),
            (ffprobe_cmd_exited _ s out returncode Hrun).
    unfold invocation_failed in Hfine.
    destruct (decode_utf8 out) as [raw_output|]; [|exfalso; apply Hfine; left; by left].
    destruct (bool_decide (returncode = 1%Z)) eqn:Hrc; simpl.
    { apply bool_decide_eq_true in Hrc. exfalso. apply Hfine. left. right. by left. }
    destruct (Text.str_in "error" raw_output) eqn:Herr; simpl.
    { exfalso. apply Hfine. left. right. right. exists raw_output. by auto. }
    destruct (Text.is_empty raw_output) eqn:Hempty.
    { apply is_empty_true in Hempty. exfalso. apply Hfine. left. right. right.
      exists raw_output. by auto. }
    destruct (json_loads raw_output) as [info|] eqn:Hjson.
    + by exists raw_output, info.
    + exfalso. apply Hfine. right. by exists raw_output.
Qed.

End probe_rest.

Section mapper_probe.
Import Mapper MapperRest.

(** [StreamMapper.set_probe] sets nothing.  Whatever it is handed, it
    leaves the mapper as it was: it returns only [None], it raises only
    [AttributeError], and it raises when it is handed a [Probe], and when
    it is handed metadata that names its file. *)
Theorem set_probe_sets_nothing (probe_info : handed) (w : world) :
  final (set_probe probe_info w) = w
  ∧ (∀ v w', set_probe probe_info w = Returns v w' → v = VNone)
  ∧ (∀ e w', set_probe probe_info w = Raises e w' → e = AttributeError)
  ∧ (∀ probe, set_probe (ProbeObject probe) w = Raises AttributeError w)
  ∧ (∀ d fmt file_name,
       Dict.lookup "format" d = Some (VDict fmt) →
       Dict.lookup "filename" fmt = Some (VStr file_name) → file_name ≠ "" →
       set_probe (Metadata (VDict d)) w = Raises AttributeError w).
Proof.
  split; [|split; [|split; [|split]]].
  - unfold set_probe, format_filename, mbind, M_bind.
    destruct probe_info as [[| | | | |d]|probe]; try done.
    destruct (default (VDict []) (Dict.lookup "format" d)) as [| | | | |fmt]; try done.
    simpl. by destruct (truthy _).
  - intros v w'. unfold set_probe, format_filename, mbind, M_bind.
    destruct probe_info as [[| | | | |d]|probe]; try done.
    destruct (default (VDict []) (Dict.lookup "format" d)) as [| | | | |fmt]; try done.
    simpl. destruct (truthy _); [done|]. by intros [= <- _].
  - intros e w'. unfold set_probe, format_filename, mbind, M_bind.
    destruct probe_info as [[| | | | |d]|probe]; try (by intros [= <- _]).
    destruct (default (VDict []) (Dict.lookup "format" d)) as [| | | | |fmt];
      try (by intros [= <- _]).
    simpl. destruct (truthy _); [|done]. by intros [= <- _].
  - done.
  - intros d fmt file_name Hformat Hname Hsome.
    unfold set_probe, format_filename, mbind, M_bind. rewrite Hformat. simpl.
    rewrite Hname. simpl. by destruct file_name.
Qed.

End mapper_probe.

(** ** More of [file_has_metadata] *)

Section metadata_rest.
Context {casing : Text.Casing}.
Import Plugin.

Lemma prefix_has_upper needle : ∀ hay,
  String.prefix needle hay = true → has_upper needle = true → has_upper hay = true.
Proof.
  induction needle as [|a needle IH]; intros hay; simpl; [done|].
  destruct hay as [|b hay]; simpl; [done|].
  destruct (Ascii.ascii_dec a b) as [->|]; [|done].
  intros Hprefix [Ha|Hrest]%orb_true_iff.
  - by rewrite Ha.
  - rewrite (IH hay Hprefix Hrest). by rewrite orb_true_r.
Qed.

Lemma str_in_has_upper needle hay :
  Text.str_in needle hay = true → has_upper needle = true → has_upper hay = true.
Proof.
  intros Hin Hupper. induction hay as [|b hay IH]; simpl in Hin.
  - rewrite orb_false_r in Hin. by apply (prefix_has_upper needle).
  - apply orb_true_iff in Hin as [Hprefix|Hlater].
    + by apply (prefix_has_upper needle).
    + simpl. rewrite (IH Hlater). by rewrite orb_true_r.
Qed.

(** A key with an upper-case letter is a piece of no lower-cased name. *)
Lemma upper_case_key_in_no_name metadata_key k :
  has_upper metadata_key = true → Text.str_in metadata_key (Text.str_lower k) = false.
Proof.
  intros Hupper. destruct (Text.str_in _ _) eqn:Hin; [|done].
  pose proof (str_in_has_upper _ _ Hin Hupper) as Hlower.
  by rewrite Text.str_lower_no_upper in Hlower.
Qed.

Lemma upper_case_key_no_item metadata_key metadata_value (items : dict) :
  has_upper metadata_key = true →
  existsb (item_hit metadata_key metadata_value) items = false.
Proof.
  intros Hupper. induction items as [|kv items IH]; simpl; [done|].
  unfold item_hit at 1. by rewrite upper_case_key_in_no_name, IH.
Qed.

Lemma upper_case_key_scan metadata_key metadata_value streams found :
  has_upper metadata_key = true →
  tags_scan metadata_key metadata_value streams tt = Returns found tt →
  found = false.
Proof.
  intros Hupper. rewrite tags_scan_merged.
  destruct (merge_tags streams [] tt) as [merged []|e []].
  - destruct (forallb _ merged); [|done]. rewrite upper_case_key_no_item by done.
    by intros [= <-].
  - destruct e; try done. by intros [= <-].
Qed.

(** The names of the container and of the tags are put in lower case
    before the key is looked for in them, the key is not.  So a key with an
    upper-case letter matches nothing there, whatever the names are: when
    [file_has_metadata] is called with such a key and returns, it returns
    [True] exactly when a video stream has a field of that very name with
    the value in it. *)
Theorem upper_case_key_misses_names
    path probe_streams probe_format metadata_key metadata_value found :
  has_upper metadata_key = true →
  file_has_metadata path probe_streams probe_format metadata_key metadata_value tt
  = Returns found tt →
  found = true ↔ video_field_matches metadata_key metadata_value probe_streams.
Proof.
  intros Hupper. rewrite file_has_metadata_steps.
  destruct (forallb (field_ok _) _); [|done].
  destruct (forallb (item_ok _) _); [|done].
  intros (ast & [] & Hast & Hrun)%bind_inv_returns.
  apply bind_inv_returns in Hrun as (vst & [] & Hvst & Hrun).
  apply bind_inv_returns in Hrun as (aust & [] & Haust & Hrun).
  injection Hrun as <-.
  rewrite (upper_case_key_scan _ _ _ _ Hupper Hast),
          (upper_case_key_scan _ _ _ _ Hupper Hvst),
          (upper_case_key_scan _ _ _ _ Hupper Haust),
          (upper_case_key_no_item _ _ _ Hupper).
  rewrite !orb_false_r. apply video_field_matches_hit.
Qed.

(** A value of the wrong kind stops the search.  [in] has no meaning on a
    number, a truth value or [None]; when a video stream holds one under
    the key itself, or the container holds one under a name that has the
    key as a piece, [file_has_metadata] raises [TypeError], whatever else
    would have matched. *)
Theorem value_without_in_raises
    path probe_streams probe_format metadata_key metadata_value :
  (∃ stream v, stream ∈ of_type "video" probe_streams
     ∧ Dict.lookup metadata_key stream = Some v ∧ testable v = false)
  ∨ (∃ k v, (k, v) ∈ flatten_format probe_format
       ∧ Text.str_in metadata_key (Text.str_lower k) = true ∧ testable v = false) →
  file_has_metadata (S := unit) path probe_streams probe_format
    metadata_key metadata_value tt
  = Raises TypeError tt.
Proof.
  intros Hcase. rewrite file_has_metadata_steps.
  destruct (forallb (field_ok _) _) eqn:Hfields; [|done].
  destruct (forallb (item_ok _) _) eqn:Hitems; [|done].
  destruct Hcase as [(stream & v & Hin & Hlookup & Hv)|(k & v & Hin & Hk & Hv)].
  - pose proof (proj1 (forallb_elem_of _ _) Hfields stream Hin) as Hok.
    unfold field_ok in Hok. rewrite Hlookup in Hok. congruence.
  - pose proof (proj1 (forallb_elem_of _ _) Hitems (k, v) Hin) as Hok.
    unfold item_ok in Hok. simpl in Hok. rewrite Hk, Hv in Hok. done.
Qed.

End metadata_rest.

(** ** The three option setters *)

Section option_setters.
Import Mapper.

(** The three groups of the mapper are three list objects. *)
Definition separate (w : world) : Prop :=
  generic_options (self w) ≠ main_options (self w)
  ∧ generic_options (self w) ≠ advanced_options (self w)
  ∧ main_options (self w) ≠ advanced_options (self w)
  ∧ generic_options (self w) < next (objects w)
  ∧ main_options (self w) < next (objects w)
  ∧ advanced_options (self w) < next (objects w).

Lemma new_mapper_separate pst : separate (new_mapper pst).
Proof. unfold separate, new_mapper. simpl. lia. Qed.

(** One setter and a group it is not for. *)
Lemma build_args_on_other r other args kwargs w :
  other (self w) ≠ r (self w) → other (self w) < next (objects w) →
  let w' := final (build_args_on r args kwargs w) in
  group other w' = group other w
  ∧ self w' = self w ∧ calls w' = calls w
  ∧ next (objects w) ≤ next (objects w').
Proof.
  intros Hne Hlt.
  pose proof (build_args_out_of_reach (r (self w)) (other (self w)) args kwargs
                (objects w) Hne Hlt) as [Hnext Hother].
  unfold build_args_on, group.
  destruct (BuildArgs.build_args _ _ _ _) as [[] h|e h]; simpl in *; by rewrite Hother.
Qed.

(** The option groups do not share.  On a mapper whose three groups are
    three list objects, as [__init__] leaves them, each of
    [set_ffmpeg_generic_options], [set_ffmpeg_main_options] and
    [set_ffmpeg_advanced_options], with any arguments and whether it
    returns or raises, leaves the two other groups and every attribute of
    the mapper as they were, calls nothing of the subclass, and leaves the
    groups three list objects. *)
Theorem option_setters_are_separate args kwargs w :
  separate w →
  (let w' := final (set_ffmpeg_generic_options args kwargs w) in
   group main_options w' = group main_options w
   ∧ group advanced_options w' = group advanced_options w
   ∧ self w' = self w ∧ calls w' = calls w ∧ separate w')
  ∧ (let w' := final (set_ffmpeg_main_options args kwargs w) in
     group generic_options w' = group generic_options w
     ∧ group advanced_options w' = group advanced_options w
     ∧ self w' = self w ∧ calls w' = calls w ∧ separate w')
  ∧ (let w' := final (set_ffmpeg_advanced_options args kwargs w) in
     group generic_options w' = group generic_options w
     ∧ group main_options w' = group main_options w
     ∧ self w' = self w ∧ calls w' = calls w ∧ separate w').
Proof.
  intros (Hgm & Hga & Hma & Hg & Hm & Ha).
  unfold set_ffmpeg_generic_options, set_ffmpeg_main_options,
    set_ffmpeg_advanced_options.
  split; [|split].
  - destruct (build_args_on_other generic_options main_options args kwargs w)
      as (Hother1 & Hself & Hcalls & Hnext); [done..|].
    destruct (build_args_on_other generic_options advanced_options args kwargs w)
      as (Hother2 & _); [done..|].
    cbv zeta. split; [done|]. split; [done|]. split; [done|]. split; [done|].
    unfold separate. rewrite Hself. repeat split; first [done | lia].
  - destruct (build_args_on_other main_options generic_options args kwargs w)
      as (Hother1 & Hself & Hcalls & Hnext); [done..|].
    destruct (build_args_on_other main_options advanced_options args kwargs w)
      as (Hother2 & _); [done..|].
    cbv zeta. split; [done|]. split; [done|]. split; [done|]. split; [done|].
    unfold separate. rewrite Hself. repeat split; first [done | lia].
  - destruct (build_args_on_other advanced_options generic_options args kwargs w)
      as (Hother1 & Hself & Hcalls & Hnext); [done..|].
    destruct (build_args_on_other advanced_options main_options args kwargs w)
      as (Hother2 & _); [done..|].
    cbv zeta. split; [done|]. split; [done|]. split; [done|]. split; [done|].
    unfold separate. rewrite Hself. repeat split; first [done | lia].
Qed.

End option_setters.

(** ** Instances *)

(** On a new mapper, [set_ffmpeg_generic_options('-nostats',
    **{'-loglevel': 'quiet'})] leaves the main and the advanced options as
    [__init__] made them. *)
Lemma option_setters_are_separate_witness :
  let w := Mapper.new_mapper [] in
  let w' := final (Mapper.set_ffmpeg_generic_options
                     ["-nostats"] [("-loglevel", "quiet")] w) in
  separate w
  ∧ Mapper.group main_options w' = Mapper.group main_options w
  ∧ Mapper.group advanced_options w' = Mapper.group advanced_options w.
Proof.
  intros w w'.
  assert (separate w) as Hseparate.
  { unfold separate. simpl. lia. }
  split; [exact Hseparate|].
  destruct (option_setters_are_separate ["-nostats"] [("-loglevel", "quiet")] w Hseparate)
    as [(Hmain & Hadvanced & _) _].
  split; [exact Hmain | exact Hadvanced].
Defined.

(** The generic options of a new mapper are [-hide_banner -loglevel info];
    the override [-loglevel quiet] replaces [info]. *)
Lemma build_args_named_override_witness :
  let w := Mapper.new_mapper [] in
  let g := generic_options (self w) in
  deref (objects w) g = ["-hide_banner"] ++ "-loglevel" :: "info" :: []
  ∧ ("-loglevel" ∉ ["-hide_banner"])
  ∧ ∃ h', BuildArgs.build_args g [] [("-loglevel", "quiet")] (objects w) = Returns tt h'
          ∧ deref h' g = ["-hide_banner"] ++ "-loglevel" :: "quiet" :: [].
Proof.
  intros w g.
  assert (deref (objects w) g = ["-hide_banner"] ++ "-loglevel" :: "info" :: []) as Hg.
  { vm_compute. reflexivity. }
  assert ("-loglevel" ∉ ["-hide_banner"]) as Hnot.
  { intros Hin. apply list_elem_of_singleton in Hin. discriminate Hin. }
  split; [exact Hg|]. split; [exact Hnot|].
  destruct (build_args_named_override g (objects w) "-loglevel" "quiet")
    as (_ & Hpresent & _).
  exact (Hpresent ["-hide_banner"] "info" [] Hg Hnot).
Defined.

(** [-hide_banner] is in the generic options of a new mapper: a call that
    passes it first changes nothing, whatever follows it. *)
Lemma build_args_present_token_is_lost_witness :
  let w := Mapper.new_mapper [] in
  let g := generic_options (self w) in
  g < next (objects w)
  ∧ "-hide_banner" ∈ deref (objects w) g
  ∧ deref (final (BuildArgs.build_args g ["-hide_banner"; "-nostats"]
                    [("-loglevel", "quiet")] (objects w))) g
    = deref (objects w) g.
Proof.
  intros w g.
  assert (g < next (objects w)) as Hlt.
  { vm_compute. lia. }
  assert ("-hide_banner" ∈ deref (objects w) g) as Hin.
  { assert (deref (objects w) g = ["-hide_banner"; "-loglevel"; "info"]) as ->.
    { vm_compute. reflexivity. }
    left. }
  split; [exact Hlt|]. split; [exact Hin|].
  exact (build_args_present_token_is_lost g "-hide_banner" ["-nostats"]
           [("-loglevel", "quiet")] (objects w) Hlt Hin).
Defined.

(** [-nostats] is not there: the same call without [-hide_banner] does
    what the override law says. *)
Lemma build_args_new_tokens_are_visible_witness :
  let w := Mapper.new_mapper [] in
  let g := generic_options (self w) in
  let h' := final (BuildArgs.build_args g ["-nostats"] [("-loglevel", "quiet")]
                     (objects w)) in
  NoDup ["-nostats"]
  ∧ (∀ a, a ∈ ["-nostats"] → a ∉ deref (objects w) g)
  ∧ BuildArgs.build_args g ["-nostats"] [("-loglevel", "quiet")] (objects w)
    = Returns tt h'
  ∧ deref h' g
    = OverrideLaw.apply_overrides (deref (objects w) g)
        ["-nostats"] [("-loglevel", "quiet")].
Proof.
  intros w g h'.
  assert (NoDup ["-nostats"]) as Hnodup.
  { apply NoDup_singleton. }
  assert (∀ a, a ∈ ["-nostats"] → a ∉ deref (objects w) g) as Hnew.
  { intros a Ha. apply list_elem_of_singleton in Ha. subst a.
    assert (deref (objects w) g = ["-hide_banner"; "-loglevel"; "info"]) as ->.
    { vm_compute. reflexivity. }
    intros Hin. apply list_elem_of_In in Hin. simpl in Hin.
    destruct Hin as [Hin|[Hin|[Hin|[]]]]; discriminate Hin. }
  assert (BuildArgs.build_args g ["-nostats"] [("-loglevel", "quiet")] (objects w)
          = Returns tt h') as Hrun.
  { vm_compute. reflexivity. }
  split; [exact Hnodup|]. split; [exact Hnew|]. split; [exact Hrun|].
  exact (build_args_new_tokens_are_visible g ["-nostats"] [("-loglevel", "quiet")]
           (objects w) h' Hnodup Hnew Hrun).
Defined.

(** The pass over an H.264 video stream, an audio stream and an HEVC video
    stream, for a subclass that re-encodes video that is not HEVC. *)
Lemma pass_builds_directives_witness :
  let streams := [Scenario.h264_video; Scenario.aac_audio; Scenario.hevc_video] in
  let w := Scenario.mapper streams in
  let w' := final (Mapper.streams_need_processing (policy := Scenario.to_hevc) w) in
  probe_streams (self w) = Some streams
  ∧ streams ≠ []
  ∧ Mapper.streams_need_processing (policy := Scenario.to_hevc) w = Returns true w'
  ∧ stream_mapping (self w') = (shares (policy := Scenario.to_hevc) w [] streams).1
  ∧ stream_encoding (self w') = (shares (policy := Scenario.to_hevc) w [] streams).2
  ∧ (shares (policy := Scenario.to_hevc) w [] streams).2
    = ["-c:v:0"; "libx265"; "-c:a:0"; "copy"; "-c:v:1"; "copy"].
Proof.
  intros streams w w'.
  assert (probe_streams (self w) = Some streams) as Hprobe.
  { vm_compute. reflexivity. }
  assert (streams ≠ []) as Hsome.
  { discriminate. }
  assert (Mapper.streams_need_processing (policy := Scenario.to_hevc) w = Returns true w')
    as Hrun.
  { vm_compute. reflexivity. }
  destruct (pass_builds_directives (policy := Scenario.to_hevc) w streams true w'
              Hprobe Hsome Hrun) as (Hmapping & Hencoding & _).
  split; [exact Hprobe|]. split; [exact Hsome|]. split; [exact Hrun|].
  split; [exact Hmapping|]. split; [exact Hencoding|].
  vm_compute. reflexivity.
Defined.

(** The same pass, run a second time. *)
Lemma streams_need_processing_repeatable_witness :
  let w := Scenario.mapper [Scenario.h264_video; Scenario.aac_audio; Scenario.hevc_video] in
  let w1 := final (Mapper.streams_need_processing (policy := Scenario.to_hevc) w) in
  Mapper.streams_need_processing (policy := Scenario.to_hevc) w = Returns true w1
  ∧ ∃ w2, Mapper.streams_need_processing (policy := Scenario.to_hevc) w1 = Returns true w2
      ∧ self w2 = self w1
      ∧ objects w2 = objects w1
      ∧ drop (length (calls w1)) (calls w2) = drop (length (calls w)) (calls w1).
Proof.
  intros w w1.
  assert (Mapper.streams_need_processing (policy := Scenario.to_hevc) w = Returns true w1)
    as Hrun.
  { vm_compute. reflexivity. }
  split; [exact Hrun|].
  exact (streams_need_processing_repeatable (policy := Scenario.to_hevc) w true w1 Hrun).
Defined.

(** A mapper made with no kind, its probe holding an H.264 stream the
    subclass would re-encode. *)
Lemma unconfigured_pass_asks_nothing_witness :
  let w := final (Mapper.assign_probe (Some [Scenario.h264_video])
                    (Mapper.new_mapper [])) in
  processing_stream_type (self w) = []
  ∧ calls (final (Mapper.streams_need_processing (policy := Scenario.to_hevc) w))
    = calls w.
Proof.
  intros w.
  assert (processing_stream_type (self w) = []) as Hnone.
  { vm_compute. reflexivity. }
  split; [exact Hnone|].
  exact (proj1 (unconfigured_pass_asks_nothing (policy := Scenario.to_hevc) w Hnone)).
Defined.

(** A run that printed the empty object and exited with status 0: the
    parsed output is returned. *)
Lemma ffprobe_file_outcomes_witness :
  popen (Host := machine true exit_status_zero)
        ("ffprobe" :: Probing.ffprobe_params "movie.mkv")
  = Exited (String.list_byte_of_string "{}") 0
  ∧ ∃ raw_output info,
      decode_utf8 (Host := machine true exit_status_zero)
        (String.list_byte_of_string "{}") = Some raw_output
      ∧ json_loads (Host := machine true exit_status_zero) raw_output = Some info
      ∧ Probing.ffprobe_file (host := machine true exit_status_zero) "movie.mkv" tt
        = Returns info tt.
Proof.
  split; [reflexivity|].
  apply (proj2 (ffprobe_file_outcomes (host := machine true exit_status_zero)
                  "movie.mkv" tt (String.list_byte_of_string "{}") 0 eq_refl)).
  intros [[Hdecode|[Hcode|(raw & Hdecode & [Herror|Hempty])]]|(raw & Hdecode & Hjson)].
  - discriminate Hdecode.
  - discriminate Hcode.
  - vm_compute in Hdecode. injection Hdecode as <-. vm_compute in Herror.
    discriminate Herror.
  - vm_compute in Hdecode. injection Hdecode as <-. discriminate Hempty.
  - vm_compute in Hdecode. injection Hdecode as <-. vm_compute in Hjson.
    discriminate Hjson.
Defined.

(** The container of [movie.mkv] has the tag [ENCODER]; asked for under
    that very name, it is not found. *)
Lemma upper_case_key_misses_names_witness :
  has_upper "ENCODER" = true
  ∧ Plugin.file_has_metadata "movie.mkv" [Library.video_stream; Library.audio_english]
      Library.format "ENCODER" "Lavf" tt
    = Returns false tt
  ∧ (false = true
     ↔ video_field_matches "ENCODER" "Lavf" [Library.video_stream; Library.audio_english]).
Proof.
  assert (has_upper "ENCODER" = true) as Hupper.
  { vm_compute. reflexivity. }
  assert (Plugin.file_has_metadata "movie.mkv" [Library.video_stream; Library.audio_english]
            Library.format "ENCODER" "Lavf" tt
          = Returns false tt) as Hrun.
  { vm_compute. reflexivity. }
  split; [exact Hupper|]. split; [exact Hrun|].
  exact (upper_case_key_misses_names "movie.mkv"
           [Library.video_stream; Library.audio_english] Library.format
           "ENCODER" "Lavf" false Hupper Hrun).
Defined.

(** Asked for in lower case, the same tag is found. *)
Example lower_case_key_finds_name :
  Plugin.file_has_metadata "movie.mkv" [Library.video_stream; Library.audio_english]
    Library.format "encoder" "Lavf" tt
  = Returns true tt.
Proof. vm_compute. reflexivity. Qed.

(** The container of [movie.mkv] counts its streams under [nb_streams], a
    number: the key [streams] meets it. *)
Lemma value_without_in_raises_witness :
  (∃ k v, (k, v) ∈ Plugin.flatten_format Library.format
     ∧ Text.str_in "streams" (Text.str_lower k) = true ∧ testable v = false)
  ∧ Plugin.file_has_metadata "movie.mkv" [Library.video_stream] Library.format
      "streams" "3" tt
    = Raises TypeError tt.
Proof.
  assert (∃ k v, (k, v) ∈ Plugin.flatten_format Library.format
            ∧ Text.str_in "streams" (Text.str_lower k) = true ∧ testable v = false) as Hnumber.
  { exists "nb_streams", (VNum 3).
    assert (Plugin.flatten_format Library.format
            = [("filename", VStr "movie.mkv"); ("nb_streams", VNum 3);
               ("format_name", VStr "matroska,webm");
               ("ENCODER", VStr "Lavf58.76.100")]) as ->.
    { vm_compute. reflexivity. }
    split; [right; left|]. split; vm_compute; reflexivity. }
  split; [exact Hnumber|].
  exact (value_without_in_raises "movie.mkv" [Library.video_stream] Library.format
           "streams" "3" (or_intror Hnumber)).
Defined.

(** ** The file test of the plugin *)

(** [on_library_management_file_test] (plugin.py, lines 88-125).  The
    [Probe] it uses is imported from the package
    [ignore_files_based_on_metadata], which is not part of this one: it is
    an interface here.  [Settings] is built and not used. *)
Module Runner.

(** What [get_probe()] holds after a probe: the entries [streams] and
    [format], each of which may be missing. *)
Record probe_result := ProbeResult {
  result_streams : option (list dict);
  result_format : option dict;
}.

(** [Probe(logger, allowed_mimetypes=['video'])] and [file(abspath)] on it:
    an exception, or [None] where [file] gives nothing, or what the probe
    holds. *)
Class VideoProbe := {
  probe_video : pyval → exn + option probe_result;
}.

Section functions.
Context {casing : Text.Casing} {foreign : VideoProbe}.

Definition pending : string := "add_file_to_pending_tasks".

(** [d[key]] for an entry that may be missing. *)
Definition subscript {S A} (entry : option A) : M S A :=
  match entry with
  | Some a => mret a
  | None => raise KeyError
  end.

(** The path as [file_has_metadata] writes it to the log. *)
Definition logged_path (abspath : pyval) : string :=
  match abspath with
  | VStr s => s
  | _ => ""
  end.

Definition on_library_management_file_test : M dict unit :=
  data ← get;
  let abspath := default VNone (Dict.lookup "path" data) in
  match probe_video abspath with
  | inl e => raise e
  | inr (Some probe_data) =>
      probe_streams ← subscript (result_streams probe_data);
      probe_format ← subscript (result_format probe_data);
      is_hevc ← Plugin.file_has_metadata (logged_path abspath)
                  probe_streams probe_format "codec_name" "hevc";
      is_h264 ← Plugin.file_has_metadata (logged_path abspath)
                  probe_streams probe_format "codec_name" "h264";
      is_ten_bit ← Plugin.file_has_metadata (logged_path abspath)
                     probe_streams probe_format "pix_fmt" "yuv420p10le";
      if (is_hevc || is_h264) && negb is_ten_bit
      then modify (Dict.set pending (VBool false))
      else mret tt
  | inr None => modify (Dict.set pending (VBool false))
  end.

End functions.
End Runner.

Section runner.
Context {casing : Text.Casing} {foreign : Runner.VideoProbe}.
Import Plugin Runner.

(** An outcome of a function that has no state of its own, in a caller. *)
Definition in_state {S A} (o : outcome unit A) (s : S) : outcome S A :=
  match o with
  | Returns a _ => Returns a s
  | Raises e _ => Raises e s
  end.

Lemma merge_tags_any_state {S} streams : ∀ acc (s : S),
  merge_tags streams acc s = in_state (merge_tags streams acc tt) s.
Proof.
  induction streams as [|x streams IH]; intros acc s; simpl; [done|].
  destruct (Dict.lookup "tags" x) as [[| | | | |tags]|]; first [apply IH | done].
Qed.

Lemma tags_scan_any_state {S} metadata_key metadata_value streams (s : S) :
  tags_scan metadata_key metadata_value streams s
  = in_state (tags_scan metadata_key metadata_value streams tt) s.
Proof.
  rewrite !tags_scan_merged, merge_tags_any_state.
  destruct (merge_tags streams [] tt) as [merged []|e []]; simpl.
  - by destruct (forallb _ merged).
  - by destruct e.
Qed.

(** [file_has_metadata] reads and writes nothing of its caller. *)
Lemma file_has_metadata_any_state {S}
    path probe_streams probe_format metadata_key metadata_value (s : S) :
  file_has_metadata path probe_streams probe_format metadata_key metadata_value s
  = in_state (file_has_metadata path probe_streams probe_format
                metadata_key metadata_value tt) s.
Proof.
  rewrite file_has_metadata_steps.
  unfold file_has_metadata.
  unfold mbind at 1, M_bind at 1.
  rewrite (select_filter _ (field_ok metadata_key)
             (field_hit metadata_key metadata_value) TypeError)
    by (intros; apply field_matches_hit).
  destruct (forallb _ (of_type "video" probe_streams)); [|done].
  unfold mbind at 1, M_bind at 1.
  rewrite (select_filter _ (item_ok metadata_key)
             (item_hit metadata_key metadata_value) TypeError)
    by (intros; apply item_matches_hit).
  destruct (forallb _ (flatten_format probe_format)); [|done].
  rewrite !nonempty_filter. unfold mbind, M_bind.
  rewrite (tags_scan_any_state _ _ (of_type "attachment" probe_streams) s).
  destruct (tags_scan _ _ (of_type "attachment" probe_streams) tt) as [ast []|e []];
    simpl; [|done].
  rewrite (tags_scan_any_state _ _ (of_type "video" probe_streams) s).
  destruct (tags_scan _ _ (of_type "video" probe_streams) tt) as [vst []|e []];
    simpl; [|done].
  rewrite (tags_scan_any_state _ _ (of_type "audio" probe_streams) s).
  destruct (tags_scan _ _ (of_type "audio" probe_streams) tt) as [aust []|e []];
    simpl; [|done].
  by destruct (_ || _ || ast || vst || aust).
Qed.

(** The test can only veto.  Whatever the probe gives, the data is left as
    it was or with [add_file_to_pending_tasks] set to [False], nothing else
    being written; an exception leaves it as it was; and a probe that gives
    nothing is a veto. *)
Theorem file_test_only_vetoes (data : dict) :
  (final (on_library_management_file_test data) = data
   ∨ final (on_library_management_file_test data)
     = Dict.set pending (VBool false) data)
  ∧ (∀ e, raised (on_library_management_file_test data) = Some e →
       final (on_library_management_file_test data) = data)
  ∧ (probe_video (default VNone (Dict.lookup "path" data)) = inr None →
     on_library_management_file_test data
     = Returns tt (Dict.set pending (VBool false) data)).
Proof.
  unfold on_library_management_file_test. rewrite bind_get.
  destruct (probe_video _) as [e|[probe_data|]]; simpl.
  - split; [by left|]. split; done.
  - split; [|split; [|done]].
    + unfold mbind, M_bind, subscript.
      destruct (result_streams probe_data) as [probe_streams|]; simpl; [|by left].
      destruct (result_format probe_data) as [probe_format|]; simpl; [|by left].
      rewrite (file_has_metadata_any_state _ _ _ _ _ data).
      destruct (file_has_metadata _ _ _ "codec_name" "hevc" tt) as [is_hevc []|e1 []];
        simpl; [|by left].
      rewrite (file_has_metadata_any_state _ _ _ _ _ data).
      destruct (file_has_metadata _ _ _ "codec_name" "h264" tt) as [is_h264 []|e2 []];
        simpl; [|by left].
      rewrite (file_has_metadata_any_state _ _ _ _ _ data).
      destruct (file_has_metadata _ _ _ "pix_fmt" "yuv420p10le" tt)
        as [is_ten_bit []|e3 []]; simpl; [|by left].
      destruct ((is_hevc || is_h264) && negb is_ten_bit); simpl; [by right | by left].
    + intros e. unfold mbind, M_bind, subscript.
      destruct (result_streams probe_data) as [probe_streams|]; simpl; [|done].
      destruct (result_format probe_data) as [probe_format|]; simpl; [|done].
      rewrite (file_has_metadata_any_state _ _ _ _ _ data).
      destruct (file_has_metadata _ _ _ "codec_name" "hevc" tt) as [is_hevc []|e1 []];
        simpl; [|done].
      rewrite (file_has_metadata_any_state _ _ _ _ _ data).
      destruct (file_has_metadata _ _ _ "codec_name" "h264" tt) as [is_h264 []|e2 []];
        simpl; [|done].
      rewrite (file_has_metadata_any_state _ _ _ _ _ data).
      destruct (file_has_metadata _ _ _ "pix_fmt" "yuv420p10le" tt)
        as [is_ten_bit []|e3 []]; simpl; [|done].
      by destruct ((is_hevc || is_h264) && negb is_ten_bit).
  - split; [by right|]. split; done.
Qed.

End runner.

(** A probe that holds what [ffprobe] says of the library's files:
    [movie.mkv], HEVC with ten bits, and [show.mp4], H.264 with eight. *)
Definition show_streams : list dict :=
  [[("index", VNum 0); ("codec_name", VStr "h264"); ("codec_type", VStr "video");
    ("pix_fmt", VStr "yuv420p")]].

Definition show_format : dict := [("filename", VStr "show.mp4")].

Definition library_probe : Runner.VideoProbe := {|
  Runner.probe_video := λ abspath,
    match abspath with
    | VStr file_path =>
        if decide (file_path = "movie.mkv") then
          inr (Some (Runner.ProbeResult
                       (Some [Library.video_stream; Library.audio_english])
                       (Some Library.format)))
        else if decide (file_path = "show.mp4") then
          inr (Some (Runner.ProbeResult (Some show_streams) (Some show_format)))
        else inr None
    | _ => inl TypeError
    end;
|}.

(** [show.mp4] is vetoed. *)
Example file_test_vetoes_eight_bit :
  let data := [("path", VStr "show.mp4"); ("add_file_to_pending_tasks", VBool true)] in
  Runner.on_library_management_file_test (foreign := library_probe) data
  = Returns tt [("path", VStr "show.mp4"); ("add_file_to_pending_tasks", VBool false)].
Proof. vm_compute. reflexivity. Qed.

(** [movie.mkv] is not: the data is left as it was. *)
Example file_test_keeps_ten_bit :
  let data := [("path", VStr "movie.mkv"); ("add_file_to_pending_tasks", VBool true)] in
  Runner.on_library_management_file_test (foreign := library_probe) data
  = Returns tt data.
Proof. vm_compute. reflexivity. Qed.
